(** * Clumper: a shallow embedding of [clumper/clump.py]

    The Python class [Clumper] wraps a list of dictionaries ([blob]) and a
    tuple of group keys ([groups]).  This development embeds the join engine
    ([_merge_dicts], [left_join], [inner_join]), the aggregation dispatcher
    ([summarise_col] and the scalar verbs), the group partitioner
    ([_group_combos], [_subsets]), [agg], [transform] and [mutate] under the
    decorator [grouped], the slicing verbs [head] / [tail], the verbs
    [keep], [select], [drop], [map], [keys] and [explode], twice: as
    functions on the value of a collection, and as programs on a heap of
    objects, where [group_by] and [ungroup] assign to the object they are
    called on and the other verbs construct new objects.  It proves
    properties of them. *)

From Stdlib Require Import List String Ascii ZArith Bool Lia Arith Permutation.
Import ListNotations.
Local Open Scope string_scope.
Local Open Scope list_scope.

(** ** Python values *)

Module Py.

(** The values stored under the keys of a record.  Floats, booleans, tuples
    and nested dictionaries are left out; a list is the only unhashable
    value. *)
#[warnings="-register-all"]
Inductive value : Type :=
| VNone
| VInt (n : Z)
| VStr (s : string)
| VList (l : list value).

(** Python exceptions raised by the embedded code. *)
Inductive exn : Type :=
| KeyError
| ValueError
| TypeError
| IndexError
| StatisticsError.

Inductive result (A : Type) : Type :=
| Ok (a : A)
| Raise (e : exn).
Arguments Ok {A} a.
Arguments Raise {A} e.

Definition bind {A B} (r : result A) (f : A -> result B) : result B :=
  match r with
  | Ok a => f a
  | Raise e => Raise e
  end.

(** [mapM f l] evaluates [f] on the elements of [l] from left to right and
    stops at the first exception, as a comprehension does. *)
Fixpoint mapM {A B} (f : A -> result B) (l : list A) : result (list B) :=
  match l with
  | [] => Ok []
  | x :: xs =>
      match f x with
      | Raise e => Raise e
      | Ok y =>
          match mapM f xs with
          | Raise e => Raise e
          | Ok ys => Ok (y :: ys)
          end
      end
  end.

(** [filterM p l] is the comprehension [[d for d in l if p(d)]] for a
    predicate that may raise. *)
Fixpoint filterM {A} (p : A -> result bool) (l : list A) : result (list A) :=
  match l with
  | [] => Ok []
  | x :: xs =>
      match p x with
      | Raise e => Raise e
      | Ok b =>
          match filterM p xs with
          | Raise e => Raise e
          | Ok ys => Ok (if b then x :: ys else ys)
          end
      end
  end.

(** Python's [==] on the modelled values. *)
Fixpoint value_eqb (a b : value) : bool :=
  match a, b with
  | VNone, VNone => true
  | VInt x, VInt y => Z.eqb x y
  | VStr x, VStr y => String.eqb x y
  | VList xs, VList ys =>
      (fix go (xs ys : list value) : bool :=
         match xs, ys with
         | [], [] => true
         | x :: xs', y :: ys' => value_eqb x y && go xs' ys'
         | _, _ => false
         end) xs ys
  | _, _ => false
  end.

(** [==] on two lists of values. *)
Fixpoint values_eqb (xs ys : list value) : bool :=
  match xs, ys with
  | [], [] => true
  | x :: xs', y :: ys' => value_eqb x y && values_eqb xs' ys'
  | _, _ => false
  end.

(** [hash(v)] succeeds: lists are the unhashable values. *)
Definition hashable (v : value) : bool :=
  match v with
  | VList _ => false
  | _ => true
  end.

Definition mem_str (k : string) (l : list string) : bool :=
  existsb (String.eqb k) l.

Definition mem_value (v : value) (l : list value) : bool :=
  existsb (value_eqb v) l.

(** *** Dictionaries

    A [dict] keeps its items in insertion order, which is what decides the
    result when a comprehension produces the same key twice.  A dictionary
    built by Python has no repeated key ([wf]). *)
Definition dict (V : Type) : Type := list (string * V).

Definition keys {V} (d : dict V) : list string := map fst d.
Definition vals {V} (d : dict V) : list V := map snd d.

Fixpoint get {V} (k : string) (d : dict V) : option V :=
  match d with
  | [] => None
  | (k', v) :: d' => if String.eqb k k' then Some v else get k d'
  end.

(** [k in d.keys()] *)
Definition has {V} (k : string) (d : dict V) : bool :=
  match get k d with
  | Some _ => true
  | None => false
  end.

(** [d[k] = v]: overwrite in place, or append a new item. *)
Fixpoint set {V} (k : string) (v : V) (d : dict V) : dict V :=
  match d with
  | [] => [(k, v)]
  | (k', v') :: d' =>
      if String.eqb k k' then (k', v) :: d' else (k', v') :: set k v d'
  end.

(** [d.update(items)], also [{**d, **items}]. *)
Definition update {V} (d : dict V) (items : list (string * V)) : dict V :=
  fold_left (fun acc kv => set (fst kv) (snd kv) acc) items d.

(** The dictionary built by a comprehension that yields [items] in order. *)
Definition of_items {V} (items : list (string * V)) : dict V :=
  update [] items.

Definition wf {V} (d : dict V) : Prop := NoDup (keys d).

(** [d[k]], raising [KeyError] when the key is absent. *)
Definition getitem {V} (k : string) (d : dict V) : result V :=
  match get k d with
  | Some v => Ok v
  | None => Raise KeyError
  end.

End Py.

Import Py.

Notation "x <- c1 ;; c2" := (Py.bind c1 (fun x => c2))
  (at level 61, c1 at next level, right associativity).

Definition record : Type := dict value.

(** ** The join engine *)

(** [list(mapping.keys()) + list(mapping.values())] *)
Definition map_keys (mapping : dict string) : list string :=
  keys mapping ++ vals mapping.

(** [[k for k in set(d1.keys()).intersection(set(d2.keys())) if k not in map_keys]];
    the list is only ever tested for membership, so the iteration order of
    the set does not show. *)
Definition keys_to_suffix (d1 d2 : record) (mapping : dict string) : list string :=
  filter (fun k => has k d2 && negb (mem_str k (map_keys mapping))) (keys d1).

(** [(k + suffix if k in keys_to_suffix else k)] *)
Definition rename_key (to_suffix : list string) (suffix k : string) : string :=
  if mem_str k to_suffix then (k ++ suffix)%string else k.

(** [{(k + suffix if k in keys_to_suffix else k): v for k, v in d.items()}] *)
Definition suffixed (to_suffix : list string) (suffix : string) (d : record) : record :=
  of_items (map (fun kv => (rename_key to_suffix suffix (fst kv), snd kv)) d).

Definition _merge_dicts (d1 d2 : record) (mapping : dict string)
    (suffix1 suffix2 : string) : record :=
  let kts := keys_to_suffix d1 d2 mapping in
  let d1_new := suffixed kts suffix1 d1 in
  let d2_new := suffixed kts suffix2 d2 in
  update d1_new d2_new.

(** [[d[k] for k in ks if k in d.keys()]] *)
Definition present_values (ks : list string) (d : record) : list value :=
  flat_map (fun k => match get k d with Some v => [v] | None => [] end) ks.

(** The test guarding [result.append] in both joins:
    [len(mapping) == len(values_i) == len(values_j)] and then
    [values_i == values_j]. *)
Definition join_test (mapping : dict string) (values_i values_j : list value) : bool :=
  if Nat.eqb (List.length mapping) (List.length values_i)
     && Nat.eqb (List.length values_i) (List.length values_j)
  then values_eqb values_i values_j
  else false.

(** The body of [for d_j in other] in [left_join]; the state is [result] and
    the flag [d_i_added]. *)
Definition left_join_step (mapping : dict string) (lsuffix rsuffix : string)
    (d_i : record) (values_i : list value)
    (st : list record * bool) (d_j : record) : list record * bool :=
  let values_j := present_values (vals mapping) d_j in
  if join_test mapping values_i values_j
  then (fst st ++ [_merge_dicts d_i d_j mapping lsuffix rsuffix], true)
  else st.

(** [left_join] on the record sequences of [self] and [other]. *)
Definition left_join_blob (blob other : list record) (mapping : dict string)
    (lsuffix rsuffix : string) : list record :=
  fold_left
    (fun result d_i =>
       let values_i := present_values (keys mapping) d_i in
       let st := fold_left (left_join_step mapping lsuffix rsuffix d_i values_i)
                   other (result, false) in
       if negb (snd st) then fst st ++ [d_i] else fst st)
    blob [].

(** The body of [for d_j in other] in [inner_join]. *)
Definition inner_join_step (mapping : dict string) (lsuffix rsuffix : string)
    (d_i : record) (values_i : list value)
    (result : list record) (d_j : record) : list record :=
  let values_j := present_values (vals mapping) d_j in
  if join_test mapping values_i values_j
  then result ++ [_merge_dicts d_i d_j mapping lsuffix rsuffix]
  else result.

Definition inner_join_blob (blob other : list record) (mapping : dict string)
    (lsuffix rsuffix : string) : list record :=
  fold_left
    (fun result d_i =>
       let values_i := present_values (keys mapping) d_i in
       fold_left (inner_join_step mapping lsuffix rsuffix d_i values_i) other result)
    blob [].

(** ** Collections *)

(** A [Clumper] object: [self.blob] and [self.groups]. *)
Record Clumper : Type := mkClumper {
  blob : list record;
  groups : list string
}.

(** [Clumper.create_new] *)
Definition create_new (self : Clumper) (new_blob : list record) : Clumper :=
  mkClumper new_blob (groups self).

Definition left_join (self other : Clumper) (mapping : dict string)
    (lsuffix rsuffix : string) : Clumper :=
  create_new self (left_join_blob (blob self) (blob other) mapping lsuffix rsuffix).

Definition inner_join (self other : Clumper) (mapping : dict string)
    (lsuffix rsuffix : string) : Clumper :=
  create_new self (inner_join_blob (blob self) (blob other) mapping lsuffix rsuffix).

(** ** Python built-ins used as reducers *)

(** [len(d)] *)
Definition py_len (d : list value) : result value :=
  Ok (VInt (Z.of_nat (List.length d))).

(** The distinct elements of [d].  Python leaves the iteration order of a
    set unspecified: the model lists first occurrences, which stands for
    any order, and the statements about [set], [unique] and the partitioner
    are about membership, multiplicity and length, or hold up to a
    permutation. *)
Fixpoint distinct (d : list value) : list value :=
  match d with
  | [] => []
  | x :: xs => x :: filter (fun y => negb (value_eqb x y)) (distinct xs)
  end.

(** [set(d)], which raises [TypeError] on an unhashable element. *)
Definition py_set (d : list value) : result (list value) :=
  if forallb hashable d then Ok (distinct d) else Raise TypeError.

(** [sum(d)]: the start value is the integer 0, and [+] is defined between
    integers only. *)
Fixpoint py_sum_from (acc : Z) (d : list value) : result value :=
  match d with
  | [] => Ok (VInt acc)
  | VInt n :: xs => py_sum_from (acc + n) xs
  | _ :: _ => Raise TypeError
  end.

Definition py_sum (d : list value) : result value := py_sum_from 0 d.

(** [a < b]: integers by value, strings and lists lexicographically, and a
    [TypeError] between other operands. *)
Fixpoint py_lt (a b : value) : result bool :=
  match a, b with
  | VInt x, VInt y => Ok (Z.ltb x y)
  | VStr x, VStr y => Ok (String.ltb x y)
  | VList xs, VList ys =>
      (fix go (xs ys : list value) : result bool :=
         match xs, ys with
         | [], [] => Ok false
         | [], _ :: _ => Ok true
         | _ :: _, [] => Ok false
         | x :: xs', y :: ys' =>
             if value_eqb x y then go xs' ys' else py_lt x y
         end) xs ys
  | _, _ => Raise TypeError
  end.

(** [a + b]: the sum of integers and the concatenation of strings or of
    lists; a [TypeError] between other operands. *)
Definition py_add (a b : value) : result value :=
  match a, b with
  | VInt x, VInt y => Ok (VInt (x + y))
  | VStr x, VStr y => Ok (VStr (x ++ y))
  | VList x, VList y => Ok (VList (x ++ y))
  | _, _ => Raise TypeError
  end.

(** The loop of [min] ([keep_if item best] is [item < best]) and of [max]
    ([item > best]). *)
Fixpoint py_best (better : value -> value -> result bool) (best : value)
    (d : list value) : result value :=
  match d with
  | [] => Ok best
  | item :: xs =>
      b <- better item best ;;
      py_best better (if b then item else best) xs
  end.

Definition py_min (d : list value) : result value :=
  match d with
  | [] => Raise ValueError
  | x :: xs => py_best py_lt x xs
  end.

Definition py_max (d : list value) : result value :=
  match d with
  | [] => Raise ValueError
  | x :: xs => py_best (fun item best => py_lt best item) x xs
  end.

(** Iterating over a value: a list yields its elements, a string its
    characters, and the other values are not iterable. *)
Definition py_iter (v : value) : result (list value) :=
  match v with
  | VList l => Ok l
  | VStr s => Ok (map (fun c => VStr (String c EmptyString)) (list_ascii_of_string s))
  | _ => Raise TypeError
  end.

(** [itertools.product] of the unpacked lists [ls]: the rightmost position advances fastest; the
    product of no iterables is the single empty tuple. *)
Fixpoint product (ls : list (list value)) : list (list value) :=
  match ls with
  | [] => [[]]
  | l :: rest => flat_map (fun x => map (cons x) (product rest)) l
  end.

(** [range(a, b)] *)
Definition range (a b : Z) : list Z :=
  map (fun k => a + Z.of_nat k)%Z (seq 0 (Z.to_nat (b - a))).

(** [l[i]] with Python's negative indices. *)
Definition py_index {A} (l : list A) (i : Z) : result A :=
  let n := Z.of_nat (List.length l) in
  let j := if (i <? 0)%Z then (n + i)%Z else i in
  if ((j <? 0) || (n <=? j))%Z then Raise IndexError
  else match nth_error l (Z.to_nat j) with
       | Some x => Ok x
       | None => Raise IndexError
       end.

(** The functions [mean], [median], [variance] and [stdev] of Python's
    [statistics] module compute floats; the development is parametric in
    them. *)
Class Statistics : Type := {
  statistics_mean : list value -> result value;
  statistics_median : list value -> result value;
  statistics_variance : list value -> result value;
  statistics_stdev : list value -> result value
}.

(** A reducer handed to [summarise_col]: a registry name or a callable. *)
Inductive reducer : Type :=
| Named (name : string)
| Callable (f : list value -> result value).

(** [[d[key] for d in self if key in d.keys()]] *)
Definition column (key : string) (data : list record) : list value :=
  flat_map (fun d => match get key d with Some v => [v] | None => [] end) data.

Fixpoint foldM {A B} (f : A -> B -> result A) (l : list B) (acc : A) : result A :=
  match l with
  | [] => Ok acc
  | x :: xs => acc' <- f acc x ;; foldM f xs acc'
  end.

(** [Clumper.keep]: one comprehension per function, in order. *)
Definition keep (self : Clumper) (funcs : list (record -> result bool)) : result Clumper :=
  data <- foldM (fun data func => filterM func data) funcs (blob self) ;;
  Ok (create_new self data).

(** [Clumper.copy] *)
Definition copy (self : Clumper) : Clumper :=
  create_new self (map (fun d => d) (blob self)).

(** [Clumper.head] for an integer [n]. *)
Definition head (self : Clumper) (n : Z) : result Clumper :=
  if (n <? 0)%Z then Raise ValueError
  else
    let n := Z.min n (Z.of_nat (List.length (blob self))) in
    data <- mapM (fun i => py_index (blob self) i) (range 0 n) ;;
    Ok (create_new self data).

(** [Clumper.tail] for an integer [n]:
    [[self.blob[-i] for i in range(len(self) - n, len(self))]]. *)
Definition tail (self : Clumper) (n : Z) : result Clumper :=
  if (n <? 0)%Z then Raise ValueError
  else
    let len := Z.of_nat (List.length (blob self)) in
    let n := Z.min n len in
    data <- mapM (fun i => py_index (blob self) (- i)%Z) (range (len - n) len) ;;
    Ok (create_new self data).

(** [Clumper.select]: [{k: d[k] for k in keys}] for every record. *)
Definition select (self : Clumper) (ks : list string) : result Clumper :=
  data <- mapM (fun d =>
            items <- mapM (fun k => v <- getitem k d ;; Ok (k, v)) ks ;;
            Ok (of_items items)) (blob self) ;;
  Ok (create_new self data).

(** [Clumper.drop]: [{k: v for k, v in d.items() if k not in keys}]. *)
Definition drop (self : Clumper) (ks : list string) : Clumper :=
  create_new self
    (map (fun d => of_items (filter (fun kv => negb (mem_str (fst kv) ks)) d))
       (blob self)).

(** ** Decorators *)

(** Modelled from the spec: the decorator [dict_collection_only] of
    [clumper/decorators.py], which the class imports and which is not among
    the sources.  It rejects a collection with an element that is not a
    record; a [blob] is a list of records here, so the guard always lets the
    method run. *)
Definition dict_collection_only {A} (method : Clumper -> A) : Clumper -> A :=
  method.

(** Modelled from the spec: the decorator [return_value_if_empty] of
    [clumper/decorators.py], which the class imports and which is not among
    the sources.  A scalar verb invoked when zero values are present under
    the requested column hands back the sentinel [value] given to the
    decorator instead of running its reducer.  The sentinels themselves are
    those of the source: [value=None] on [sum], [mean], [min] and [max],
    [value=0] on [count] and [n_unique], [value=[]] on [unique]. *)
Definition return_value_if_empty (value : value)
    (method : Clumper -> string -> result Py.value)
    (self : Clumper) (col : string) : result Py.value :=
  match column col (blob self) with
  | [] => Ok value
  | _ :: _ => method self col
  end.

(** ** Verbs on the records *)

(** [Clumper.map] (the name [map] is that of lists here). *)
Definition clumper_map (self : Clumper) (func : record -> result record)
    : result Clumper :=
  data <- mapM func (blob self) ;;
  Ok (create_new self data).

(** One turn of the outer loop of [Clumper.mutate]: the record is rebuilt as
    [new], and each function of [kwargs], in order, is applied to [new] and
    its result stored in [new]. *)
Definition mutate_record (kw : dict (record -> result value)) (d : record)
    : result record :=
  foldM (fun new kf => v <- snd kf new ;; Ok (set (fst kf) v new)) kw (of_items d).

(** The body of [Clumper.mutate] (the method is decorated with [grouped]). *)
Definition mutate_body (self : Clumper) (kw : dict (record -> result value))
    : result Clumper :=
  data <- mapM (mutate_record kw) (map (fun d => d) (blob self)) ;;
  Ok (create_new self data).

(** One turn of the outer loop of [Clumper.explode]: the list
    [[d[v] for v in to_explode]] is built first, [product] then iterates
    over each of its elements, and every combination gives a copy of the
    record with the new names set. *)
Definition exploded (new_name to_explode : list string) (d : record)
    : result (list record) :=
  values <- mapM (fun v => getitem v d) to_explode ;;
  lists <- mapM py_iter values ;;
  Ok (map (fun comb => update (map (fun kv => kv) d) (combine new_name comb))
        (product lists)).

(** [Clumper.explode]: [to_explode] are the positional keys and [kwargs] the
    [new name = key] pairs. *)
Definition explode : Clumper -> list string -> dict string -> result Clumper :=
  dict_collection_only (fun self (to_explode : list string) (kwargs : dict string) =>
    let kwargs := update kwargs (map (fun k => (k, k)) to_explode) in
    let new_name := keys kwargs in
    let to_explode := vals kwargs in
    res <- mapM (exploded new_name to_explode) (blob self) ;;
    Ok (drop (create_new self (List.concat res))
          (filter (fun k => negb (mem_str k new_name)) to_explode))).

(** ** Objects

    [group_by] and [ungroup] assign to [self.groups] and return [self]; the
    other verbs read [self.blob] and [self.groups] and build their result
    with [create_new] or [Clumper(...)].  A heap of objects addressed by
    references keeps the two apart: a method is a program over the heap,
    written with the three things a method of the class does to an object:
    it reads its fields, it assigns to [groups], it constructs. *)

Definition heap : Type := list Clumper.
Definition ref : Type := nat.

(** The object at [r]; the statements only dereference references below
    the length of the heap. *)
Definition deref (h : heap) (r : ref) : Clumper :=
  nth r h (mkClumper [] []).

(** The object at [r] is replaced in place. *)

Fixpoint write (h : heap) (r : ref) (o : Clumper) : heap :=
  match h, r with
  | [], _ => []
  | _ :: h', O => o :: h'
  | x :: h', S r' => x :: write h' r' o
  end.

(** A new object at the end of the heap. *)
Definition alloc (h : heap) (o : Clumper) : heap * ref :=
  (h ++ [o], List.length h).

(** A program over the heap: the heap it leaves and its value, or the
    exception it raises. *)
Definition prog (A : Type) : Type := heap -> result (heap * A).

Definition ret {A} (a : A) : prog A := fun h => Ok (h, a).

Definition bindp {A B} (p : prog A) (f : A -> prog B) : prog B :=
  fun h =>
    match p h with
    | Ok (h', a) => f a h'
    | Raise e => Raise e
    end.

Notation "x <~ p ;; q" := (bindp p (fun x => q))
  (at level 61, p at next level, right associativity).

(** A computation on values, which leaves the heap alone. *)
Definition lift {A} (r : result A) : prog A :=
  fun h => a <- r ;; Ok (h, a).

(** Reading [self.blob] and [self.groups]. *)
Definition read (r : ref) : prog Clumper := fun h => Ok (h, deref h r).

(** [self.groups = g] *)
Definition assign_groups (r : ref) (g : list string) : prog unit :=
  fun h => Ok (write h r (mkClumper (blob (deref h r)) g), tt).

(** [Clumper(blob, groups=groups)] *)
Definition new (blob : list record) (groups : list string) : prog ref :=
  fun h => Ok (alloc h (mkClumper blob groups)).

Fixpoint mapP {A B} (f : A -> prog B) (l : list A) : prog (list B) :=
  match l with
  | [] => ret []
  | x :: xs => y <~ f x ;; ys <~ mapP f xs ;; ret (y :: ys)
  end.

Fixpoint foldP {A B} (f : A -> B -> prog A) (l : list B) (acc : A) : prog A :=
  match l with
  | [] => ret acc
  | x :: xs => acc' <~ f acc x ;; foldP f xs acc'
  end.

(** [Clumper.create_new] on the object [self]. *)
Definition obj_create_new (self : ref) (new_blob : list record) : prog ref :=
  o <~ read self ;;
  new new_blob (groups o).

(** [Clumper.group_by] *)
Definition obj_group_by (self : ref) (cols : list string) : prog ref :=
  _ <~ assign_groups self cols ;;
  ret self.

(** [Clumper.ungroup] *)
Definition obj_ungroup (self : ref) : prog ref :=
  _ <~ assign_groups self [] ;;
  ret self.

(** [Clumper.keep] *)
Definition obj_keep (self : ref) (funcs : list (record -> result bool)) : prog ref :=
  o <~ read self ;;
  data <~ lift (foldM (fun data func => filterM func data) funcs (blob o)) ;;
  obj_create_new self data.

(** [Clumper.copy] *)
Definition obj_copy (self : ref) : prog ref :=
  o <~ read self ;;
  obj_create_new self (map (fun d => d) (blob o)).

(** [Clumper.head] *)
Definition obj_head (self : ref) (n : Z) : prog ref :=
  if (n <? 0)%Z then lift (Raise ValueError)
  else
    o <~ read self ;;
    let n := Z.min n (Z.of_nat (List.length (blob o))) in
    data <~ lift (mapM (fun i => py_index (blob o) i) (range 0 n)) ;;
    obj_create_new self data.

(** [Clumper.tail] *)
Definition obj_tail (self : ref) (n : Z) : prog ref :=
  if (n <? 0)%Z then lift (Raise ValueError)
  else
    o <~ read self ;;
    let len := Z.of_nat (List.length (blob o)) in
    let n := Z.min n len in
    data <~ lift (mapM (fun i => py_index (blob o) (- i)%Z) (range (len - n) len)) ;;
    obj_create_new self data.

(** [Clumper.select] *)
Definition obj_select (self : ref) (ks : list string) : prog ref :=
  o <~ read self ;;
  data <~ lift (mapM (fun d =>
                  items <- mapM (fun k => v <- getitem k d ;; Ok (k, v)) ks ;;
                  Ok (of_items items)) (blob o)) ;;
  obj_create_new self data.

(** [Clumper.drop] *)
Definition obj_drop (self : ref) (ks : list string) : prog ref :=
  o <~ read self ;;
  obj_create_new self
    (map (fun d => of_items (filter (fun kv => negb (mem_str (fst kv) ks)) d))
       (blob o)).

(** [Clumper.map] *)
Definition obj_map (self : ref) (func : record -> result record) : prog ref :=
  o <~ read self ;;
  data <~ lift (mapM func (blob o)) ;;
  obj_create_new self data.

(** [Clumper.left_join]: the loops read [self] and [other]. *)
Definition obj_left_join (self other : ref) (mapping : dict string)
    (lsuffix rsuffix : string) : prog ref :=
  o <~ read self ;;
  o' <~ read other ;;
  obj_create_new self (left_join_blob (blob o) (blob o') mapping lsuffix rsuffix).

(** [Clumper.inner_join] *)
Definition obj_inner_join (self other : ref) (mapping : dict string)
    (lsuffix rsuffix : string) : prog ref :=
  o <~ read self ;;
  o' <~ read other ;;
  obj_create_new self (inner_join_blob (blob o) (blob o') mapping lsuffix rsuffix).

(** [Clumper.explode]: [self.create_new(res)] is one object and the [drop]
    called on it builds another. *)
Definition obj_explode (self : ref) (to_explode : list string) (kwargs : dict string)
    : prog ref :=
  let kwargs := update kwargs (map (fun k => (k, k)) to_explode) in
  let new_name := keys kwargs in
  let to_explode := vals kwargs in
  o <~ read self ;;
  res <~ lift (mapM (exploded new_name to_explode) (blob o)) ;;
  exploded <~ obj_create_new self (List.concat res) ;;
  obj_drop exploded (filter (fun k => negb (mem_str k new_name)) to_explode).

(** [Clumper.pipe]: [return func(self, ...)]. *)
Definition obj_pipe (self : ref) (func : ref -> prog ref) : prog ref :=
  func self.

(** The heap [h'] is [h] with new objects after it. *)
Definition extends (h h' : heap) : Prop := exists more, h' = h ++ more.

(** The program only adds objects to the heap. *)
Definition grows {A} (p : prog A) : Prop :=
  forall h h' a, p h = Ok (h', a) -> extends h h'.

(** The program only adds objects to the heap, and returns one of them. *)
Definition fresh (p : prog ref) : Prop :=
  forall h h' r, p h = Ok (h', r) ->
    extends h h' /\ List.length h <= r < List.length h'.

(** The reference [r] is live in [h] and the object at [r] is [o]. *)
Definition holds (h : heap) (r : ref) (o : Clumper) : Prop :=
  r < List.length h /\ deref h r = o.

(** A relation between what a program returns and what a computation on
    values returns that adding objects to the heap does not break. *)
Definition stable {A B} (R : heap -> A -> B -> Prop) : Prop :=
  forall h h' a b, extends h h' -> R h a b -> R h' a b.

(** On the heap [h] the program [p] does what the computation [c] on values
    does: it raises the exception that [c] raises, or it only adds objects
    to the heap and returns a value related by [R] to the value of [c]. *)
Definition simulates {A B} (R : heap -> A -> B -> Prop) (p : prog A)
    (c : result B) (h : heap) : Prop :=
  match c with
  | Ok b => exists h' a, p h = Ok (h', a) /\ extends h h' /\ R h' a b
  | Raise e => p h = Raise e
  end.

(** ** Aggregation *)

Section Aggregation.

Context {stats : Statistics}.

(** The registry [funcs] of [summarise_col]. *)
Definition funcs : dict (list value -> result value) :=
  [ ("mean", statistics_mean);
    ("count", fun d => py_len d);
    ("unique", fun d => s <- py_set d ;; Ok (VList s));
    ("n_unique", fun d => s <- py_set d ;; py_len s);
    ("sum", py_sum);
    ("min", py_min);
    ("max", py_max);
    ("median", statistics_median);
    ("var", statistics_variance);
    ("std", statistics_stdev) ].

(** [Clumper.summarise_col] *)
Definition summarise_col (self : Clumper) (func : reducer) (key : string) : result value :=
  f <- match func with
       | Named name =>
           match get name funcs with
           | Some f => Ok f
           | None => Raise ValueError
           end
       | Callable f => Ok f
       end ;;
  f (column key (blob self)).

(** The scalar verbs, each under [@dict_collection_only] and
    [@return_value_if_empty(value=...)]. *)
Definition sum : Clumper -> string -> result value :=
  dict_collection_only (return_value_if_empty VNone
    (fun self col => summarise_col self (Callable py_sum) col)).

Definition mean : Clumper -> string -> result value :=
  dict_collection_only (return_value_if_empty VNone
    (fun self col => summarise_col self (Callable statistics_mean) col)).

Definition count : Clumper -> string -> result value :=
  dict_collection_only (return_value_if_empty (VInt 0)
    (fun self col => summarise_col self (Callable py_len) col)).

Definition n_unique : Clumper -> string -> result value :=
  dict_collection_only (return_value_if_empty (VInt 0)
    (fun self col =>
       summarise_col self (Callable (fun d => s <- py_set d ;; py_len s)) col)).

Definition min : Clumper -> string -> result value :=
  dict_collection_only (return_value_if_empty VNone
    (fun self col => summarise_col self (Callable py_min) col)).

Definition max : Clumper -> string -> result value :=
  dict_collection_only (return_value_if_empty VNone
    (fun self col => summarise_col self (Callable py_max) col)).

Definition unique : Clumper -> string -> result value :=
  dict_collection_only (return_value_if_empty (VList [])
    (fun self col =>
       summarise_col self (Callable (fun d => s <- py_set d ;; Ok (VList s))) col)).

(** ** The group partitioner *)

(** [Clumper._group_combos] *)
Definition _group_combos (self : Clumper) : result (list record) :=
  uniques <- mapM (fun c => u <- unique self c ;; py_iter u) (groups self) ;;
  Ok (map (fun comb => of_items (combine (groups self) comb)) (product uniques)).

(** The function handed to [keep] by [_subsets]: [lambda d: d[key] == value]. *)
Definition key_equals (key : string) (value : value) (d : record) : result bool :=
  v <- getitem key d ;; Ok (value_eqb v value).

(** [Clumper._subsets] *)
Definition _subsets : Clumper -> result (list Clumper) :=
  dict_collection_only (fun self =>
    combos <- _group_combos self ;;
    mapM (fun gc =>
            foldM (fun subset kv => keep subset [key_equals (fst kv) (snd kv)])
              gc (copy self))
      combos).

(** ** [agg], [transform] and the decorator [grouped] *)

(** The keyword arguments of [agg]: [name=(col, func)]. *)
Definition kwargs : Type := dict (string * reducer).

(** The body of [Clumper.agg]. *)
Definition agg_body (self : Clumper) (kw : kwargs) : result Clumper :=
  res <- mapM (fun item =>
           v <- summarise_col self (snd (snd item)) (fst (snd item)) ;;
           Ok (fst item, v)) kw ;;
  Ok (mkClumper [of_items res] (groups self)).

(** Modelled from the spec: the decorator [grouped] of
    [clumper/decorators.py], which the class imports and which is not among
    the sources.  It has one meaning on every method it decorates.  Without
    group keys the method runs on the collection itself.  With group keys it
    runs on every group of the partitioner, in the order of the enumeration;
    the key-combination values of the group are merged with each record the
    method returns for it (a summary record of [agg] so holds them), and the
    records are concatenated into one collection, the group keys being kept
    on the result. *)
Definition grouped (method : Clumper -> result Clumper) (self : Clumper)
    : result Clumper :=
  match groups self with
  | [] => method self
  | _ :: _ =>
      combos <- _group_combos self ;;
      subsets <- _subsets self ;;
      rows <- mapM (fun gs =>
                r <- method (snd gs) ;;
                Ok (map (update (fst gs)) (blob r)))
              (combine combos subsets) ;;
      Ok (mkClumper (List.concat rows) (groups self))
  end.

(** [Clumper.agg], under [@dict_collection_only] and [@grouped]. *)
Definition agg : Clumper -> kwargs -> result Clumper :=
  dict_collection_only (fun self kw => grouped (fun s => agg_body s kw) self).

(** [Clumper.transform], under [@grouped] and [@dict_collection_only]: the
    two lines of the body run on the collection the decorator hands them. *)
Definition transform (self : Clumper) (kw : kwargs) : result Clumper :=
  grouped (dict_collection_only (fun s =>
    agg_results <- agg s kw ;;
    Ok (left_join s agg_results
          (of_items (map (fun k => (k, k)) (groups s))) "" "_joined"))) self.

(** [Clumper.mutate], under [@grouped]. *)
Definition mutate (self : Clumper) (kw : dict (record -> result value))
    : result Clumper :=
  grouped (fun s => mutate_body s kw) self.

(** ** The grouped verbs on objects *)

(** [Clumper._group_combos] reads [self] through [unique]. *)
Definition obj_group_combos (self : ref) : prog (list record) :=
  o <~ read self ;;
  lift (_group_combos o).

(** [Clumper._subsets]: a copy of [self] per combination, narrowed by one
    [keep] per key. *)
Definition obj_subsets (self : ref) : prog (list ref) :=
  combos <~ obj_group_combos self ;;
  mapP (fun gc =>
          subset <~ obj_copy self ;;
          foldP (fun subset kv => obj_keep subset [key_equals (fst kv) (snd kv)])
            gc subset)
    combos.

(** Modelled from the spec: the decorator [grouped] on objects, with the
    meaning of [grouped] above; the result is a new object. *)
Definition obj_grouped (method : ref -> prog ref) (self : ref) : prog ref :=
  o <~ read self ;;
  match groups o with
  | [] => method self
  | _ :: _ =>
      combos <~ obj_group_combos self ;;
      subsets <~ obj_subsets self ;;
      rows <~ mapP (fun gs =>
                r <~ method (snd gs) ;;
                o' <~ read r ;;
                ret (map (update (fst gs)) (blob o')))
              (combine combos subsets) ;;
      new (List.concat rows) (groups o)
  end.

(** The body of [Clumper.agg]: [Clumper([res], groups=self.groups)]. *)
Definition obj_agg_body (self : ref) (kw : kwargs) : prog ref :=
  o <~ read self ;;
  res <~ lift (mapM (fun item =>
                 v <- summarise_col o (snd (snd item)) (fst (snd item)) ;;
                 Ok (fst item, v)) kw) ;;
  new [of_items res] (groups o).

Definition obj_agg (self : ref) (kw : kwargs) : prog ref :=
  obj_grouped (fun s => obj_agg_body s kw) self.

Definition obj_transform (self : ref) (kw : kwargs) : prog ref :=
  obj_grouped (fun s =>
    agg_results <~ obj_agg s kw ;;
    o <~ read s ;;
    obj_left_join s agg_results
      (of_items (map (fun k => (k, k)) (groups o))) "" "_joined") self.

Definition obj_mutate (self : ref) (kw : dict (record -> result value)) : prog ref :=
  obj_grouped (fun s =>
    o <~ read s ;;
    data <~ lift (mapM (mutate_record kw) (map (fun d => d) (blob o))) ;;
    obj_create_new s data) self.

(** The verbs that build their result with [create_new] or [Clumper(...)].
    [sort] (Python's [sorted]), [reduce] (its result is not a collection of
    records of values), [concat] and [pipe] are not among them. *)
Inductive verb : Type :=
| Keep (funcs : list (record -> result bool))
| Head (n : Z)
| Tail (n : Z)
| Select (ks : list string)
| Drop (ks : list string)
| Copy
| LeftJoin (other : ref) (mapping : dict string) (lsuffix rsuffix : string)
| InnerJoin (other : ref) (mapping : dict string) (lsuffix rsuffix : string)
| Agg (kw : kwargs)
| Transform (kw : kwargs)
| Map (func : record -> result record)
| Mutate (kw : dict (record -> result value))
| Explode (to_explode : list string) (kwargs : dict string).

(** A method call on a collection. *)
Inductive call : Type :=
| GroupBy (cols : list string)
| Ungroup
| Build (v : verb).

(** The collection that the verb [v], called on [self], builds. *)
Definition built (h : heap) (self : Clumper) (v : verb) : result Clumper :=
  match v with
  | Keep fs => keep self fs
  | Head n => head self n
  | Tail n => tail self n
  | Select ks => select self ks
  | Drop ks => Ok (drop self ks)
  | Copy => Ok (copy self)
  | LeftJoin other m ls rs => Ok (left_join self (deref h other) m ls rs)
  | InnerJoin other m ls rs => Ok (inner_join self (deref h other) m ls rs)
  | Agg kw => agg self kw
  | Transform kw => transform self kw
  | Map f => clumper_map self f
  | Mutate kw => mutate self kw
  | Explode te kw => explode self te kw
  end.

(** The method of the verb [v] as a program on the object [self]. *)
Definition run (v : verb) (self : ref) : prog ref :=
  match v with
  | Keep fs => obj_keep self fs
  | Head n => obj_head self n
  | Tail n => obj_tail self n
  | Select ks => obj_select self ks
  | Drop ks => obj_drop self ks
  | Copy => obj_copy self
  | LeftJoin other m ls rs => obj_left_join self other m ls rs
  | InnerJoin other m ls rs => obj_inner_join self other m ls rs
  | Agg kw => obj_agg self kw
  | Transform kw => obj_transform self kw
  | Map f => obj_map self f
  | Mutate kw => obj_mutate self kw
  | Explode te kw => obj_explode self te kw
  end.

(** The verbs whose method is one construction from the fields it reads:
    no decorator [grouped], no intermediate object. *)
Definition direct (v : verb) : bool :=
  match v with
  | Agg _ | Transform _ | Mutate _ | Explode _ _ => false
  | _ => true
  end.

(** Running a method call on the object at [self]: the heap it leaves and
    the reference the call returns. *)
Definition exec (h : heap) (self : ref) (c : call) : result (heap * ref) :=
  match c with
  | GroupBy cols => obj_group_by self cols h
  | Ungroup => obj_ungroup self h
  | Build v => run v self h
  end.

End Aggregation.

(** ** Predicates used in the statements *)

(** The pair of records passes the test of the joins. *)
Definition matches (mapping : dict string) (d_i d_j : record) : bool :=
  join_test mapping (present_values (keys mapping) d_i)
    (present_values (vals mapping) d_j).

(** The merged records one left record contributes. *)
Definition merged_with (mapping : dict string) (lsuffix rsuffix : string)
    (other : list record) (d_i : record) : list record :=
  map (fun d_j => _merge_dicts d_i d_j mapping lsuffix rsuffix)
    (filter (matches mapping d_i) other).

(** The left record passes the test with no record of [other]. *)
Definition unmatched (mapping : dict string) (other : list record)
    (d_i : record) : bool :=
  negb (existsb (matches mapping d_i) other).

(** The values of [d] under the keys [ks] equal the combination [comb],
    position by position. *)
Definition in_group (ks : list string) (comb : list value) (d : record) : bool :=
  forallb (fun kv =>
             match get (fst kv) d with
             | Some v => value_eqb v (snd kv)
             | None => false
             end) (combine ks comb).

(** The group of the combination [comb]. *)
Definition group_of (self : Clumper) (comb : list value) : Clumper :=
  mkClumper (filter (in_group (groups self) comb) (blob self)) (groups self).

(** The distinct values observed under each group key. *)
Definition distinct_values (self : Clumper) : list (list value) :=
  map (fun k => distinct (column k (blob self))) (groups self).

(** Every record holds every group key, with a hashable value. *)
Definition groupable (self : Clumper) : Prop :=
  forall d k, In d (blob self) -> In k (groups self) ->
    exists v, get k d = Some v /\ hashable v = true.

(** The aggregation results over [s], where they are defined. *)
Definition agg_values {stats : Statistics} (s : Clumper) (kw : kwargs)
    : list (string * value) :=
  map (fun item =>
         (fst item,
          match summarise_col s (snd (snd item)) (fst (snd item)) with
          | Ok v => v
          | Raise _ => VNone
          end)) kw.

(** The summary record of the group of [comb]. *)
Definition summary_of {stats : Statistics} (self : Clumper) (kw : kwargs)
    (comb : list value) : record :=
  update (combine (groups self) comb) (of_items (agg_values (group_of self comb) kw)).

(** Every aggregation of [kw] returns a value on the group [s]. *)
Definition aggregates_on {stats : Statistics} (kw : kwargs) (s : Clumper) : Prop :=
  forall item, In item kw ->
    exists v, summarise_col s (snd (snd item)) (fst (snd item)) = Ok v.

(** [res] holds, name by name, the aggregation results of [kw] over [s]. *)
Definition aggregated {stats : Statistics} (kw : kwargs) (s : Clumper)
    (res : list (string * value)) : Prop :=
  Forall2 (fun item kv =>
             fst kv = fst item /\
             summarise_col s (snd (snd item)) (fst (snd item)) = Ok (snd kv))
    kw res.

(** An instance of the statistics interface for running examples; none of
    them calls a statistics function on data, and on no data these functions
    raise [StatisticsError]. *)
Definition no_data_statistics : Statistics :=
  {| statistics_mean := fun _ => Raise StatisticsError;
     statistics_median := fun _ => Raise StatisticsError;
     statistics_variance := fun _ => Raise StatisticsError;
     statistics_stdev := fun _ => Raise StatisticsError |}.

(** ** Further verbs *)

(** The distinct elements of a list of keys, for [set(...)] over keys; as
    for [distinct], the order stands for an unspecified one. *)
Fixpoint distinct_keys (l : list string) : list string :=
  match l with
  | [] => []
  | k :: ks => k :: filter (fun k' => negb (String.eqb k k')) (distinct_keys ks)
  end.

(** [a.intersection(b)] on sets of keys. *)
Definition intersection (a b : list string) : list string :=
  filter (fun k => mem_str k b) a.

(** [functools.reduce(f, l)] without an initial value: a [TypeError] on the
    empty sequence. *)
Definition py_reduce {A} (f : A -> A -> A) (l : list A) : result A :=
  match l with
  | [] => Raise TypeError
  | x :: xs => Ok (fold_left f xs x)
  end.

(** [Clumper.keys]:
    [list(reduce(lambda a, b: a.intersection(b), [set(d.keys()) for d in self]))]
    with [overlap], and [list({k for d in self for k in d.keys()})] without.
    (The name [keys] is that of the keys of a dictionary here.) *)
Definition clumper_keys : Clumper -> bool -> result (list string) :=
  dict_collection_only (fun self (overlap : bool) =>
    if overlap
    then py_reduce intersection (map (fun d => distinct_keys (keys d)) (blob self))
    else Ok (distinct_keys (flat_map (fun d => keys d) (blob self)))).

(** The functions of [keep] applied to one record, one after the other,
    until one of them rejects the record. *)
Fixpoint passes (funcs : list (record -> result bool)) (d : record) : result bool :=
  match funcs with
  | [] => Ok true
  | f :: fs => b <- f d ;; if b then passes fs d else Ok false
  end.

(** The value of a predicate where it returns one. *)
Definition verdict (r : result bool) : bool :=
  match r with
  | Ok b => b
  | Raise _ => false
  end.

(** The value [d[k]] where the key is present. *)
Definition value_at (d : record) (k : string) : value :=
  match get k d with
  | Some v => v
  | None => VNone
  end.

(** The list held under [k], where the record holds one. *)
Definition list_at (k : string) (d : record) : list value :=
  match get k d with
  | Some (VList l) => l
  | _ => []
  end.

(** * Properties *)

(** ** Values and dictionaries *)

Lemma value_ind_nested (P : value -> Prop) :
  P VNone ->
  (forall n, P (VInt n)) ->
  (forall s, P (VStr s)) ->
  (forall l, Forall P l -> P (VList l)) ->
  forall v, P v.
Proof.
  intros HN HI HS HL.
  fix IH 1.
  intros [ | n | s | l ].
  - exact HN.
  - apply HI.
  - apply HS.
  - apply HL.
    induction l as [ | x xs IHl ].
    + constructor.
    + constructor; [ apply IH | exact IHl ].
Qed.

Lemma value_eqb_eq (a b : value) : value_eqb a b = true <-> a = b.
Proof.
  revert b.
  induction a as [ | n | s | l IHl ] using value_ind_nested; intros b.
  - destruct b; simpl; split; congruence.
  - destruct b; simpl; try (split; congruence).
    rewrite Z.eqb_eq. split; congruence.
  - destruct b; simpl; try (split; congruence).
    rewrite String.eqb_eq. split; congruence.
  - destruct b as [ | | | l' ]; simpl; try (split; congruence).
    revert l'.
    induction IHl as [ | x xs Hx _ IHxs ]; intros [ | y ys ];
      try (split; congruence).
    rewrite andb_true_iff, Hx, IHxs.
    split.
    + intros [-> E]. congruence.
    + intros E. injection E as -> ->. auto.
Qed.

Lemma value_eqb_refl (a : value) : value_eqb a a = true.
Proof. now apply value_eqb_eq. Qed.

Lemma value_eqb_neq (a b : value) : value_eqb a b = false <-> a <> b.
Proof.
  rewrite <- value_eqb_eq.
  destruct (value_eqb a b); split; congruence.
Qed.

Lemma values_eqb_eq (xs ys : list value) : values_eqb xs ys = true <-> xs = ys.
Proof.
  revert ys.
  induction xs as [ | x xs IH ]; intros [ | y ys ]; simpl;
    try (split; congruence).
  rewrite andb_true_iff, value_eqb_eq, IH.
  split.
  - intros [-> ->]. reflexivity.
  - intros E. injection E as -> ->. auto.
Qed.

Lemma mem_str_In (k : string) (l : list string) : mem_str k l = true <-> In k l.
Proof.
  unfold mem_str. rewrite existsb_exists.
  split.
  - intros (x & Hx & E). apply String.eqb_eq in E. now subst.
  - intros H. exists k. split; [ exact H | apply String.eqb_refl ].
Qed.

Lemma mem_str_not_In (k : string) (l : list string) :
  mem_str k l = false <-> ~ In k l.
Proof.
  rewrite <- mem_str_In.
  destruct (mem_str k l); split; congruence.
Qed.

Lemma mem_value_In (v : value) (l : list value) : mem_value v l = true <-> In v l.
Proof.
  unfold mem_value. rewrite existsb_exists.
  split.
  - intros (x & Hx & E). apply value_eqb_eq in E. now subst.
  - intros H. exists v. split; [ exact H | apply value_eqb_refl ].
Qed.

Section DictFacts.

Context {V : Type}.
Implicit Types (d : dict V) (k : string) (v : V).

Lemma get_None_iff k d : get k d = None <-> ~ In k (keys d).
Proof.
  induction d as [ | [k' v'] d IH ]; simpl.
  - tauto.
  - destruct (String.eqb k k') eqn:E.
    + apply String.eqb_eq in E. subst. split; [ discriminate | tauto ].
    + apply String.eqb_neq in E. rewrite IH. split.
      * intros H [H' | H']; [ congruence | tauto ].
      * tauto.
Qed.

Lemma has_In k d : has k d = true <-> In k (keys d).
Proof.
  unfold has.
  destruct (get k d) eqn:E.
  - split; [ intros _ | reflexivity ].
    destruct (in_dec string_dec k (keys d)) as [H | H]; [ exact H | ].
    apply get_None_iff in H. congruence.
  - apply get_None_iff in E. split; [ discriminate | tauto ].
Qed.

Lemma get_In k v d : get k d = Some v -> In (k, v) d.
Proof.
  induction d as [ | [k' v'] d IH ]; simpl; [ discriminate | ].
  destruct (String.eqb k k') eqn:E.
  - apply String.eqb_eq in E. intros H. injection H as ->. subst. now left.
  - intros H. right. now apply IH.
Qed.

Lemma In_get k v d : wf d -> In (k, v) d -> get k d = Some v.
Proof.
  unfold wf.
  induction d as [ | [k' v'] d IH ]; simpl; [ tauto | ].
  intros Hnd [H | H].
  - injection H as -> ->. now rewrite String.eqb_refl.
  - inversion Hnd as [ | ? ? Hnot Hnd' ]; subst.
    destruct (String.eqb k k') eqn:E.
    + apply String.eqb_eq in E. subst. exfalso. apply Hnot.
      change (In (fst (k', v)) (map fst d)). now apply in_map.
    + now apply IH.
Qed.

Lemma get_set_eq k v d : get k (set k v d) = Some v.
Proof.
  induction d as [ | [k' v'] d IH ]; simpl.
  - now rewrite String.eqb_refl.
  - destruct (String.eqb k k') eqn:E; simpl; rewrite E; auto.
Qed.

Lemma get_set_ne k k0 v d : k <> k0 -> get k (set k0 v d) = get k d.
Proof.
  intros Hne.
  induction d as [ | [k' v'] d IH ]; simpl.
  - apply String.eqb_neq in Hne. now rewrite Hne.
  - destruct (String.eqb k0 k') eqn:E; simpl.
    + apply String.eqb_eq in E. subst.
      apply String.eqb_neq in Hne. now rewrite Hne.
    + now rewrite IH.
Qed.

Lemma get_app k d1 d2 :
  get k (d1 ++ d2) = match get k d1 with Some v => Some v | None => get k d2 end.
Proof.
  induction d1 as [ | [k' v'] d1 IH ]; simpl; [ reflexivity | ].
  now destruct (String.eqb k k').
Qed.

(** The value found under a key after an update: the last item of the
    update with that key, else the earlier value. *)
Lemma get_update k d items :
  get k (update d items) =
  match get k (rev items) with Some v => Some v | None => get k d end.
Proof.
  unfold update.
  revert d.
  induction items as [ | [k0 v0] items IH ]; intros d; simpl.
  - reflexivity.
  - rewrite IH, get_app. simpl.
    destruct (get k (rev items)); [ reflexivity | ].
    destruct (String.eqb k k0) eqn:E.
    + apply String.eqb_eq in E. subst. apply get_set_eq.
    + apply String.eqb_neq in E. now apply get_set_ne.
Qed.

Lemma keys_rev d : keys (rev d) = rev (keys d).
Proof. unfold keys. apply map_rev. Qed.

Lemma get_rev k d : wf d -> get k (rev d) = get k d.
Proof.
  intros Hwf.
  destruct (get k d) as [ v | ] eqn:E.
  - apply In_get.
    + unfold wf. rewrite keys_rev. now apply NoDup_rev.
    + apply in_rev. rewrite rev_involutive. now apply get_In.
  - apply get_None_iff. rewrite keys_rev. rewrite <- in_rev.
    now apply get_None_iff.
Qed.

Lemma has_update k d items :
  has k (update d items) = has k d || mem_str k (keys items).
Proof.
  unfold has at 1 2. rewrite get_update.
  destruct (get k (rev items)) eqn:E.
  - assert (H : In k (keys items)).
    { apply in_rev. rewrite <- keys_rev. apply has_In.
      unfold has. now rewrite E. }
    apply mem_str_In in H. rewrite H. now rewrite orb_true_r.
  - assert (H : ~ In k (keys items)).
    { apply get_None_iff in E. rewrite keys_rev in E. now rewrite <- in_rev in E. }
    apply mem_str_not_In in H. rewrite H. now rewrite orb_false_r.
Qed.


Lemma set_fresh k v d : ~ In k (keys d) -> set k v d = d ++ [(k, v)].
Proof.
  induction d as [ | [k' v'] d IH ]; simpl; [ reflexivity | ].
  intros H.
  destruct (String.eqb k k') eqn:E.
  - apply String.eqb_eq in E. subst. tauto.
  - rewrite IH; [ reflexivity | tauto ].
Qed.

(** Items with fresh, distinct keys are appended in order. *)
Lemma update_fresh d items :
  NoDup (keys items) ->
  (forall k, In k (keys items) -> ~ In k (keys d)) ->
  update d items = d ++ items.
Proof.
  unfold update.
  revert d.
  induction items as [ | [k0 v0] items IH ]; intros d Hnd Hfresh; simpl.
  - now rewrite app_nil_r.
  - inversion Hnd as [ | ? ? Hnot Hnd' ]; subst.
    rewrite set_fresh by (apply Hfresh; now left).
    rewrite IH; [ now rewrite <- app_assoc | exact Hnd' | ].
    intros k Hk Hin.
    unfold keys in Hin. rewrite map_app in Hin. apply in_app_or in Hin.
    destruct Hin as [Hin | [Hin | []]].
    + apply (Hfresh k); [ now right | exact Hin ].
    + simpl in Hin. subst. tauto.
Qed.

Lemma of_items_wf d : wf d -> of_items d = d.
Proof.
  intros Hwf. unfold of_items.
  rewrite update_fresh; [ reflexivity | exact Hwf | ].
  intros k _ [].
Qed.



End DictFacts.

(** ** The joins as comprehensions *)

Lemma present_values_length_le (ks : list string) (d : record) :
  List.length (present_values ks d) <= List.length ks.
Proof.
  induction ks as [ | k ks IH ]; simpl; [ lia | ].
  destruct (get k d); simpl; lia.
Qed.

Lemma present_values_full (ks : list string) (d : record) :
  List.length (present_values ks d) = List.length ks ->
  Forall2 (fun k v => get k d = Some v) ks (present_values ks d).
Proof.
  induction ks as [ | k ks IH ]; simpl; intros H.
  - constructor.
  - destruct (get k d) as [ v | ] eqn:E; simpl in *.
    + constructor; [ exact E | apply IH; lia ].
    + pose proof (present_values_length_le ks d). lia.
Qed.

Lemma present_values_all (ks : list string) (d : record) (vs : list value) :
  Forall2 (fun k v => get k d = Some v) ks vs -> present_values ks d = vs.
Proof.
  induction 1 as [ | k v ks vs E _ IH ]; simpl.
  - reflexivity.
  - rewrite E. simpl. now rewrite IH.
Qed.

Lemma paired_values (mapping : dict string) (d_i d_j : record) (vs : list value) :
  Forall2 (fun k v => get k d_i = Some v) (keys mapping) vs ->
  Forall2 (fun k v => get k d_j = Some v) (vals mapping) vs ->
  forall lk rk, In (lk, rk) mapping ->
    exists v, get lk d_i = Some v /\ get rk d_j = Some v.
Proof.
  revert vs.
  induction mapping as [ | [lk0 rk0] mapping IH ]; intros vs Hi Hj lk rk Hin.
  - destruct Hin.
  - simpl in Hi, Hj.
    inversion Hi as [ | ? v ? vs' Ei Hi' ]; subst.
    inversion Hj as [ | ? ? ? ? Ej Hj' ]; subst.
    destruct Hin as [Hin | Hin].
    + injection Hin as -> ->. exists v. auto.
    + eapply IH; eauto.
Qed.

Lemma values_of_pairs (mapping : dict string) (d_i d_j : record) :
  (forall lk rk, In (lk, rk) mapping ->
     exists v, get lk d_i = Some v /\ get rk d_j = Some v) ->
  exists vs,
    Forall2 (fun k v => get k d_i = Some v) (keys mapping) vs /\
    Forall2 (fun k v => get k d_j = Some v) (vals mapping) vs.
Proof.
  induction mapping as [ | [lk0 rk0] mapping IH ]; intros H.
  - exists []. split; constructor.
  - destruct (H lk0 rk0 (or_introl eq_refl)) as (v & Ei & Ej).
    destruct IH as (vs & Hi & Hj).
    { intros lk rk Hin. apply H. now right. }
    exists (v :: vs). split; constructor; assumption.
Qed.

(** The test of the joins holds exactly when every mapped pair of keys is
    present on its side with equal values. *)
Lemma matches_iff (mapping : dict string) (d_i d_j : record) :
  matches mapping d_i d_j = true <->
  (forall lk rk, In (lk, rk) mapping ->
     exists v, get lk d_i = Some v /\ get rk d_j = Some v).
Proof.
  unfold matches, join_test.
  split.
  - destruct (Nat.eqb _ _ && Nat.eqb _ _) eqn:E; [ | discriminate ].
    apply andb_true_iff in E. destruct E as [E1 E2].
    apply Nat.eqb_eq in E1, E2.
    intros Heq. apply values_eqb_eq in Heq.
    assert (Li : List.length (present_values (keys mapping) d_i)
                 = List.length (keys mapping)).
    { pose proof (length_map fst mapping) as K. fold (keys mapping) in K. lia. }
    assert (Lj : List.length (present_values (vals mapping) d_j)
                 = List.length (vals mapping)).
    { pose proof (length_map snd mapping) as K. fold (vals mapping) in K. lia. }
    apply present_values_full in Li, Lj.
    rewrite <- Heq in Lj.
    eapply paired_values; eassumption.
  - intros H.
    destruct (values_of_pairs mapping d_i d_j H) as (vs & Hi & Hj).
    rewrite (present_values_all _ _ _ Hi), (present_values_all _ _ _ Hj).
    apply Forall2_length in Hi.
    unfold keys in Hi. rewrite length_map in Hi.
    rewrite Hi, Nat.eqb_refl. simpl.
    apply values_eqb_eq. reflexivity.
Qed.

Lemma left_join_inner_loop mapping ls rs d_i other result added :
  fold_left (left_join_step mapping ls rs d_i (present_values (keys mapping) d_i))
    other (result, added)
  = (result ++ merged_with mapping ls rs other d_i,
     added || existsb (matches mapping d_i) other).
Proof.
  unfold merged_with.
  revert result added.
  induction other as [ | d_j other IH ]; intros result added; simpl.
  - now rewrite app_nil_r, orb_false_r.
  - unfold left_join_step at 2. simpl.
    fold (matches mapping d_i d_j).
    destruct (matches mapping d_i d_j); simpl.
    + rewrite IH, <- app_assoc. simpl. now rewrite orb_true_r.
    + rewrite IH. reflexivity.
Qed.

Lemma inner_join_inner_loop mapping ls rs d_i other result :
  fold_left (inner_join_step mapping ls rs d_i (present_values (keys mapping) d_i))
    other result
  = result ++ merged_with mapping ls rs other d_i.
Proof.
  unfold merged_with.
  revert result.
  induction other as [ | d_j other IH ]; intros result; simpl.
  - now rewrite app_nil_r.
  - unfold inner_join_step at 2.
    fold (matches mapping d_i d_j).
    destruct (matches mapping d_i d_j); simpl.
    + rewrite IH, <- app_assoc. reflexivity.
    + apply IH.
Qed.

Lemma fold_left_pointwise {A B} (f g : A -> B -> A) (l : list B) (acc : A) :
  (forall a b, f a b = g a b) -> fold_left f l acc = fold_left g l acc.
Proof.
  intros H. revert acc.
  induction l as [ | x l IH ]; intros acc; simpl.
  - reflexivity.
  - now rewrite H, IH.
Qed.

Lemma fold_left_appending {A B} (f : B -> list A) (l : list B) (acc : list A) :
  fold_left (fun result x => result ++ f x) l acc = acc ++ flat_map f l.
Proof.
  revert acc.
  induction l as [ | x l IH ]; intros acc; simpl.
  - now rewrite app_nil_r.
  - now rewrite IH, app_assoc.
Qed.

Lemma inner_join_blob_eq blob other mapping ls rs :
  inner_join_blob blob other mapping ls rs
  = flat_map (merged_with mapping ls rs other) blob.
Proof.
  unfold inner_join_blob.
  rewrite (fold_left_pointwise _ (fun result d_i => result ++ merged_with mapping ls rs other d_i)).
  - now rewrite fold_left_appending.
  - intros result d_i. apply inner_join_inner_loop.
Qed.

Lemma left_join_blob_eq blob other mapping ls rs :
  left_join_blob blob other mapping ls rs
  = flat_map (fun d_i =>
                merged_with mapping ls rs other d_i
                ++ (if unmatched mapping other d_i then [d_i] else []))
      blob.
Proof.
  unfold left_join_blob.
  rewrite (fold_left_pointwise _
             (fun result d_i =>
                result ++ (merged_with mapping ls rs other d_i
                           ++ (if unmatched mapping other d_i then [d_i] else [])))).
  - now rewrite fold_left_appending.
  - intros result d_i. cbv zeta.
    rewrite left_join_inner_loop. simpl. unfold unmatched.
    destruct (existsb (matches mapping d_i) other); simpl.
    + now rewrite app_nil_r.
    + now rewrite app_assoc.
Qed.

Lemma unmatched_no_merge mapping ls rs other d_i :
  unmatched mapping other d_i = true -> merged_with mapping ls rs other d_i = [].
Proof.
  unfold unmatched, merged_with. intros H.
  apply negb_true_iff in H.
  induction other as [ | d_j other IH ]; simpl in *; [ reflexivity | ].
  apply orb_false_iff in H. destruct H as [H1 H2].
  rewrite H1. now apply IH.
Qed.

Lemma flat_map_split {A B} (m u : A -> list B) (l : list A) :
  Permutation (flat_map (fun d => m d ++ u d) l) (flat_map m l ++ flat_map u l).
Proof.
  induction l as [ | a l IH ]; simpl.
  - constructor.
  - rewrite <- !app_assoc. apply Permutation_app_head.
    rewrite IH. apply Permutation_app_swap_app.
Qed.

Lemma filter_as_flat_map {A} (p : A -> bool) (l : list A) :
  filter p l = flat_map (fun d => if p d then [d] else []) l.
Proof.
  induction l as [ | a l IH ]; simpl; [ reflexivity | ].
  destruct (p a); simpl; now rewrite IH.
Qed.

Lemma merged_with_inv mapping ls rs other d_i r :
  In r (merged_with mapping ls rs other d_i) ->
  exists d_j, In d_j other /\ matches mapping d_i d_j = true /\
              r = _merge_dicts d_i d_j mapping ls rs.
Proof.
  unfold merged_with. intros H.
  apply in_map_iff in H. destruct H as (d_j & <- & H).
  apply filter_In in H. destruct H as [H1 H2].
  exists d_j. auto.
Qed.

(** C5: in [left_join] and in [inner_join] alike, a left and a right record
    are merged exactly when they pass the test [matches], and they pass it
    exactly when every mapped pair of keys is present, the left key in the
    left record and the right key in the right record, with equal values; a
    pair with a mapped key missing on either side is never merged. *)
Theorem join_matches_on_all_mapped_pairs :
  forall (self other : Clumper) (mapping : dict string) (lsuffix rsuffix : string),
    blob (inner_join self other mapping lsuffix rsuffix)
    = flat_map (fun d_i =>
                  map (fun d_j => _merge_dicts d_i d_j mapping lsuffix rsuffix)
                    (filter (matches mapping d_i) (blob other)))
        (blob self)
    /\ blob (left_join self other mapping lsuffix rsuffix)
       = flat_map (fun d_i =>
                     map (fun d_j => _merge_dicts d_i d_j mapping lsuffix rsuffix)
                       (filter (matches mapping d_i) (blob other))
                     ++ (if existsb (matches mapping d_i) (blob other)
                         then [] else [d_i]))
           (blob self)
    /\ (forall d_i d_j : record,
          matches mapping d_i d_j = true <->
          (forall lk rk, In (lk, rk) mapping ->
             exists v, get lk d_i = Some v /\ get rk d_j = Some v))
    /\ (forall (d_i d_j : record) lk rk,
          In (lk, rk) mapping ->
          get lk d_i = None \/ get rk d_j = None ->
          matches mapping d_i d_j = false).
Proof.
  intros self other mapping ls rs.
  split; [ | split; [ | split ] ].
  - simpl. apply inner_join_blob_eq.
  - simpl. rewrite left_join_blob_eq.
    apply flat_map_ext. intros d_i. unfold unmatched, merged_with.
    now destruct (existsb (matches mapping d_i) (blob other)).
  - apply matches_iff.
  - intros d_i d_j lk rk Hin Hmiss.
    destruct (matches mapping d_i d_j) eqn:E; [ | reflexivity ].
    destruct (proj1 (matches_iff _ _ _) E lk rk Hin) as (v & Ei & Ej).
    destruct Hmiss; congruence.
Qed.

(** C4: the records of [left_join] are those of [inner_join] together with
    one unmerged copy of each left record that matches no right record; so
    every record of [inner_join] is a record of [left_join], [left_join] has
    at least as many rows, and each record of [inner_join] is the merge of a
    left and a right record whose mapped keys hold pairwise equal values. *)
Theorem left_join_extends_inner_join :
  forall (self other : Clumper) (mapping : dict string) (lsuffix rsuffix : string),
    let L := blob (left_join self other mapping lsuffix rsuffix) in
    let I := blob (inner_join self other mapping lsuffix rsuffix) in
    Permutation L (I ++ filter (unmatched mapping (blob other)) (blob self))
    /\ (forall r, In r I -> In r L)
    /\ List.length L
       = List.length I
         + List.length (filter (unmatched mapping (blob other)) (blob self))
    /\ List.length I <= List.length L
    /\ (forall r, In r I ->
          exists d_i d_j,
            In d_i (blob self) /\ In d_j (blob other) /\
            r = _merge_dicts d_i d_j mapping lsuffix rsuffix /\
            forall lk rk, In (lk, rk) mapping ->
              exists v, get lk d_i = Some v /\ get rk d_j = Some v).
Proof.
  intros self other mapping ls rs L I.
  assert (P : Permutation L (I ++ filter (unmatched mapping (blob other)) (blob self))).
  { subst L I. simpl.
    rewrite left_join_blob_eq, inner_join_blob_eq, filter_as_flat_map.
    apply flat_map_split. }
  split; [ exact P | ].
  split.
  { intros r Hr. apply (Permutation_in r (Permutation_sym P)).
    apply in_or_app. now left. }
  assert (Len : List.length L
                = List.length I
                  + List.length (filter (unmatched mapping (blob other)) (blob self))).
  { rewrite (Permutation_length P). apply length_app. }
  split; [ exact Len | ].
  split; [ lia | ].
  intros r Hr. subst I. simpl in Hr.
  rewrite inner_join_blob_eq in Hr.
  apply in_flat_map in Hr. destruct Hr as (d_i & Hi & Hr).
  apply merged_with_inv in Hr. destruct Hr as (d_j & Hj & Hm & ->).
  exists d_i, d_j. repeat split; try assumption.
  now apply matches_iff.
Qed.

(** *** Merging two records *)

Lemma keys_renamed (f : string -> string) (d : record) :
  keys (map (fun kv => (f (fst kv), snd kv)) d) = map f (keys d).
Proof.
  unfold keys. rewrite !map_map. reflexivity.
Qed.

Lemma has_suffixed kts suffix (d : record) k :
  has k (suffixed kts suffix d) = true <->
  In k (map (rename_key kts suffix) (keys d)).
Proof.
  unfold suffixed, of_items.
  rewrite has_update, keys_renamed. simpl.
  apply mem_str_In.
Qed.

Lemma has_merge_dicts d1 d2 mapping s1 s2 k :
  has k (_merge_dicts d1 d2 mapping s1 s2) = true <->
  In k (map (rename_key (keys_to_suffix d1 d2 mapping) s1) (keys d1)) \/
  In k (map (rename_key (keys_to_suffix d1 d2 mapping) s2) (keys d2)).
Proof.
  unfold _merge_dicts. cbv zeta.
  rewrite has_update, orb_true_iff, has_suffixed, mem_str_In.
  rewrite <- (has_suffixed _ s2 d2 k), has_In.
  reflexivity.
Qed.

Lemma keys_to_suffix_In d1 d2 mapping k :
  In k (keys_to_suffix d1 d2 mapping) <->
  In k (keys d1) /\ In k (keys d2) /\ ~ In k (map_keys mapping).
Proof.
  unfold keys_to_suffix.
  rewrite filter_In, andb_true_iff, negb_true_iff, has_In, mem_str_not_In.
  tauto.
Qed.

Lemma append_inj_r (k s1 s2 : string) : (k ++ s1 = k ++ s2)%string -> s1 = s2.
Proof.
  induction k as [ | c k IH ]; simpl; intros H.
  - exact H.
  - injection H as H. now apply IH.
Qed.

(** C3, as the code has it: a key held by both records that is not a key
    name of the join mapping is in the merged record with [lsuffix] appended
    and with [rsuffix] appended, which are two different keys when the
    suffixes differ, while a key name of the mapping is never suffixed and
    is kept under its own name. *)
Theorem merge_dicts_suffixes_collisions :
  forall (d1 d2 : record) (mapping : dict string) (lsuffix rsuffix k : string),
    let merged := _merge_dicts d1 d2 mapping lsuffix rsuffix in
    let to_suffix := keys_to_suffix d1 d2 mapping in
    (has k d1 = true -> has k d2 = true -> ~ In k (map_keys mapping) ->
       has (k ++ lsuffix)%string merged = true /\
       has (k ++ rsuffix)%string merged = true /\
       (lsuffix <> rsuffix -> (k ++ lsuffix <> k ++ rsuffix)%string))
    /\ (In k (map_keys mapping) ->
          rename_key to_suffix lsuffix k = k /\
          rename_key to_suffix rsuffix k = k /\
          (has k d1 = true \/ has k d2 = true -> has k merged = true)).
Proof.
  intros d1 d2 mapping ls rs k merged kts.
  split.
  - intros H1 H2 Hmap.
    apply has_In in H1, H2.
    assert (Hk : mem_str k kts = true).
    { apply mem_str_In, keys_to_suffix_In. auto. }
    split; [ | split ].
    + apply has_merge_dicts. left. apply in_map_iff.
      exists k. split; [ | exact H1 ].
      unfold rename_key. fold kts. now rewrite Hk.
    + apply has_merge_dicts. right. apply in_map_iff.
      exists k. split; [ | exact H2 ].
      unfold rename_key. fold kts. now rewrite Hk.
    + intros Hne E. apply Hne. eapply append_inj_r. exact E.
  - intros Hmap.
    assert (Hk : mem_str k kts = false).
    { apply mem_str_not_In. intros H. apply keys_to_suffix_In in H. tauto. }
    unfold rename_key. rewrite Hk.
    split; [ reflexivity | split; [ reflexivity | ] ].
    intros [H | H]; apply has_In in H; apply has_merge_dicts;
      [ left | right ]; apply in_map_iff; exists k;
      (split; [ unfold rename_key; fold kts; now rewrite Hk | exact H ]).
Qed.

(** The scenario of C3: the shared key ["x"] is outside the mapping, and the
    suffixes are the empty string and ["_joined"]. *)
Lemma merge_dicts_suffixes_collisions_witness :
  let merged := _merge_dicts [("a", VInt 1); ("x", VInt 2)]
                  [("a", VInt 1); ("x", VInt 3)] [("a", "a")] "" "_joined" in
  (has "x" merged = true /\ has "x_joined" merged = true /\ "x" <> "x_joined")
  /\ has "a" merged = true.
Proof.
  pose proof (merge_dicts_suffixes_collisions
                [("a", VInt 1); ("x", VInt 2)] [("a", VInt 1); ("x", VInt 3)]
                [("a", "a")] "" "_joined") as H.
  cbv zeta in *.
  split.
  - destruct (H "x") as [Hx _].
    destruct Hx as (H1 & H2 & H3).
    + reflexivity.
    + reflexivity.
    + simpl. intros [E | [E | []]]; discriminate.
    + split; [ exact H1 | split; [ exact H2 | ] ].
      apply H3. discriminate.
  - destruct (H "a") as [_ Ha].
    destruct Ha as (_ & _ & H3).
    + simpl. now left.
    + apply H3. now left.
Defined.

(** C3 as stated fails: with the same suffix on both sides the key ["x"],
    held by both records and outside the mapping, is renamed to the one key
    ["x_s"]; the merged record is [{"x_s": 2}], where the key appears once
    and the value of the left record is lost. *)
Lemma merge_dicts_equal_suffixes_collide :
  ~ (forall (d1 d2 : record) (mapping : dict string) (lsuffix rsuffix k : string),
       has k d1 = true -> has k d2 = true -> ~ In k (map_keys mapping) ->
       let merged := _merge_dicts d1 d2 mapping lsuffix rsuffix in
       has (k ++ lsuffix)%string merged = true /\
       has (k ++ rsuffix)%string merged = true /\
       (k ++ lsuffix <> k ++ rsuffix)%string).
Proof.
  intros H.
  destruct (H [("x", VInt 1)] [("x", VInt 2)] [] "_s" "_s" "x")
    as (_ & _ & Hne).
  - reflexivity.
  - reflexivity.
  - intros [].
  - now apply Hne.
Qed.

Lemma keys_set_present {V} (k : string) (v : V) (d : dict V) :
  In k (keys d) -> keys (set k v d) = keys d.
Proof.
  induction d as [ | [k' v'] d IH ]; simpl; [ tauto | ].
  intros H.
  destruct (String.eqb k k') eqn:E; simpl.
  - reflexivity.
  - apply String.eqb_neq in E. rewrite IH; [ reflexivity | ].
    destruct H; congruence.
Qed.

Lemma wf_set {V} (k : string) (v : V) (d : dict V) : wf d -> wf (set k v d).
Proof.
  unfold wf. intros H.
  destruct (in_dec string_dec k (keys d)) as [Hin | Hin].
  - now rewrite keys_set_present.
  - rewrite set_fresh by exact Hin.
    unfold keys. rewrite map_app. simpl.
    apply NoDup_app; [ exact H | repeat constructor; tauto | ].
    intros a Ha [Hb | []]. subst. tauto.
Qed.

Lemma wf_update {V} (d : dict V) (items : list (string * V)) :
  wf d -> wf (update d items).
Proof.
  unfold update. revert d.
  induction items as [ | [k v] items IH ]; intros d H; simpl.
  - exact H.
  - apply IH. now apply wf_set.
Qed.

Lemma wf_of_items {V} (items : list (string * V)) : wf (of_items items).
Proof. apply wf_update. constructor. Qed.

Lemma get_renamed (f : string -> string) (d : record) (k : string) :
  f k = k ->
  (forall k', In k' (keys d) -> f k' = k -> k' = k) ->
  get k (map (fun kv => (f (fst kv), snd kv)) d) = get k d.
Proof.
  intros Hk.
  induction d as [ | [k' v'] d IH ]; intros H; simpl; [ reflexivity | ].
  destruct (String.eqb k k') eqn:E.
  - apply String.eqb_eq in E. subst k'. now rewrite Hk, String.eqb_refl.
  - apply String.eqb_neq in E.
    assert (E' : k <> f k').
    { intros E'. apply E. symmetry. apply H; [ now left | now symmetry ]. }
    apply String.eqb_neq in E'. rewrite E'.
    apply IH. intros k0 Hin. apply H. now right.
Qed.

Lemma get_suffixed kts suffix (d : record) (k : string) :
  wf d ->
  ~ In k kts ->
  (forall k', In k' kts -> (k' ++ suffix)%string <> k) ->
  get k (suffixed kts suffix d) = get k d.
Proof.
  intros Hwf Hk Hfree.
  unfold suffixed, of_items. rewrite get_update. simpl.
  rewrite <- map_rev.
  assert (E : get k (map (fun kv => (rename_key kts suffix (fst kv), snd kv)) (rev d))
              = get k (rev d)).
  { apply get_renamed.
    - unfold rename_key. apply mem_str_not_In in Hk. now rewrite Hk.
    - intros k' _. unfold rename_key.
      destruct (mem_str k' kts) eqn:M; [ | auto ].
      apply mem_str_In in M. intros E. now apply Hfree in E. }
  rewrite E, get_rev by exact Hwf.
  now destruct (get k d).
Qed.

(** C6, as the code has it: in the merged record the value under a key of
    the join mapping is the right record's value when the right record
    holds the key, and the left record's value otherwise (no suffixed key
    being renamed onto it); so it is the left record's value when the right
    record lacks the key or holds the same value under it, as it does for a
    matching pair when the mapping sends the key to itself. *)
Theorem merge_dicts_mapped_key_value :
  forall (d1 d2 : record) (mapping : dict string) (lsuffix rsuffix k : string),
    wf d1 -> wf d2 ->
    In k (map_keys mapping) ->
    (forall k', In k' (keys_to_suffix d1 d2 mapping) ->
       (k' ++ lsuffix)%string <> k /\ (k' ++ rsuffix)%string <> k) ->
    let merged := _merge_dicts d1 d2 mapping lsuffix rsuffix in
    get k merged = match get k d2 with
                   | Some v => Some v
                   | None => get k d1
                   end
    /\ (get k d2 = None \/ get k d2 = get k d1 -> get k merged = get k d1)
    /\ (In (k, k) mapping -> matches mapping d1 d2 = true ->
        get k merged = get k d1).
Proof.
  intros d1 d2 mapping ls rs k W1 W2 Hmap Hfree merged.
  assert (Hk : ~ In k (keys_to_suffix d1 d2 mapping)).
  { intros H. apply keys_to_suffix_In in H. tauto. }
  assert (E : get k merged = match get k d2 with
                             | Some v => Some v
                             | None => get k d1
                             end).
  { subst merged. unfold _merge_dicts. cbv zeta.
    rewrite get_update, get_rev by apply wf_of_items.
    rewrite !get_suffixed; try assumption.
    - reflexivity.
    - intros k' H. now apply Hfree.
    - intros k' H. now apply Hfree. }
  split; [ exact E | split ].
  - rewrite E. intros [H | H]; rewrite H; [ reflexivity | ].
    now destruct (get k d1).
  - intros Hin Hm. rewrite E.
    destruct (proj1 (matches_iff _ _ _) Hm k k Hin) as (v & E1 & E2).
    now rewrite E1, E2.
Qed.

Lemma merge_dicts_mapped_key_value_witness :
  get "a" (_merge_dicts [("a", VInt 1); ("x", VInt 2)]
             [("a", VInt 1); ("x", VInt 3)] [("a", "a")] "" "_joined")
  = Some (VInt 1).
Proof.
  destruct (merge_dicts_mapped_key_value
              [("a", VInt 1); ("x", VInt 2)] [("a", VInt 1); ("x", VInt 3)]
              [("a", "a")] "" "_joined" "a") as (_ & _ & H).
  - repeat constructor; simpl; intuition discriminate.
  - repeat constructor; simpl; intuition discriminate.
  - simpl. now left.
  - simpl. intros k' [<- | []]. split; discriminate.
  - apply H; [ simpl; now left | reflexivity ].
Defined.

(** C6 as stated fails: with the mapping [{"a": "b"}] the records
    [{"a": 1, "b": 10}] and [{"b": 1, "a": 99}] match, and the merged record
    holds the right record's 99 under the mapped key ["a"]. *)
Lemma merge_dicts_mapped_key_not_left :
  ~ (forall (d1 d2 : record) (mapping : dict string) (lsuffix rsuffix k : string) v,
       wf d1 -> wf d2 ->
       matches mapping d1 d2 = true ->
       In k (map_keys mapping) ->
       get k d1 = Some v ->
       get k (_merge_dicts d1 d2 mapping lsuffix rsuffix) = Some v).
Proof.
  intros H.
  specialize (H [("a", VInt 1); ("b", VInt 10)] [("b", VInt 1); ("a", VInt 99)]
                [("a", "b")] "" "_joined" "a" (VInt 1)).
  assert (W : forall k1 k2 (v1 v2 : value), k1 <> k2 -> wf [(k1, v1); (k2, v2)]).
  { intros k1 k2 v1 v2 Hne. repeat constructor; simpl; intuition. }
  discriminate H.
  - apply W. discriminate.
  - apply W. discriminate.
  - reflexivity.
  - simpl. now left.
  - reflexivity.
Qed.

(** ** Comprehensions that do not raise *)

Lemma mapM_ok {A B} (f : A -> result B) (g : A -> B) (l : list A) :
  (forall x, In x l -> f x = Ok (g x)) -> mapM f l = Ok (map g l).
Proof.
  induction l as [ | x l IH ]; intros H; simpl.
  - reflexivity.
  - rewrite (H x) by now left.
    rewrite IH; [ reflexivity | ].
    intros y Hy. apply H. now right.
Qed.

Lemma mapM_map {A B C} (f : B -> result C) (g : A -> B) (l : list A) :
  mapM f (map g l) = mapM (fun x => f (g x)) l.
Proof.
  induction l as [ | x l IH ]; simpl; [ reflexivity | ].
  now rewrite IH.
Qed.

Lemma filterM_ok {A} (p : A -> result bool) (q : A -> bool) (l : list A) :
  (forall x, In x l -> p x = Ok (q x)) -> filterM p l = Ok (filter q l).
Proof.
  induction l as [ | x l IH ]; intros H; simpl.
  - reflexivity.
  - rewrite (H x) by now left.
    rewrite IH; [ reflexivity | ].
    intros y Hy. apply H. now right.
Qed.

(** ** Slicing *)

(** C10 fails on the code: on the collection of the docstring,
    [[{'a': 1}, {'a': 2}, {'a': 3}, {'a': 4}]], [tail(2)] evaluates
    [blob[-2]] and then [blob[-3]], that is the third and the second record,
    and not the last two records in their order. *)
Theorem tail_docstring_example :
  let r (n : Z) : record := [("a", VInt n)] in
  let c := mkClumper [r 1%Z; r 2%Z; r 3%Z; r 4%Z] [] in
  tail c 2%Z = Ok (mkClumper [r 3%Z; r 2%Z] [])
  /\ tail c 2%Z <> Ok (mkClumper (skipn 2 (blob c)) [])
  /\ tail c 1%Z = Ok (mkClumper [r 2%Z] [])
  /\ tail c 4%Z = Ok (mkClumper [r 1%Z; r 4%Z; r 3%Z; r 2%Z] []).
Proof.
  cbv zeta.
  split; [ reflexivity | ].
  split; [ vm_compute; discriminate | ].
  split; reflexivity.
Qed.

Lemma firstn_snoc {A} (t : list A) (m : nat) (d : A) :
  m < List.length t -> firstn (S m) t = firstn m t ++ [nth m t d].
Proof.
  revert m.
  induction t as [ | x t IH ]; intros m H; simpl in H; [ lia | ].
  destruct m as [ | m ]; [ reflexivity | ].
  change (x :: firstn (S m) t = x :: (firstn m t ++ [nth m t d])).
  f_equal. apply IH. lia.
Qed.

Lemma descending_nth (b : list record) (m : nat) :
  m < List.length b ->
  map (fun k => nth (m - k) b []) (seq 0 m) = rev (firstn m (skipn 1 b)).
Proof.
  destruct b as [ | x t ]; simpl; [ lia | ].
  induction m as [ | m IH ]; intros H; [ reflexivity | ].
  rewrite (firstn_snoc t m []) by lia.
  rewrite rev_app_distr. simpl rev. simpl app.
  rewrite <- IH by lia.
  change (seq 0 (S m)) with (0 :: seq 1 m).
  rewrite <- seq_shift, map_cons, map_map.
  reflexivity.
Qed.

Lemma tail_indices (b : list record) (m : nat) :
  m < List.length b ->
  mapM (fun i => py_index b (- i)%Z)
    (map (fun k => (Z.of_nat (List.length b) - Z.of_nat m + Z.of_nat k)%Z)
       (seq 0 m))
  = Ok (rev (firstn m (skipn 1 b))).
Proof.
  intros H. rewrite mapM_map.
  rewrite (mapM_ok _ (fun k => nth (m - k) b [])).
  - now rewrite descending_nth.
  - intros k Hk. apply in_seq in Hk. unfold py_index.
    replace (- (Z.of_nat (List.length b) - Z.of_nat m + Z.of_nat k) <? 0)%Z
      with true by (symmetry; apply Z.ltb_lt; lia).
    replace (Z.of_nat (List.length b)
             + - (Z.of_nat (List.length b) - Z.of_nat m + Z.of_nat k))%Z
      with (Z.of_nat (m - k)) by lia.
    replace (Z.of_nat (m - k) <? 0)%Z with false
      by (symmetry; apply Z.ltb_ge; lia).
    replace (Z.of_nat (List.length b) <=? Z.of_nat (m - k))%Z with false
      by (symmetry; apply Z.leb_gt; lia).
    simpl. rewrite Nat2Z.id.
    rewrite (nth_error_nth' b []) by lia. reflexivity.
Qed.

(** What [tail] returns for [0 <= n < len(self)]: the records at the indices
    [n], [n - 1], ..., [1]. *)
Lemma tail_below_length (self : Clumper) (n : Z) :
  (0 <= n < Z.of_nat (List.length (blob self)))%Z ->
  tail self n
  = Ok (create_new self (rev (firstn (Z.to_nat n) (skipn 1 (blob self))))).
Proof.
  intros H.
  assert (Hn : n = Z.of_nat (Z.to_nat n)) by lia.
  set (m := Z.to_nat n) in *. clearbody m. subst n.
  unfold tail.
  replace (Z.of_nat m <? 0)%Z with false by (symmetry; apply Z.ltb_ge; lia).
  cbv zeta. rewrite Z.min_l by lia.
  unfold range.
  replace (Z.to_nat (Z.of_nat (List.length (blob self))
                     - (Z.of_nat (List.length (blob self)) - Z.of_nat m)))
    with m by lia.
  rewrite tail_indices by lia.
  reflexivity.
Qed.

(** [head] returns the first [n] records, in order. *)
Lemma head_firstn (self : Clumper) (n : Z) :
  (0 <= n)%Z ->
  head self n = Ok (create_new self (firstn (Z.to_nat n) (blob self))).
Proof.
  intros H. unfold head.
  replace (n <? 0)%Z with false by (symmetry; apply Z.ltb_ge; lia).
  cbv zeta. unfold range. rewrite Z.sub_0_r.
  set (b := blob self).
  set (m := Z.to_nat (Z.min n (Z.of_nat (List.length b)))).
  assert (Hm : m <= List.length b) by lia.
  assert (E : firstn (Z.to_nat n) b = firstn m b).
  { destruct (Z.le_ge_cases n (Z.of_nat (List.length b))) as [L | L].
    - subst m. now rewrite Z.min_l by lia.
    - subst m. rewrite Z.min_r by lia. rewrite Nat2Z.id.
      rewrite !firstn_all2 by lia. reflexivity. }
  rewrite E.
  rewrite (map_ext (fun k => (0 + Z.of_nat k)%Z) Z.of_nat) by (intros; lia).
  rewrite mapM_map.
  rewrite (mapM_ok _ (fun k => nth k b [])).
  - simpl. do 2 f_equal. clearbody m. clear E. revert m Hm.
    induction b as [ | x t IH ]; intros m Hm; simpl in Hm.
    + replace m with 0 by lia. reflexivity.
    + destruct m as [ | m ]; [ reflexivity | ].
      change (seq 0 (S m)) with (0 :: seq 1 m).
      rewrite <- seq_shift, map_cons, map_map. simpl.
      f_equal. apply IH. lia.
  - intros k Hk. apply in_seq in Hk. unfold py_index.
    replace (Z.of_nat k <? 0)%Z with false by (symmetry; apply Z.ltb_ge; lia).
    replace (Z.of_nat k <? 0)%Z with false by (symmetry; apply Z.ltb_ge; lia).
    replace (Z.of_nat (List.length b) <=? Z.of_nat k)%Z with false
      by (symmetry; apply Z.leb_gt; lia).
    simpl. rewrite Nat2Z.id.
    rewrite (nth_error_nth' b []) by lia. reflexivity.
Qed.

(** ** Heaps *)

Lemma deref_write_same (h : heap) (r : ref) (o : Clumper) :
  r < List.length h -> deref (write h r o) r = o.
Proof.
  unfold deref. revert r.
  induction h as [ | x h IH ]; intros [ | r ] H; simpl in *; try lia.
  - reflexivity.
  - apply IH. lia.
Qed.

Lemma deref_write_other (h : heap) (r r' : ref) (o : Clumper) :
  r' <> r -> deref (write h r o) r' = deref h r'.
Proof.
  unfold deref. revert r r'.
  induction h as [ | x h IH ]; intros [ | r ] [ | r' ] H; simpl;
    try reflexivity; try congruence.
  apply IH. congruence.
Qed.

Lemma deref_alloc_old (h : heap) (o : Clumper) (r : ref) :
  r < List.length h -> deref (fst (alloc h o)) r = deref h r.
Proof.
  intros H. unfold deref, alloc. simpl. now apply app_nth1.
Qed.

Lemma deref_alloc_new (h : heap) (o : Clumper) :
  deref (fst (alloc h o)) (snd (alloc h o)) = o.
Proof.
  unfold deref, alloc. simpl.
  rewrite app_nth2 by lia. now rewrite Nat.sub_diag.
Qed.

Section AggregationFacts.

Context {stats : Statistics}.

(** C8, as the code has it: with no value present under the column the
    scalar verbs return the sentinel given to their decorator, which is 0
    for [count] and [n_unique], the empty list for [unique], and [None] for
    [sum], [mean], [min] and [max]. *)
Theorem scalar_verbs_sentinels :
  forall (self : Clumper) (col : string),
    column col (blob self) = [] ->
    count self col = Ok (VInt 0) /\
    n_unique self col = Ok (VInt 0) /\
    unique self col = Ok (VList []) /\
    sum self col = Ok VNone /\
    mean self col = Ok VNone /\
    min self col = Ok VNone /\
    max self col = Ok VNone.
Proof.
  intros self col E.
  unfold sum, count, n_unique, unique, min, max, mean,
    dict_collection_only, return_value_if_empty.
  rewrite E. repeat split; reflexivity.
Qed.

End AggregationFacts.

Lemma scalar_verbs_sentinels_witness :
  let c := mkClumper [[("a", VInt 1)]] [] in
  @count no_data_statistics c "b" = Ok (VInt 0) /\
  @sum no_data_statistics c "b" = Ok VNone /\
  @min no_data_statistics (mkClumper [] []) "a" = Ok VNone.
Proof.
  cbv zeta.
  destruct (@scalar_verbs_sentinels no_data_statistics
              (mkClumper [[("a", VInt 1)]] []) "b" eq_refl)
    as (H1 & _ & _ & H2 & _).
  destruct (@scalar_verbs_sentinels no_data_statistics
              (mkClumper [] []) "a" eq_refl)
    as (_ & _ & _ & _ & _ & H3 & _).
  split; [ exact H1 | split; [ exact H2 | exact H3 ] ].
Defined.

(** C8 as stated fails for [sum]: on the empty collection, where no value is
    present under any column, [sum] returns [None] and not 0. *)
Lemma sum_sentinel_not_zero :
  ~ (forall (stats : Statistics) (self : Clumper) (col : string),
       column col (blob self) = [] -> sum self col = Ok (VInt 0)).
Proof.
  intros H.
  specialize (H no_data_statistics (mkClumper [] []) "b" eq_refl).
  discriminate H.
Qed.

(** C9 as stated fails: [group_by("a")] on an object without group keys
    returns that same object, whose group keys are now [("a",)]. *)
Lemma group_by_mutates_receiver :
  ~ (forall (stats : Statistics) (h h' : heap) (self r : ref) (c : call),
       self < List.length h ->
       exec h self c = Ok (h', r) ->
       deref h' self = deref h self /\ r <> self).
Proof.
  intros H.
  destruct (H no_data_statistics [mkClumper [[("a", VInt 1)]] []]
              [mkClumper [[("a", VInt 1)]] ["a"]] 0 0 (GroupBy ["a"]))
    as [H1 H2].
  - simpl. lia.
  - reflexivity.
  - now apply H2.
Qed.

(** ** Distinct values and Cartesian products *)

Lemma In_distinct (x : value) (l : list value) : In x (distinct l) <-> In x l.
Proof.
  induction l as [ | y l IH ]; simpl; [ tauto | ].
  rewrite filter_In, IH, negb_true_iff, value_eqb_neq.
  destruct (value_eqb y x) eqn:E.
  - apply value_eqb_eq in E. tauto.
  - apply value_eqb_neq in E. tauto.
Qed.

Lemma NoDup_distinct (l : list value) : NoDup (distinct l).
Proof.
  induction l as [ | y l IH ]; simpl; constructor.
  - rewrite filter_In, negb_true_iff, value_eqb_neq. tauto.
  - now apply NoDup_filter.
Qed.

Lemma in_product (ls : list (list value)) (comb : list value) :
  In comb (product ls) <-> Forall2 (fun l x => In x l) ls comb.
Proof.
  revert comb.
  induction ls as [ | l ls IH ]; intros comb; simpl.
  - split.
    + intros [<- | []]. constructor.
    + intros H. inversion H. now left.
  - rewrite in_flat_map. split.
    + intros (x & Hx & H). apply in_map_iff in H.
      destruct H as (rest & <- & H). constructor; [ exact Hx | now apply IH ].
    + intros H. inversion H as [ | ? x ? rest Hx Hrest ]; subst.
      exists x. split; [ exact Hx | ].
      apply in_map. now apply IH.
Qed.

Lemma product_length (ls : list (list value)) (comb : list value) :
  In comb (product ls) -> List.length comb = List.length ls.
Proof.
  intros H. apply in_product in H. symmetry. eapply Forall2_length. exact H.
Qed.

Lemma NoDup_product (ls : list (list value)) :
  Forall (@NoDup value) ls -> NoDup (product ls).
Proof.
  induction 1 as [ | l ls Hl _ IH ]; simpl.
  - repeat constructor. tauto.
  - induction Hl as [ | x l Hx _ IHl ]; simpl; [ constructor | ].
    apply NoDup_app.
    + clear IHl. induction IH as [ | c cs Hc _ IHcs ]; simpl; constructor.
      * intros H. apply in_map_iff in H. destruct H as (c' & E & H).
        injection E as ->. tauto.
      * exact IHcs.
    + exact IHl.
    + intros comb H1 H2.
      apply in_map_iff in H1. destruct H1 as (c & <- & _).
      apply in_flat_map in H2. destruct H2 as (x' & Hx' & H2).
      apply in_map_iff in H2. destruct H2 as (c' & E & _).
      injection E as -> _. tauto.
Qed.

Lemma filter_filter {A} (p q : A -> bool) (l : list A) :
  filter q (filter p l) = filter (fun x => p x && q x) l.
Proof.
  induction l as [ | x l IH ]; simpl; [ reflexivity | ].
  destruct (p x); simpl; [ | exact IH ].
  destruct (q x); now rewrite IH.
Qed.

Lemma keys_combine_incl (ks : list string) (comb : list value) k :
  In k (keys (combine ks comb)) -> In k ks.
Proof.
  intros H. unfold keys in H. apply in_map_iff in H.
  destruct H as ([k' v] & <- & H). simpl. eapply in_combine_l. exact H.
Qed.

Lemma wf_combine (ks : list string) (comb : list value) :
  NoDup ks -> wf (combine ks comb).
Proof.
  unfold wf. intros H. revert comb.
  induction H as [ | k ks Hk _ IH ]; intros [ | v comb ]; simpl;
    try constructor.
  - intros Hin. apply Hk. eapply keys_combine_incl. exact Hin.
  - apply IH.
Qed.

Lemma in_group_iff (ks : list string) (comb : list value) (d : record) :
  List.length comb = List.length ks ->
  in_group ks comb d = true <-> Forall2 (fun k v => get k d = Some v) ks comb.
Proof.
  unfold in_group. revert comb.
  induction ks as [ | k ks IH ]; intros [ | v comb ] Hlen; simpl in *;
    try discriminate.
  - split; [ constructor | reflexivity ].
  - rewrite andb_true_iff, IH by lia. split.
    + intros [H1 H2]. constructor; [ | exact H2 ].
      destruct (get k d) as [ v' | ]; [ | discriminate ].
      apply value_eqb_eq in H1. now subst.
    + intros H. inversion H as [ | ? ? ? ? E H' ]; subst.
      rewrite E. split; [ apply value_eqb_refl | exact H' ].
Qed.

(** ** The group partitioner *)

Section PartitionFacts.

Context {stats : Statistics}.

Lemma column_hashable (k : string) (data : list record) :
  (forall d, In d data -> exists v, get k d = Some v /\ hashable v = true) ->
  forallb hashable (column k data) = true.
Proof.
  induction data as [ | d data IH ]; intros H; simpl; [ reflexivity | ].
  destruct (H d (or_introl eq_refl)) as (v & E & Hv).
  rewrite E. simpl. rewrite Hv. simpl.
  apply IH. intros d' Hd'. apply H. now right.
Qed.

Lemma unique_ok (self : Clumper) (k : string) :
  forallb hashable (column k (blob self)) = true ->
  unique self k = Ok (VList (distinct (column k (blob self)))).
Proof.
  intros H.
  unfold unique, dict_collection_only, return_value_if_empty, summarise_col.
  destruct (column k (blob self)) as [ | v vs ] eqn:E; [ reflexivity | ].
  simpl. unfold py_set. rewrite H. reflexivity.
Qed.

Lemma group_combos_ok (self : Clumper) :
  NoDup (groups self) ->
  groupable self ->
  _group_combos self
  = Ok (map (fun comb => combine (groups self) comb)
          (product (distinct_values self))).
Proof.
  intros Hnd Hg.
  unfold _group_combos.
  rewrite (mapM_ok _ (fun k => distinct (column k (blob self)))).
  - simpl. f_equal. apply map_ext. intros comb.
    apply of_items_wf. now apply wf_combine.
  - intros k Hk. rewrite unique_ok; [ reflexivity | ].
    apply column_hashable. intros d Hd. now apply Hg.
Qed.

Lemma keep_key_equals (s : Clumper) (k : string) (v : value) :
  (forall d, In d (blob s) -> exists v', get k d = Some v') ->
  keep s [key_equals k v]
  = Ok (create_new s
          (filter (fun d => match get k d with
                            | Some v' => value_eqb v' v
                            | None => false
                            end) (blob s))).
Proof.
  intros H. unfold keep. simpl.
  rewrite (filterM_ok _ (fun d => match get k d with
                                  | Some v' => value_eqb v' v
                                  | None => false
                                  end)).
  - reflexivity.
  - intros d Hd. destruct (H d Hd) as (v' & E).
    unfold key_equals, getitem. now rewrite E.
Qed.

Lemma subset_loop (g : list string) (gc : record) (data : list record) :
  (forall d k, In d data -> In k (keys gc) -> exists v, get k d = Some v) ->
  foldM (fun subset kv => keep subset [key_equals (fst kv) (snd kv)])
    gc (mkClumper data g)
  = Ok (mkClumper
          (filter (fun d => forallb (fun kv =>
                                       match get (fst kv) d with
                                       | Some v => value_eqb v (snd kv)
                                       | None => false
                                       end) gc) data) g).
Proof.
  revert data.
  induction gc as [ | [k v] gc IH ]; intros data H; simpl.
  - f_equal. f_equal. clear H.
    induction data as [ | d data IHd ]; simpl; [ reflexivity | now f_equal ].
  - rewrite keep_key_equals.
    + simpl. unfold create_new. simpl. rewrite IH.
      * now rewrite filter_filter.
      * intros d k' Hd Hk'. apply filter_In in Hd.
        apply (H d k'); [ tauto | now right ].
    + intros d Hd. apply (H d k); [ exact Hd | now left ].
Qed.

Lemma subsets_ok (self : Clumper) :
  NoDup (groups self) ->
  groupable self ->
  _subsets self = Ok (map (group_of self) (product (distinct_values self))).
Proof.
  intros Hnd Hg.
  unfold _subsets, dict_collection_only.
  rewrite group_combos_ok by assumption. simpl.
  rewrite mapM_map.
  apply mapM_ok. intros comb Hc.
  unfold copy, create_new. rewrite map_id.
  rewrite subset_loop; [ reflexivity | ].
  intros d k Hd Hk.
  destruct (Hg d k Hd) as (v & E & _).
  - eapply keys_combine_incl. exact Hk.
  - now exists v.
Qed.

Lemma in_distinct_values (self : Clumper) (comb : list value) :
  In comb (product (distinct_values self)) <->
  Forall2 (fun k v => In v (column k (blob self))) (groups self) comb.
Proof.
  rewrite in_product. unfold distinct_values.
  generalize (groups self). intros ks. revert comb.
  induction ks as [ | k ks IH ]; intros comb; simpl.
  - split; intros H; inversion H; constructor.
  - split; intros H; inversion H as [ | ? ? ? ? H1 H2 ]; subst; constructor.
    + now apply In_distinct.
    + now apply IH.
    + now apply In_distinct.
    + now apply IH.
Qed.

Lemma NoDup_distinct_values (self : Clumper) :
  NoDup (product (distinct_values self)).
Proof.
  apply NoDup_product. unfold distinct_values.
  apply Forall_forall. intros l H. apply in_map_iff in H.
  destruct H as (k & <- & _). apply NoDup_distinct.
Qed.

(** C2, as the code has it: when the group keys are pairwise distinct and
    every record holds every group key (with a hashable value), the
    partitioner enumerates, in an order that the statement leaves open, one
    group per element of the Cartesian product of the distinct values
    observed under each key, every element once, and the group of a
    combination holds exactly the records whose values under the keys equal
    the combination; a combination that no record matches still has its
    group, which is empty. *)
Theorem partitioner_enumerates_product :
  forall self : Clumper,
    NoDup (groups self) ->
    groupable self ->
    (exists combs : list (list value),
        Permutation combs (product (distinct_values self))
        /\ _group_combos self
           = Ok (map (fun comb => combine (groups self) comb) combs)
        /\ _subsets self = Ok (map (group_of self) combs))
    /\ NoDup (product (distinct_values self))
    /\ (forall comb,
          In comb (product (distinct_values self)) <->
          Forall2 (fun k v => In v (column k (blob self))) (groups self) comb)
    /\ (forall comb d,
          In comb (product (distinct_values self)) ->
          (In d (blob (group_of self comb)) <->
           In d (blob self) /\
           Forall2 (fun k v => get k d = Some v) (groups self) comb))
    /\ (forall comb,
          In comb (product (distinct_values self)) ->
          (forall d, In d (blob self) ->
             ~ Forall2 (fun k v => get k d = Some v) (groups self) comb) ->
          group_of self comb = mkClumper [] (groups self)).
Proof.
  intros self Hnd Hg.
  assert (Hmem : forall comb d,
             In comb (product (distinct_values self)) ->
             (In d (blob (group_of self comb)) <->
              In d (blob self) /\
              Forall2 (fun k v => get k d = Some v) (groups self) comb)).
  { intros comb d Hc. unfold group_of. simpl.
    rewrite filter_In, in_group_iff; [ reflexivity | ].
    apply product_length in Hc. unfold distinct_values in Hc.
    now rewrite length_map in Hc. }
  split.
  { exists (product (distinct_values self)).
    split; [ apply Permutation_refl | ].
    split; [ now apply group_combos_ok | now apply subsets_ok ]. }
  split; [ apply NoDup_distinct_values | ].
  split; [ apply in_distinct_values | ].
  split; [ exact Hmem | ].
  intros comb Hc Hnone.
  unfold group_of. f_equal.
  destruct (filter (in_group (groups self) comb) (blob self)) as [ | d l ] eqn:E;
    [ reflexivity | ].
  exfalso.
  assert (Hd : In d (blob (group_of self comb))).
  { unfold group_of. simpl. rewrite E. now left. }
  apply Hmem in Hd; [ | exact Hc ].
  destruct Hd as [Hd1 Hd2]. exact (Hnone d Hd1 Hd2).
Qed.

End PartitionFacts.

(** ** Grouped aggregation and [transform] *)

Section TransformFacts.

Context {stats : Statistics}.

Lemma agg_values_aggregated (kw : kwargs) (s : Clumper) :
  aggregates_on kw s -> aggregated kw s (agg_values s kw).
Proof.
  unfold aggregates_on, aggregated, agg_values.
  induction kw as [ | item kw IH ]; intros H; simpl; constructor.
  - simpl. split; [ reflexivity | ].
    destruct (H item (or_introl eq_refl)) as (v & E). now rewrite E.
  - apply IH. intros it Hit. apply H. now right.
Qed.

Lemma keys_agg_values (kw : kwargs) (s : Clumper) :
  keys (agg_values s kw) = keys kw.
Proof.
  unfold agg_values, keys. rewrite map_map. reflexivity.
Qed.

Lemma agg_body_ok (kw : kwargs) (s : Clumper) :
  aggregates_on kw s ->
  agg_body s kw = Ok (mkClumper [of_items (agg_values s kw)] (groups s)).
Proof.
  intros H. unfold agg_body.
  rewrite (mapM_ok _ (fun item =>
                        (fst item,
                         match summarise_col s (snd (snd item)) (fst (snd item)) with
                         | Ok v => v
                         | Raise _ => VNone
                         end))).
  - reflexivity.
  - intros item Hit. destruct (H item Hit) as (v & E). now rewrite E.
Qed.

Lemma combine_map_both {A B C} (f : A -> B) (g : A -> C) (l : list A) :
  combine (map f l) (map g l) = map (fun x => (f x, g x)) l.
Proof.
  induction l as [ | x l IH ]; simpl; [ reflexivity | now rewrite IH ].
Qed.

Lemma concat_singletons {A B} (f : A -> B) (l : list A) :
  List.concat (map (fun x => [f x]) l) = map f l.
Proof.
  induction l as [ | x l IH ]; simpl; [ reflexivity | now rewrite IH ].
Qed.

Lemma flat_map_singletons {A B} (f : A -> list B) (g : A -> B) (l : list A) :
  (forall x, In x l -> f x = [g x]) -> flat_map f l = map g l.
Proof.
  induction l as [ | x l IH ]; intros H; simpl; [ reflexivity | ].
  rewrite (H x) by now left. simpl.
  rewrite IH; [ reflexivity | ]. intros y Hy. apply H. now right.
Qed.

(** The decorator [grouped] on a method that returns on every group. *)
Lemma grouped_ok (method : Clumper -> result Clumper) (self : Clumper)
    (rows : list value -> list record) :
  groups self <> [] ->
  NoDup (groups self) ->
  groupable self ->
  (forall comb, In comb (product (distinct_values self)) ->
     exists r, method (group_of self comb) = Ok r /\ blob r = rows comb) ->
  grouped method self
  = Ok (mkClumper
          (flat_map (fun comb =>
                       map (update (combine (groups self) comb)) (rows comb))
             (product (distinct_values self)))
          (groups self)).
Proof.
  intros Hne Hnd Hg Hm.
  unfold grouped.
  destruct (groups self) as [ | k0 ks ] eqn:G; [ congruence | ].
  rewrite <- G in *.
  rewrite group_combos_ok, subsets_ok by assumption. simpl.
  rewrite combine_map_both, mapM_map.
  rewrite (mapM_ok _ (fun comb =>
                        map (update (combine (groups self) comb)) (rows comb))).
  - simpl. now rewrite flat_map_concat_map.
  - intros comb Hc. simpl.
    destruct (Hm comb Hc) as (r & -> & <-). reflexivity.
Qed.

Lemma agg_grouped_ok (self : Clumper) (kw : kwargs) :
  groups self <> [] ->
  NoDup (groups self) ->
  groupable self ->
  (forall comb, In comb (product (distinct_values self)) ->
     aggregates_on kw (group_of self comb)) ->
  agg self kw
  = Ok (mkClumper (map (summary_of self kw) (product (distinct_values self)))
          (groups self)).
Proof.
  intros Hne Hnd Hg Hagg.
  unfold agg, dict_collection_only.
  rewrite (grouped_ok _ self
             (fun comb => [of_items (agg_values (group_of self comb) kw)]));
    try assumption.
  - apply f_equal. apply (f_equal (fun b => mkClumper b (groups self))).
    apply flat_map_singletons. intros comb _. reflexivity.
  - intros comb Hc. eexists.
    split; [ apply agg_body_ok; now apply Hagg | reflexivity ].
Qed.








Lemma keys_of_items_incl {V} (items : list (string * V)) k :
  In k (keys (of_items items)) -> In k (keys items).
Proof.
  intros H. apply has_In in H. unfold of_items in H.
  rewrite has_update in H. simpl in H. now apply mem_str_In.
Qed.





Section Summaries.

Variables (self : Clumper) (kw : kwargs).
Hypothesis Hnd : NoDup (groups self).
Hypothesis Hg : groupable self.
Hypothesis Hnames : forall name, In name (keys kw) -> ~ In name (groups self).






End Summaries.


Lemma Forall2_map_r {A B} (R : A -> B -> Prop) (f : A -> B) (l : list A) :
  (forall x, In x l -> R x (f x)) -> Forall2 R l (map f l).
Proof.
  induction l as [ | x l IH ]; intros H; simpl; constructor.
  - apply H. now left.
  - apply IH. intros y Hy. apply H. now right.
Qed.

Lemma suffixed_nothing (suffix : string) (d : record) :
  wf d -> suffixed [] suffix d = d.
Proof.
  intros H. unfold suffixed.
  rewrite (map_ext _ (fun kv => kv)) by (intros [k v]; reflexivity).
  rewrite map_id. now apply of_items_wf.
Qed.


End TransformFacts.

(** ** Examples *)

Lemma partitioner_enumerates_product_witness :
  let r (a b : Z) : record := [("a", VInt a); ("b", VInt b)] in
  let c := mkClumper [r 1 1; r 1 2; r 2 5; r 2 5]%Z ["a"; "b"] in
  exists subsets,
    @_subsets no_data_statistics c = Ok subsets
    /\ List.length subsets = 6
    /\ In (mkClumper [r 1 1]%Z ["a"; "b"]) subsets
    /\ In (mkClumper [r 2 5; r 2 5]%Z ["a"; "b"]) subsets
    /\ In (mkClumper [] ["a"; "b"]) subsets.
Proof.
  cbv beta zeta.
  destruct (@partitioner_enumerates_product no_data_statistics
              (mkClumper [ [("a", VInt 1); ("b", VInt 1)];
                           [("a", VInt 1); ("b", VInt 2)];
                           [("a", VInt 2); ("b", VInt 5)];
                           [("a", VInt 2); ("b", VInt 5)] ] ["a"; "b"]))
    as ((combs & Hp & _ & H) & _).
  - simpl. repeat constructor; simpl; intuition discriminate.
  - intros d k Hd Hk. simpl in Hd, Hk.
    destruct Hd as [<- | [<- | [<- | [<- | []]]]];
      destruct Hk as [<- | [<- | []]];
      eexists; split; reflexivity.
  - eexists. split; [ exact H | ].
    split.
    { rewrite length_map. now rewrite (Permutation_length Hp). }
    repeat split.
    + apply in_map_iff. exists [VInt 1; VInt 1].
      split; [ reflexivity | ].
      apply (Permutation_in _ (Permutation_sym Hp)). vm_compute. tauto.
    + apply in_map_iff. exists [VInt 2; VInt 5].
      split; [ reflexivity | ].
      apply (Permutation_in _ (Permutation_sym Hp)). vm_compute. tauto.
    + apply in_map_iff. exists [VInt 2; VInt 1].
      split; [ reflexivity | ].
      apply (Permutation_in _ (Permutation_sym Hp)). vm_compute. tauto.
Defined.

(** C2 as stated fails: the second record lacks nothing, the first lacks the
    group key ["b"], and the partitioner raises [KeyError] on [d["b"]]
    instead of enumerating groups. *)
Lemma subsets_raise_on_missing_key :
  ~ (forall (stats : Statistics) (self : Clumper),
       _subsets self = Ok (map (group_of self) (product (distinct_values self)))).
Proof.
  intros H.
  specialize (H no_data_statistics
                (mkClumper [ [("a", VInt 1)]; [("a", VInt 1); ("b", VInt 2)] ]
                   ["a"; "b"])).
  vm_compute in H. discriminate H.
Qed.

(** * Further properties *)

(** ** Joins *)

Lemma get_renamed_onto (f : string -> string) (d : record) (k t : string) :
  f k = t ->
  (forall k', In k' (keys d) -> k' <> k -> f k' <> t) ->
  get t (map (fun kv => (f (fst kv), snd kv)) d) = get k d.
Proof.
  intros Hk.
  induction d as [ | [k' v'] d IH ]; intros H; simpl; [ reflexivity | ].
  destruct (String.eqb k k') eqn:E.
  - apply String.eqb_eq in E. subst k'. now rewrite Hk, String.eqb_refl.
  - apply String.eqb_neq in E.
    assert (E' : t <> f k').
    { intros E'. apply (H k'); [ now left | congruence | now symmetry ]. }
    apply String.eqb_neq in E'. rewrite E'.
    apply IH. intros k0 Hin. apply H. now right.
Qed.

Lemma get_suffixed_onto kts suffix (d : record) (k t : string) :
  wf d ->
  rename_key kts suffix k = t ->
  (forall k', In k' (keys d) -> k' <> k -> rename_key kts suffix k' <> t) ->
  get t (suffixed kts suffix d) = get k d.
Proof.
  intros Hwf Hk Hfree.
  unfold suffixed, of_items. rewrite get_update. simpl.
  rewrite <- map_rev.
  rewrite (get_renamed_onto (rename_key kts suffix) (rev d) k t Hk).
  - rewrite get_rev by exact Hwf. now destruct (get k d).
  - intros k' Hin. apply Hfree.
    rewrite keys_rev in Hin. now apply in_rev.
Qed.

(** The values kept under the two suffixed names: for a key held by both
    records and outside the mapping, the merged record holds the left value
    under the key with [lsuffix] and the right value under the key with
    [rsuffix], as long as no other key is renamed onto these names. *)
Theorem merge_dicts_suffixed_values :
  forall (d1 d2 : record) (mapping : dict string) (lsuffix rsuffix k : string)
         (v1 v2 : value),
    let to_suffix := keys_to_suffix d1 d2 mapping in
    wf d1 -> wf d2 ->
    get k d1 = Some v1 -> get k d2 = Some v2 ->
    ~ In k (map_keys mapping) ->
    (forall k', In k' (keys d1) -> k' <> k ->
       rename_key to_suffix lsuffix k' <> (k ++ lsuffix)%string) ->
    (forall k', In k' (keys d2) ->
       rename_key to_suffix rsuffix k' <> (k ++ lsuffix)%string) ->
    (forall k', In k' (keys d2) -> k' <> k ->
       rename_key to_suffix rsuffix k' <> (k ++ rsuffix)%string) ->
    get (k ++ lsuffix)%string (_merge_dicts d1 d2 mapping lsuffix rsuffix) = Some v1
    /\ get (k ++ rsuffix)%string (_merge_dicts d1 d2 mapping lsuffix rsuffix) = Some v2.
Proof.
  intros d1 d2 mapping ls rs k v1 v2 kts W1 W2 E1 E2 Hmap Hl Hlr Hr.
  assert (Hk : mem_str k kts = true).
  { apply mem_str_In, keys_to_suffix_In.
    repeat split; [ | | exact Hmap ]; apply has_In; unfold has;
      [ now rewrite E1 | now rewrite E2 ]. }
  assert (R1 : rename_key kts ls k = (k ++ ls)%string)
    by (unfold rename_key; now rewrite Hk).
  assert (R2 : rename_key kts rs k = (k ++ rs)%string)
    by (unfold rename_key; now rewrite Hk).
  unfold _merge_dicts. cbv zeta. fold kts.
  split.
  - rewrite get_update, get_rev by apply wf_of_items.
    assert (N : get (k ++ ls)%string (suffixed kts rs d2) = None).
    { apply get_None_iff. intros Hin. apply has_In, has_suffixed in Hin.
      apply in_map_iff in Hin. destruct Hin as (k' & E & Hin).
      exact (Hlr k' Hin E). }
    rewrite N.
    rewrite (get_suffixed_onto kts ls d1 k); assumption.
  - rewrite get_update, get_rev by apply wf_of_items.
    rewrite (get_suffixed_onto kts rs d2 k) by assumption.
    now rewrite E2.
Qed.

Lemma merge_dicts_suffixed_values_witness :
  let merged := _merge_dicts [("a", VInt 1); ("x", VInt 2)]
                  [("a", VInt 1); ("x", VInt 3)] [("a", "a")] "" "_joined" in
  get "x" merged = Some (VInt 2) /\ get "x_joined" merged = Some (VInt 3).
Proof.
  cbv zeta.
  apply (merge_dicts_suffixed_values
           [("a", VInt 1); ("x", VInt 2)] [("a", VInt 1); ("x", VInt 3)]
           [("a", "a")] "" "_joined" "x" (VInt 2) (VInt 3)).
  - repeat constructor; simpl; intuition discriminate.
  - repeat constructor; simpl; intuition discriminate.
  - reflexivity.
  - reflexivity.
  - simpl. intros [E | [E | []]]; discriminate.
  - simpl. intros k' [<- | [<- | []]] H; [ discriminate | congruence ].
  - simpl. intros k' [<- | [<- | []]]; discriminate.
  - simpl. intros k' [<- | [<- | []]] H; [ discriminate | congruence ].
Defined.

(** Without a shared key outside the mapping nothing is suffixed, and the
    merge is the union of the two records in which the right record wins. *)
Theorem merge_dicts_without_collision :
  forall (d1 d2 : record) (mapping : dict string) (lsuffix rsuffix : string),
    wf d1 -> wf d2 ->
    (forall k, In k (keys d1) -> In k (keys d2) -> In k (map_keys mapping)) ->
    _merge_dicts d1 d2 mapping lsuffix rsuffix = update d1 d2
    /\ forall k,
         get k (_merge_dicts d1 d2 mapping lsuffix rsuffix)
         = match get k d2 with
           | Some v => Some v
           | None => get k d1
           end.
Proof.
  intros d1 d2 mapping ls rs W1 W2 H.
  assert (Ekts : keys_to_suffix d1 d2 mapping = []).
  { destruct (keys_to_suffix d1 d2 mapping) as [ | k l ] eqn:E; [ reflexivity | ].
    exfalso.
    assert (Hk : In k (keys_to_suffix d1 d2 mapping)) by (rewrite E; now left).
    apply keys_to_suffix_In in Hk. destruct Hk as (H1 & H2 & H3).
    apply H3. now apply H. }
  assert (E : _merge_dicts d1 d2 mapping ls rs = update d1 d2).
  { unfold _merge_dicts. cbv zeta. rewrite Ekts.
    now rewrite !suffixed_nothing. }
  split; [ exact E | ].
  intros k. rewrite E, get_update, get_rev by exact W2. reflexivity.
Qed.

Lemma merge_dicts_without_collision_witness :
  _merge_dicts [("a", VInt 1); ("b", VInt 2)] [("a", VInt 1); ("c", VInt 3)]
    [("a", "a")] "" "_joined"
  = [("a", VInt 1); ("b", VInt 2); ("c", VInt 3)].
Proof.
  destruct (merge_dicts_without_collision
              [("a", VInt 1); ("b", VInt 2)] [("a", VInt 1); ("c", VInt 3)]
              [("a", "a")] "" "_joined") as [E _].
  - repeat constructor; simpl; intuition discriminate.
  - repeat constructor; simpl; intuition discriminate.
  - simpl. intros k [<- | [<- | []]] [E | [E | []]];
      try discriminate; now left.
  - rewrite E. reflexivity.
Defined.

Lemma length_flat_map_le {A B} (f : A -> list B) (l : list A) (n : nat) :
  (forall x, In x l -> List.length (f x) <= n) ->
  List.length (flat_map f l) <= List.length l * n.
Proof.
  induction l as [ | x l IH ]; intros H; simpl; [ lia | ].
  rewrite length_app.
  pose proof (H x (or_introl eq_refl)).
  assert (List.length (flat_map f l) <= List.length l * n)
    by (apply IH; intros y Hy; apply H; now right).
  lia.
Qed.

Lemma length_flat_map_ge {A B} (f : A -> list B) (l : list A) :
  (forall x, In x l -> 1 <= List.length (f x)) ->
  List.length l <= List.length (flat_map f l).
Proof.
  induction l as [ | x l IH ]; intros H; simpl; [ lia | ].
  rewrite length_app.
  pose proof (H x (or_introl eq_refl)).
  assert (List.length l <= List.length (flat_map f l))
    by (apply IH; intros y Hy; apply H; now right).
  lia.
Qed.

Lemma length_flat_map_const {A B} (f : A -> list B) (l : list A) (n : nat) :
  (forall x, In x l -> List.length (f x) = n) ->
  List.length (flat_map f l) = List.length l * n.
Proof.
  induction l as [ | x l IH ]; intros H; simpl; [ reflexivity | ].
  rewrite length_app, (H x) by now left.
  rewrite IH; [ reflexivity | ]. intros y Hy. apply H. now right.
Qed.

Lemma merged_with_length mapping ls rs other d_i :
  List.length (merged_with mapping ls rs other d_i)
  = List.length (filter (matches mapping d_i) other).
Proof. unfold merged_with. apply length_map. Qed.

Lemma unmatched_iff mapping other d_i :
  unmatched mapping other d_i = true <-> filter (matches mapping d_i) other = [].
Proof.
  unfold unmatched. rewrite negb_true_iff.
  induction other as [ | d_j other IH ]; simpl; [ tauto | ].
  destruct (matches mapping d_i d_j); simpl.
  - split; discriminate.
  - exact IH.
Qed.

Lemma filter_length_le {A} (p : A -> bool) (l : list A) :
  List.length (filter p l) <= List.length l.
Proof.
  induction l as [ | x l IH ]; simpl; [ lia | ].
  destruct (p x); simpl; lia.
Qed.

(** The row counts of the joins: [left_join] has at least one row per left
    record and at most [max(1, len(other))] rows per left record, and
    [inner_join] has at most [len(other)] rows per left record. *)
Theorem join_row_bounds :
  forall (self other : Clumper) (mapping : dict string) (lsuffix rsuffix : string),
    List.length (blob self)
    <= List.length (blob (left_join self other mapping lsuffix rsuffix))
    /\ List.length (blob (left_join self other mapping lsuffix rsuffix))
       <= List.length (blob self) * Nat.max 1 (List.length (blob other))
    /\ List.length (blob (inner_join self other mapping lsuffix rsuffix))
       <= List.length (blob self) * List.length (blob other).
Proof.
  intros self other mapping ls rs.
  unfold left_join, inner_join, create_new. cbn [blob].
  rewrite left_join_blob_eq, inner_join_blob_eq.
  split; [ | split ].
  - apply length_flat_map_ge. intros d _.
    rewrite length_app, merged_with_length.
    destruct (unmatched mapping (blob other) d) eqn:U; simpl; [ lia | ].
    destruct (filter (matches mapping d) (blob other)) eqn:F; simpl; [ | lia ].
    apply unmatched_iff in F. congruence.
  - apply length_flat_map_le. intros d _.
    rewrite length_app, merged_with_length.
    pose proof (filter_length_le (matches mapping d) (blob other)).
    destruct (unmatched mapping (blob other) d) eqn:U; cbn [List.length]; [ | lia ].
    apply unmatched_iff in U. rewrite U. cbn [List.length]. lia.
  - apply length_flat_map_le. intros d _.
    rewrite merged_with_length. apply filter_length_le.
Qed.

(** Empty inputs: with no record on the right, [left_join] returns the left
    records as they are and [inner_join] returns none; with no record on
    the left both return none. *)
Theorem joins_on_empty_collections :
  forall (self other : Clumper) (mapping : dict string) (lsuffix rsuffix : string),
    (blob other = [] ->
       blob (left_join self other mapping lsuffix rsuffix) = blob self /\
       blob (inner_join self other mapping lsuffix rsuffix) = [])
    /\ (blob self = [] ->
          blob (left_join self other mapping lsuffix rsuffix) = [] /\
          blob (inner_join self other mapping lsuffix rsuffix) = []).
Proof.
  intros self other mapping ls rs. simpl. split.
  - intros E. rewrite left_join_blob_eq, inner_join_blob_eq, E. split.
    + rewrite (flat_map_singletons _ (fun d => d)) by reflexivity.
      apply map_id.
    + induction (blob self) as [ | d l IH ]; [ reflexivity | exact IH ].
  - intros E. rewrite E. split; reflexivity.
Qed.

Lemma joins_on_empty_collections_witness :
  let c := mkClumper [[("a", VInt 1)]; [("a", VInt 2)]] ["a"] in
  blob (left_join c (mkClumper [] []) [("a", "a")] "" "_joined") = blob c.
Proof.
  cbv zeta.
  destruct (joins_on_empty_collections
              (mkClumper [[("a", VInt 1)]; [("a", VInt 2)]] ["a"])
              (mkClumper [] []) [("a", "a")] "" "_joined") as [H _].
  destruct (H eq_refl) as [E _]. exact E.
Defined.

Lemma matches_empty_mapping (d_i d_j : record) : matches [] d_i d_j = true.
Proof. reflexivity. Qed.

Lemma filter_all {A} (p : A -> bool) (l : list A) :
  (forall x, In x l -> p x = true) -> filter p l = l.
Proof.
  induction l as [ | x l IH ]; intros H; simpl; [ reflexivity | ].
  rewrite (H x) by now left.
  f_equal. apply IH. intros y Hy. apply H. now right.
Qed.

(** With the empty mapping every pair of records passes the test: the
    joins are the cross product, each left record merged with every right
    record in order, and [left_join] differs from [inner_join] only when
    there is no right record at all. *)
Theorem joins_with_empty_mapping :
  forall (self other : Clumper) (lsuffix rsuffix : string),
    blob (inner_join self other [] lsuffix rsuffix)
    = flat_map (fun d_i =>
                  map (fun d_j => _merge_dicts d_i d_j [] lsuffix rsuffix)
                    (blob other))
        (blob self)
    /\ List.length (blob (inner_join self other [] lsuffix rsuffix))
       = List.length (blob self) * List.length (blob other)
    /\ (blob other <> [] ->
        blob (left_join self other [] lsuffix rsuffix)
        = blob (inner_join self other [] lsuffix rsuffix)).
Proof.
  intros self other ls rs. simpl.
  assert (F : forall d_i, filter (matches [] d_i) (blob other) = blob other).
  { intros d_i. apply filter_all. intros d_j _. apply matches_empty_mapping. }
  assert (E : inner_join_blob (blob self) (blob other) [] ls rs
              = flat_map (fun d_i =>
                            map (fun d_j => _merge_dicts d_i d_j [] ls rs)
                              (blob other)) (blob self)).
  { rewrite inner_join_blob_eq. apply flat_map_ext. intros d_i.
    unfold merged_with. now rewrite F. }
  split; [ exact E | split ].
  - rewrite E. apply length_flat_map_const. intros d _. apply length_map.
  - intros Hne. rewrite left_join_blob_eq, inner_join_blob_eq.
    apply flat_map_ext. intros d_i.
    destruct (unmatched [] (blob other) d_i) eqn:U; [ | apply app_nil_r ].
    apply unmatched_iff in U. rewrite F in U. congruence.
Qed.

Lemma joins_with_empty_mapping_witness :
  let l := mkClumper [[("a", VInt 1)]; [("a", VInt 2)]] [] in
  let r := mkClumper [[("b", VInt 7)]] [] in
  blob (left_join l r [] "" "_joined") = blob (inner_join l r [] "" "_joined").
Proof.
  cbv zeta.
  destruct (joins_with_empty_mapping
              (mkClumper [[("a", VInt 1)]; [("a", VInt 2)]] [])
              (mkClumper [[("b", VInt 7)]] []) "" "_joined") as (_ & _ & H).
  apply H. discriminate.
Defined.

(** A lookup join: when every left record passes the test with at most one
    right record, [left_join] returns exactly one row per left record. *)
Theorem left_join_lookup_keeps_rows :
  forall (self other : Clumper) (mapping : dict string) (lsuffix rsuffix : string),
    (forall d_i, In d_i (blob self) ->
       List.length (filter (matches mapping d_i) (blob other)) <= 1) ->
    List.length (blob (left_join self other mapping lsuffix rsuffix))
    = List.length (blob self).
Proof.
  intros self other mapping ls rs H. simpl.
  rewrite left_join_blob_eq.
  rewrite (length_flat_map_const _ _ 1); [ lia | ].
  intros d Hd.
  rewrite length_app, merged_with_length.
  specialize (H d Hd).
  destruct (unmatched mapping (blob other) d) eqn:U; simpl.
  - apply unmatched_iff in U. rewrite U. reflexivity.
  - destruct (filter (matches mapping d) (blob other)) eqn:F; simpl in *.
    + apply unmatched_iff in F. congruence.
    + lia.
Qed.

Lemma left_join_lookup_keeps_rows_witness :
  List.length
    (blob (left_join
             (mkClumper [[("a", VInt 1)]; [("a", VInt 2)]; [("a", VInt 1)]] [])
             (mkClumper [[("a", VInt 1); ("n", VStr "one")]] [])
             [("a", "a")] "" "_joined"))
  = 3.
Proof.
  apply (left_join_lookup_keeps_rows
           (mkClumper [[("a", VInt 1)]; [("a", VInt 2)]; [("a", VInt 1)]] [])
           (mkClumper [[("a", VInt 1); ("n", VStr "one")]] [])
           [("a", "a")] "" "_joined").
  intros d_i Hd. apply filter_length_le.
Defined.

(** ** Slices *)

Lemma tail_whole (self : Clumper) (n : Z) (x : record) (rest : list record) :
  blob self = x :: rest ->
  (Z.of_nat (List.length (blob self)) <= n)%Z ->
  tail self n = Ok (create_new self (x :: rev rest)).
Proof.
  intros E H. unfold tail.
  replace (n <? 0)%Z with false by (symmetry; apply Z.ltb_ge; lia).
  cbv zeta. rewrite Z.min_r by lia.
  unfold range. rewrite Z.sub_diag, Z.sub_0_r, Nat2Z.id.
  rewrite E in *. cbn [List.length].
  change (seq 0 (S (List.length rest))) with (0 :: seq 1 (List.length rest)).
  rewrite <- seq_shift, map_cons, map_map.
  cbn [mapM].
  change (py_index (x :: rest) (- (0 + Z.of_nat 0))%Z) with (Ok x).
  pose proof (tail_indices (x :: rest) (List.length rest)) as T.
  cbn [List.length] in T.
  rewrite (map_ext (fun k => (0 + Z.of_nat (S k))%Z)
             (fun k => (Z.of_nat (S (List.length rest))
                        - Z.of_nat (List.length rest) + Z.of_nat k)%Z))
    by (intros; lia).
  rewrite T by lia.
  cbn [skipn]. rewrite firstn_all. reflexivity.
Qed.

(** [head(n)] raises [ValueError] for a negative [n] and otherwise returns
    the first [min(n, len)] records in their order, with the group keys. *)
Theorem head_returns_prefix :
  forall (self : Clumper) (n : Z),
    head self n
    = if (n <? 0)%Z then Raise ValueError
      else Ok (mkClumper (firstn (Z.to_nat n) (blob self)) (groups self)).
Proof.
  intros self n.
  destruct (n <? 0)%Z eqn:E.
  - unfold head. now rewrite E.
  - apply Z.ltb_ge in E. now apply head_firstn.
Qed.

(** What [tail(n)] returns, for every integer [n]: [ValueError] for a
    negative [n]; for [n] below the length the records at the indices [n],
    [n - 1], ..., [1]; and from the length on the first record followed by
    the others in reverse. *)
Theorem tail_returns :
  forall (self : Clumper) (n : Z),
    tail self n
    = if (n <? 0)%Z then Raise ValueError
      else if (n <? Z.of_nat (List.length (blob self)))%Z
           then Ok (mkClumper (rev (firstn (Z.to_nat n) (skipn 1 (blob self))))
                      (groups self))
           else match blob self with
                | [] => Ok (mkClumper [] (groups self))
                | x :: rest => Ok (mkClumper (x :: rev rest) (groups self))
                end.
Proof.
  intros self n.
  destruct (n <? 0)%Z eqn:E.
  - unfold tail. now rewrite E.
  - apply Z.ltb_ge in E.
    destruct (n <? Z.of_nat (List.length (blob self)))%Z eqn:L.
    + apply Z.ltb_lt in L. apply tail_below_length. lia.
    + apply Z.ltb_ge in L.
      destruct (blob self) as [ | x rest ] eqn:B.
      * unfold tail.
        replace (n <? 0)%Z with false by (symmetry; apply Z.ltb_ge; lia).
        rewrite B. cbv zeta. cbn [List.length].
        rewrite Z.min_r by lia. reflexivity.
      * apply tail_whole; [ exact B | now rewrite B ].
Qed.

Lemma In_firstn {A} (l : list A) (m : nat) (x : A) : In x (firstn m l) -> In x l.
Proof.
  intros H. rewrite <- (firstn_skipn m l). apply in_or_app. now left.
Qed.

Lemma In_skipn {A} (l : list A) (m : nat) (x : A) : In x (skipn m l) -> In x l.
Proof.
  intros H. rewrite <- (firstn_skipn m l). apply in_or_app. now right.
Qed.

(** For [n >= 0] neither slice raises (no index is out of range); each returns
    [min(n, len)] records, all of them records of the collection. *)
Theorem slices_have_min_length :
  forall (self : Clumper) (n : Z),
    (0 <= n)%Z ->
    exists h t,
      head self n = Ok h /\ tail self n = Ok t /\
      List.length (blob h) = Nat.min (Z.to_nat n) (List.length (blob self)) /\
      List.length (blob t) = Nat.min (Z.to_nat n) (List.length (blob self)) /\
      (forall d, In d (blob h) -> In d (blob self)) /\
      (forall d, In d (blob t) -> In d (blob self)).
Proof.
  intros self n Hn.
  rewrite head_firstn by exact Hn.
  destruct (Z.lt_ge_cases n (Z.of_nat (List.length (blob self)))) as [L | L].
  - rewrite tail_below_length by lia.
    eexists. eexists. split; [ reflexivity | split; [ reflexivity | ] ].
    cbn [blob create_new].
    split; [ apply length_firstn | ].
    split.
    + rewrite length_rev, length_firstn, length_skipn. lia.
    + split; intros d Hd.
      * eapply In_firstn. exact Hd.
      * apply in_rev in Hd. apply In_firstn in Hd. eapply In_skipn. exact Hd.
  - destruct (blob self) as [ | x rest ] eqn:B.
    + exists (create_new self []), (create_new self []).
      split; [ now rewrite firstn_nil | ].
      split.
      { unfold tail.
        replace (n <? 0)%Z with false by (symmetry; apply Z.ltb_ge; lia).
        rewrite B. cbv zeta. cbn [List.length].
        rewrite Z.min_r by lia. reflexivity. }
      cbn [blob create_new List.length].
      repeat split; try (rewrite Nat.min_0_r; reflexivity); intros d [].
    + rewrite (tail_whole self n x rest B) by (rewrite B; exact L).
      eexists. eexists. split; [ reflexivity | split; [ reflexivity | ] ].
      cbn [blob create_new].
      split; [ apply length_firstn | ].
      split.
      * cbn [List.length] in *. rewrite length_rev. lia.
      * split; intros d Hd.
        -- eapply In_firstn. exact Hd.
        -- destruct Hd as [<- | Hd]; [ now left | right; now apply in_rev ].
Qed.

Lemma slices_have_min_length_witness :
  let c := mkClumper [[("a", VInt 1)]; [("a", VInt 2)]; [("a", VInt 3)]] [] in
  exists h t,
    head c 2%Z = Ok h /\ tail c 2%Z = Ok t /\
    List.length (blob h) = 2 /\ List.length (blob t) = 2.
Proof.
  cbv zeta.
  destruct (slices_have_min_length
              (mkClumper [[("a", VInt 1)]; [("a", VInt 2)]; [("a", VInt 3)]] [])
              2%Z) as (h & t & H1 & H2 & H3 & H4 & _).
  - lia.
  - exists h, t. repeat split; assumption.
Defined.

(** Two [head]s in a row are one: [head(n).head(m)] is [head(min(m, n))]. *)
Theorem head_of_head :
  forall (self : Clumper) (n m : Z),
    (0 <= n)%Z -> (0 <= m)%Z ->
    (c <- head self n ;; head c m) = head self (Z.min m n).
Proof.
  intros self n m Hn Hm.
  rewrite (head_firstn self n Hn). cbn [bind].
  rewrite !head_firstn by lia.
  unfold create_new. cbn [blob groups].
  rewrite firstn_firstn. do 3 f_equal. lia.
Qed.

Lemma head_of_head_witness :
  let c := mkClumper [[("a", VInt 1)]; [("a", VInt 2)]; [("a", VInt 3)]] [] in
  (c' <- head c 2%Z ;; head c' 5%Z) = head c 2%Z.
Proof.
  cbv zeta.
  apply (head_of_head
           (mkClumper [[("a", VInt 1)]; [("a", VInt 2)]; [("a", VInt 3)]] [])
           2%Z 5%Z); lia.
Defined.

(** ** [keep] *)

Lemma foldM_app {A B} (f : A -> B -> result A) (l1 l2 : list B) (acc : A) :
  foldM f (l1 ++ l2) acc = (acc' <- foldM f l1 acc ;; foldM f l2 acc').
Proof.
  revert acc.
  induction l1 as [ | x l1 IH ]; intros acc; simpl; [ reflexivity | ].
  destruct (f acc x); simpl; [ apply IH | reflexivity ].
Qed.

Lemma filterM_total_or_raises {A} (p : A -> result bool) (l : list A) :
  (forall x, In x l -> exists b, p x = Ok b) \/
  (exists x e, In x l /\ p x = Raise e).
Proof.
  induction l as [ | x l IH ]; [ left; intros x [] | ].
  destruct (p x) as [ b | e ] eqn:E.
  - destruct IH as [IH | (y & e & Hy & Ey)].
    + left. intros y [<- | Hy]; [ now exists b | now apply IH ].
    + right. exists y, e. split; [ now right | exact Ey ].
  - right. exists x, e. split; [ now left | exact E ].
Qed.

Lemma filterM_raises {A} (p : A -> result bool) (l : list A) x e :
  In x l -> p x = Raise e -> exists e', filterM p l = Raise e'.
Proof.
  induction l as [ | y l IH ]; intros Hin E; [ destruct Hin | ].
  simpl.
  destruct (p y) as [ b | e0 ] eqn:Ey; [ | now exists e0 ].
  destruct Hin as [-> | Hin]; [ congruence | ].
  destruct (IH Hin E) as (e' & ->). now exists e'.
Qed.

Lemma keep_data_ok (funcs : list (record -> result bool)) (data : list record) :
  (forall d, In d data -> exists b, passes funcs d = Ok b) ->
  foldM (fun data func => filterM func data) funcs data
  = Ok (filter (fun d => verdict (passes funcs d)) data).
Proof.
  revert data.
  induction funcs as [ | f fs IH ]; intros data H; simpl.
  - f_equal. symmetry. apply filter_all. reflexivity.
  - assert (Hf : forall d, In d data -> f d = Ok (verdict (f d))).
    { intros d Hd. destruct (H d Hd) as (b & E). simpl in E.
      destruct (f d); [ reflexivity | discriminate ]. }
    rewrite (filterM_ok f (fun d => verdict (f d))) by exact Hf.
    simpl. rewrite IH.
    + f_equal. rewrite filter_filter. apply filter_ext_in.
      intros d Hd. rewrite (Hf d Hd). simpl.
      destruct (verdict (f d)); reflexivity.
    + intros d Hd. apply filter_In in Hd. destruct Hd as [Hd Hv].
      destruct (H d Hd) as (b & E). simpl in E.
      rewrite (Hf d Hd), Hv in E. simpl in E. now exists b.
Qed.

Lemma keep_data_raises (funcs : list (record -> result bool)) (data : list record) d e :
  In d data -> passes funcs d = Raise e ->
  exists e', foldM (fun data func => filterM func data) funcs data = Raise e'.
Proof.
  revert data.
  induction funcs as [ | f fs IH ]; intros data Hd E; simpl in *; [ discriminate | ].
  destruct (filterM_total_or_raises f data) as [Hf | (y & e0 & Hy & Ey)].
  - rewrite (filterM_ok f (fun d => verdict (f d))).
    + simpl. destruct (Hf d Hd) as (b & Eb). rewrite Eb in E. simpl in E.
      destruct b; [ | discriminate ].
      apply IH; [ | exact E ].
      apply filter_In. split; [ exact Hd | now rewrite Eb ].
    + intros x Hx. destruct (Hf x Hx) as (b & ->). reflexivity.
  - destruct (filterM_raises f data y e0 Hy Ey) as (e' & ->).
    now exists e'.
Qed.

(** [keep] evaluates its functions on a record in order and stops at the
    first that rejects it.  When this raises on no record, [keep] returns
    the records that every function accepts, in their order and with the
    group keys; when it raises on some record, [keep] raises. *)
Theorem keep_filters_in_order :
  forall (self : Clumper) (funcs : list (record -> result bool)),
    ((forall d, In d (blob self) -> exists b, passes funcs d = Ok b) ->
     keep self funcs
     = Ok (mkClumper (filter (fun d => verdict (passes funcs d)) (blob self))
             (groups self)))
    /\ ((exists d e, In d (blob self) /\ passes funcs d = Raise e) ->
        exists e', keep self funcs = Raise e').
Proof.
  intros self funcs. unfold keep. split.
  - intros H. now rewrite keep_data_ok.
  - intros (d & e & Hd & E).
    destruct (keep_data_raises funcs (blob self) d e Hd E) as (e' & ->).
    now exists e'.
Qed.

(** A second predicate is not evaluated on the records the first rejects:
    [keep(lambda d: "a" in d, lambda d: d["a"] == 2)] returns although
    [d["a"]] would raise on the second record. *)
Lemma keep_filters_in_order_witness :
  keep (mkClumper [[("a", VInt 2)]; [("b", VInt 1)]] [])
    [ (fun d => Ok (has "a" d)); key_equals "a" (VInt 2) ]
  = Ok (mkClumper [[("a", VInt 2)]] []).
Proof.
  destruct (keep_filters_in_order
              (mkClumper [[("a", VInt 2)]; [("b", VInt 1)]] [])
              [ (fun d => Ok (has "a" d)); key_equals "a" (VInt 2) ]) as [H _].
  rewrite H.
  - reflexivity.
  - intros d Hd. simpl in Hd.
    destruct Hd as [<- | [<- | []]]; eexists; reflexivity.
Defined.

(** [keep(f1, ..., g1, ...)] is [keep(f1, ...)] followed by [keep(g1, ...)],
    exceptions included. *)
Theorem keep_of_keep :
  forall (self : Clumper) (fs gs : list (record -> result bool)),
    keep self (fs ++ gs) = (c <- keep self fs ;; keep c gs).
Proof.
  intros self fs gs. unfold keep.
  rewrite foldM_app.
  destruct (foldM _ fs (blob self)); reflexivity.
Qed.

(** ** [select] and [drop] *)

Lemma get_keyed (g : string -> value) (l : list string) (k : string) :
  get k (map (fun k' => (k', g k')) l) = if mem_str k l then Some (g k) else None.
Proof.
  induction l as [ | k0 l IH ]; simpl; [ reflexivity | ].
  destruct (String.eqb k k0) eqn:E; simpl.
  - apply String.eqb_eq in E. now subst.
  - exact IH.
Qed.

Lemma mem_str_rev (k : string) (l : list string) :
  mem_str k (rev l) = mem_str k l.
Proof.
  apply eq_true_iff_eq. rewrite !mem_str_In. symmetry. apply in_rev.
Qed.

Lemma select_record_ok (d : record) (ks : list string) :
  (forall k, In k ks -> has k d = true) ->
  mapM (fun k => v <- getitem k d ;; Ok (k, v)) ks
  = Ok (map (fun k => (k, value_at d k)) ks).
Proof.
  intros H. apply mapM_ok. intros k Hk.
  specialize (H k Hk). unfold has in H. unfold getitem, value_at.
  destruct (get k d); [ reflexivity | discriminate ].
Qed.

Lemma get_selected (d : record) (ks : list string) (k : string) :
  (forall k, In k ks -> has k d = true) ->
  get k (of_items (map (fun k => (k, value_at d k)) ks))
  = if mem_str k ks then get k d else None.
Proof.
  intros H. unfold of_items. rewrite get_update. simpl.
  rewrite <- map_rev, get_keyed, mem_str_rev.
  destruct (mem_str k ks) eqn:M; [ | reflexivity ].
  apply mem_str_In in M. specialize (H k M).
  unfold has in H. unfold value_at. destruct (get k d); [ reflexivity | discriminate ].
Qed.

Lemma select_ok (self : Clumper) (ks : list string) :
  (forall d k, In d (blob self) -> In k ks -> has k d = true) ->
  select self ks
  = Ok (create_new self
          (map (fun d => of_items (map (fun k => (k, value_at d k)) ks))
             (blob self))).
Proof.
  intros H. unfold select.
  rewrite (mapM_ok _ (fun d => of_items (map (fun k => (k, value_at d k)) ks))).
  - reflexivity.
  - intros d Hd. rewrite select_record_ok; [ reflexivity | ].
    intros k Hk. now apply (H d k).
Qed.

(** When every record holds every selected key, [select] returns one record
    per record, with the group keys, holding the selected keys with their
    values and nothing else. *)
Theorem select_keeps_selected_keys :
  forall (self : Clumper) (ks : list string),
    (forall d k, In d (blob self) -> In k ks -> has k d = true) ->
    exists out,
      select self ks = Ok out
      /\ groups out = groups self
      /\ List.length (blob out) = List.length (blob self)
      /\ Forall2 (fun d r =>
                    forall k, get k r = if mem_str k ks then get k d else None)
           (blob self) (blob out).
Proof.
  intros self ks H.
  rewrite select_ok by exact H.
  eexists. split; [ reflexivity | ].
  cbn [blob groups create_new].
  split; [ reflexivity | ].
  split; [ apply length_map | ].
  apply Forall2_map_r. intros d Hd k.
  apply get_selected. intros k' Hk'. now apply (H d k').
Qed.

Lemma select_keeps_selected_keys_witness :
  exists out,
    select (mkClumper [ [("a", VInt 1); ("b", VInt 2)];
                        [("a", VInt 2); ("b", VInt 3); ("c", VInt 4)] ] [])
      ["a"; "b"]
    = Ok out
    /\ List.length (blob out) = 2.
Proof.
  destruct (select_keeps_selected_keys
              (mkClumper [ [("a", VInt 1); ("b", VInt 2)];
                           [("a", VInt 2); ("b", VInt 3); ("c", VInt 4)] ] [])
              ["a"; "b"]) as (out & H1 & _ & H2 & _).
  - intros d k Hd Hk. simpl in Hd, Hk.
    destruct Hd as [<- | [<- | []]]; destruct Hk as [<- | [<- | []]];
      reflexivity.
  - exists out. split; assumption.
Defined.

Lemma select_record_missing (d : record) (ks : list string) (k : string) :
  In k ks -> has k d = false ->
  mapM (fun k => v <- getitem k d ;; Ok (k, v)) ks = Raise KeyError.
Proof.
  induction ks as [ | k0 ks IH ]; intros Hin Hk; [ destruct Hin | ].
  simpl. unfold getitem at 1.
  destruct (get k0 d) as [ v | ] eqn:E; simpl; [ | reflexivity ].
  destruct Hin as [-> | Hin].
  - unfold has in Hk. rewrite E in Hk. discriminate.
  - now rewrite IH.
Qed.

(** A record without one of the selected keys makes [select] raise
    [KeyError]; no partial collection is returned. *)
Theorem select_missing_key_raises :
  forall (self : Clumper) (ks : list string) (d : record) (k : string),
    In d (blob self) -> In k ks -> has k d = false ->
    select self ks = Raise KeyError.
Proof.
  intros self ks d k Hd Hk Hmiss. unfold select.
  assert (E : mapM (fun d =>
                      items <- mapM (fun k => v <- getitem k d ;; Ok (k, v)) ks ;;
                      Ok (of_items items)) (blob self) = Raise KeyError).
  { induction (blob self) as [ | d0 l IH ]; [ destruct Hd | ].
    simpl.
    destruct (mapM (fun k => v <- getitem k d0 ;; Ok (k, v)) ks) as [ items | e ] eqn:E0.
    - simpl. destruct Hd as [-> | Hd].
      + rewrite (select_record_missing d ks k Hk Hmiss) in E0. discriminate.
      + now rewrite IH.
    - simpl. destruct (filterM_total_or_raises
                         (fun k => match get k d0 with
                                   | Some _ => Ok true
                                   | None => Raise KeyError
                                   end) ks) as [Hall | (k1 & e1 & Hk1 & E1)].
      + rewrite select_record_ok in E0; [ discriminate | ].
        intros k1 Hk1. destruct (Hall k1 Hk1) as (b & Hb).
        unfold has. destruct (get k1 d0); [ reflexivity | discriminate ].
      + assert (M : has k1 d0 = false).
        { unfold has. destruct (get k1 d0); [ discriminate | reflexivity ]. }
        rewrite (select_record_missing d0 ks k1 Hk1 M) in E0. congruence. }
  now rewrite E.
Qed.

Lemma select_missing_key_raises_witness :
  select (mkClumper [ [("a", VInt 1); ("b", VInt 2)]; [("a", VInt 2)] ] [])
    ["a"; "b"]
  = Raise KeyError.
Proof.
  apply (select_missing_key_raises _ ["a"; "b"] [("a", VInt 2)] "b").
  - simpl. right. now left.
  - simpl. right. now left.
  - reflexivity.
Defined.

Lemma wf_filter {V} (p : string * V -> bool) (d : dict V) : wf d -> wf (filter p d).
Proof.
  unfold wf.
  induction d as [ | [k v] d IH ]; simpl; intros H; [ constructor | ].
  inversion H as [ | ? ? Hk Hd ]; subst.
  destruct (p (k, v)); simpl; [ constructor | now apply IH ].
  - intros Hin. apply Hk. unfold keys in *. apply in_map_iff in Hin.
    destruct Hin as (kv & E & Hin). apply filter_In in Hin.
    apply in_map_iff. exists kv. tauto.
  - now apply IH.
Qed.

Lemma get_dropped (d : record) (ks : list string) (k : string) :
  get k (filter (fun kv => negb (mem_str (fst kv) ks)) d)
  = if mem_str k ks then None else get k d.
Proof.
  induction d as [ | [k0 v0] d IH ]; simpl.
  - now destruct (mem_str k ks).
  - destruct (mem_str k0 ks) eqn:M0; simpl.
    + rewrite IH. destruct (String.eqb k k0) eqn:E; [ | reflexivity ].
      apply String.eqb_eq in E. subst. now rewrite M0.
    + destruct (String.eqb k k0) eqn:E.
      * apply String.eqb_eq in E. subst. now rewrite M0.
      * exact IH.
Qed.

(** [drop] never raises: it returns one record per record, with the group
    keys, in which the dropped keys are absent, whether or not the record
    held them, and every other key keeps its value. *)
Theorem drop_removes_keys :
  forall (self : Clumper) (ks : list string),
    (forall d, In d (blob self) -> wf d) ->
    groups (drop self ks) = groups self
    /\ List.length (blob (drop self ks)) = List.length (blob self)
    /\ Forall2 (fun d r =>
                  forall k, get k r = if mem_str k ks then None else get k d)
         (blob self) (blob (drop self ks)).
Proof.
  intros self ks Hwf. unfold drop. cbn [blob groups create_new].
  split; [ reflexivity | ].
  split; [ apply length_map | ].
  apply Forall2_map_r. intros d Hd k.
  rewrite of_items_wf by (apply wf_filter; now apply Hwf).
  apply get_dropped.
Qed.

Lemma drop_removes_keys_witness :
  blob (drop (mkClumper [ [("a", VInt 1); ("b", VInt 2)]; [("b", VInt 3)] ] [])
          ["a"; "c"])
  = [ [("b", VInt 2)]; [("b", VInt 3)] ]
  /\ List.length
       (blob (drop (mkClumper [ [("a", VInt 1); ("b", VInt 2)]; [("b", VInt 3)] ] [])
                ["a"; "c"])) = 2.
Proof.
  destruct (drop_removes_keys
              (mkClumper [ [("a", VInt 1); ("b", VInt 2)]; [("b", VInt 3)] ] [])
              ["a"; "c"]) as (_ & H & _).
  - intros d Hd. simpl in Hd.
    destruct Hd as [<- | [<- | []]]; repeat constructor; simpl; intuition discriminate.
  - split; [ reflexivity | exact H ].
Defined.

Lemma filter_none {A} (p : A -> bool) (l : list A) :
  (forall x, In x l -> p x = false) -> filter p l = [].
Proof.
  induction l as [ | x l IH ]; intros H; simpl; [ reflexivity | ].
  rewrite (H x) by now left.
  apply IH. intros y Hy. apply H. now right.
Qed.

(** Selecting keys and then dropping the same keys leaves one empty record
    per record. *)
Theorem select_then_drop_is_empty :
  forall (self : Clumper) (ks : list string),
    (forall d k, In d (blob self) -> In k ks -> has k d = true) ->
    (c <- select self ks ;; Ok (drop c ks))
    = Ok (mkClumper (map (fun _ => []) (blob self)) (groups self)).
Proof.
  intros self ks H.
  rewrite select_ok by exact H. cbn [bind].
  unfold drop, create_new. cbn [blob groups].
  f_equal. f_equal. rewrite map_map. apply map_ext. intros d.
  rewrite filter_none; [ reflexivity | ].
  intros [k v] Hin. apply negb_false_iff. apply mem_str_In.
  assert (Hk : In k (keys (of_items (map (fun k => (k, value_at d k)) ks)))).
  { unfold keys. apply in_map_iff. now exists (k, v). }
  apply keys_of_items_incl in Hk.
  unfold keys in Hk. rewrite map_map in Hk. simpl in Hk. now rewrite map_id in Hk.
Qed.

Lemma select_then_drop_is_empty_witness :
  (c <- select (mkClumper [ [("a", VInt 1); ("b", VInt 2)];
                            [("a", VInt 2); ("b", VInt 3); ("c", VInt 4)] ] [])
          ["a"; "b"] ;;
   Ok (drop c ["a"; "b"]))
  = Ok (mkClumper [ []; [] ] []).
Proof.
  apply (select_then_drop_is_empty
           (mkClumper [ [("a", VInt 1); ("b", VInt 2)];
                        [("a", VInt 2); ("b", VInt 3); ("c", VInt 4)] ] [])
           ["a"; "b"]).
  intros d k Hd Hk. simpl in Hd, Hk.
  destruct Hd as [<- | [<- | []]]; destruct Hk as [<- | [<- | []]];
    reflexivity.
Defined.

(** ** [keys] *)

Lemma In_distinct_keys (k : string) (l : list string) :
  In k (distinct_keys l) <-> In k l.
Proof.
  induction l as [ | k0 l IH ]; simpl; [ tauto | ].
  rewrite filter_In, IH, negb_true_iff, String.eqb_neq.
  destruct (string_dec k0 k); [ subst | ]; tauto.
Qed.

Lemma NoDup_distinct_keys (l : list string) : NoDup (distinct_keys l).
Proof.
  induction l as [ | k0 l IH ]; simpl; constructor.
  - rewrite filter_In, negb_true_iff, String.eqb_neq. tauto.
  - now apply NoDup_filter.
Qed.

Lemma In_fold_intersection (k : string) (xs : list (list string)) (x : list string) :
  In k (fold_left intersection xs x) <-> In k x /\ forall y, In y xs -> In k y.
Proof.
  revert x.
  induction xs as [ | y xs IH ]; intros x; simpl.
  - split; [ intros H; split; [ exact H | intros y [] ] | tauto ].
  - rewrite IH. unfold intersection at 1. rewrite filter_In, mem_str_In.
    split.
    + intros [[H1 H2] H3]. split; [ exact H1 | ].
      intros z [<- | Hz]; [ exact H2 | now apply H3 ].
    + intros [H1 H2]. repeat split; [ exact H1 | apply H2; now left | ].
      intros z Hz. apply H2. now right.
Qed.

Lemma NoDup_fold_intersection (xs : list (list string)) (x : list string) :
  NoDup x -> NoDup (fold_left intersection xs x).
Proof.
  revert x.
  induction xs as [ | y xs IH ]; intros x H; simpl; [ exact H | ].
  apply IH. unfold intersection. now apply NoDup_filter.
Qed.

(** [keys()] never raises: it lists, without repetition, exactly the keys
    held by at least one record. *)
Theorem keys_of_any_record :
  forall self : Clumper,
    exists ks,
      clumper_keys self false = Ok ks
      /\ NoDup ks
      /\ forall k, In k ks <-> exists d, In d (blob self) /\ has k d = true.
Proof.
  intros self. eexists. split; [ reflexivity | ].
  split; [ apply NoDup_distinct_keys | ].
  intros k. rewrite In_distinct_keys, in_flat_map.
  split; intros (d & Hd & Hk); exists d; (split; [ exact Hd | ]);
    now apply has_In.
Qed.

(** [keys(overlap=True)] raises [TypeError] on an empty collection, the
    reduction having no initial value; on a non-empty collection it lists,
    without repetition, exactly the keys held by every record. *)
Theorem keys_of_every_record :
  forall self : Clumper,
    (blob self = [] -> clumper_keys self true = Raise TypeError)
    /\ (blob self <> [] ->
        exists ks,
          clumper_keys self true = Ok ks
          /\ NoDup ks
          /\ forall k, In k ks <-> forall d, In d (blob self) -> has k d = true).
Proof.
  intros self.
  unfold clumper_keys, dict_collection_only. split.
  - intros E. now rewrite E.
  - intros Hne. destruct (blob self) as [ | d0 l ]; [ congruence | ].
    eexists. split; [ reflexivity | ].
    split.
    + apply NoDup_fold_intersection, NoDup_distinct_keys.
    + intros k. rewrite In_fold_intersection, In_distinct_keys. split.
      * intros [H0 H] d [<- | Hd]; [ now apply has_In | ].
        apply has_In. apply In_distinct_keys. apply H.
        apply in_map_iff. now exists d.
      * intros H. split; [ apply has_In, H; now left | ].
        intros y Hy. apply in_map_iff in Hy. destruct Hy as (d & <- & Hd).
        apply In_distinct_keys, has_In, H. now right.
Qed.

Lemma keys_of_every_record_witness :
  clumper_keys (mkClumper [] []) true = Raise TypeError
  /\ exists ks,
       clumper_keys (mkClumper [ [("a", VInt 1); ("b", VInt 2)];
                                 [("a", VInt 2); ("c", VInt 3)] ] []) true
       = Ok ks
       /\ (In "a" ks /\ ~ In "b" ks).
Proof.
  split.
  - destruct (keys_of_every_record (mkClumper [] [])) as [H _].
    now apply H.
  - destruct (keys_of_every_record
                (mkClumper [ [("a", VInt 1); ("b", VInt 2)];
                             [("a", VInt 2); ("c", VInt 3)] ] [])) as [_ H].
    destruct H as (ks & E & _ & Hk); [ discriminate | ].
    exists ks. split; [ exact E | ]. split.
    + apply (proj2 (Hk "a")). intros d [<- | [<- | []]]; reflexivity.
    + intros Hb.
      pose proof (proj1 (Hk "b") Hb [("a", VInt 2); ("c", VInt 3)]) as Hc.
      simpl in Hc. discriminate Hc. right. now left.
Defined.

(** ** The registry of reducers *)

Lemma column_absent (key : string) (data : list record) :
  (forall d, In d data -> has key d = false) -> column key data = [].
Proof.
  induction data as [ | d data IH ]; intros H; simpl; [ reflexivity | ].
  pose proof (H d (or_introl eq_refl)) as Hd. unfold has in Hd.
  destruct (get key d); [ discriminate | ].
  apply IH. intros d' Hd'. apply H. now right.
Qed.

Lemma length_distinct_le (l : list value) :
  List.length (distinct l) <= List.length l.
Proof.
  induction l as [ | x l IH ]; simpl; [ lia | ].
  pose proof (filter_length_le (fun y => negb (value_eqb x y)) (distinct l)).
  lia.
Qed.

Section RegistryFacts.

Context {stats : Statistics}.

(** A reducer name outside the ten names of the registry makes
    [summarise_col] raise [ValueError], whatever the data. *)
Theorem unknown_reducer_raises :
  forall (self : Clumper) (name key : string),
    ~ In name ["mean"; "count"; "unique"; "n_unique"; "sum"; "min"; "max";
               "median"; "var"; "std"] ->
    summarise_col self (Named name) key = Raise ValueError.
Proof.
  intros self name key H. unfold summarise_col.
  assert (E : get name funcs = None) by (apply get_None_iff; exact H).
  now rewrite E.
Qed.

(** Over a column that no record holds, the registry reducers see the empty
    sequence: [sum], [count] and [n_unique] give 0, [unique] gives the
    empty list, and [min] and [max] raise [ValueError]. *)
Theorem reducers_on_absent_column :
  forall (self : Clumper) (key : string),
    (forall d, In d (blob self) -> has key d = false) ->
    summarise_col self (Named "sum") key = Ok (VInt 0)
    /\ summarise_col self (Named "count") key = Ok (VInt 0)
    /\ summarise_col self (Named "n_unique") key = Ok (VInt 0)
    /\ summarise_col self (Named "unique") key = Ok (VList [])
    /\ summarise_col self (Named "min") key = Raise ValueError
    /\ summarise_col self (Named "max") key = Raise ValueError.
Proof.
  intros self key H. unfold summarise_col. simpl.
  rewrite (column_absent key (blob self) H).
  repeat split; reflexivity.
Qed.

(** Over a column of hashable values [unique] lists each value of the
    column once, [n_unique] is the length of that list and [count] the
    length of the column, so [n_unique <= count]; one unhashable value
    makes [unique] and [n_unique] raise [TypeError]. *)
Theorem unique_lists_each_value_once :
  forall (self : Clumper) (key : string),
    (forallb hashable (column key (blob self)) = true ->
     exists us,
       summarise_col self (Named "unique") key = Ok (VList us)
       /\ NoDup us
       /\ (forall v, In v us <-> In v (column key (blob self)))
       /\ summarise_col self (Named "n_unique") key
          = Ok (VInt (Z.of_nat (List.length us)))
       /\ summarise_col self (Named "count") key
          = Ok (VInt (Z.of_nat (List.length (column key (blob self)))))
       /\ List.length us <= List.length (column key (blob self)))
    /\ (forallb hashable (column key (blob self)) = false ->
        summarise_col self (Named "unique") key = Raise TypeError
        /\ summarise_col self (Named "n_unique") key = Raise TypeError).
Proof.
  intros self key. unfold summarise_col. simpl. unfold py_set. split.
  - intros H. rewrite H. simpl.
    exists (distinct (column key (blob self))).
    split; [ reflexivity | ].
    split; [ apply NoDup_distinct | ].
    split; [ intros v; apply In_distinct | ].
    split; [ reflexivity | ].
    split; [ reflexivity | apply length_distinct_le ].
  - intros H. rewrite H. split; reflexivity.
Qed.

End RegistryFacts.

Lemma unknown_reducer_raises_witness :
  @summarise_col no_data_statistics (mkClumper [[("a", VInt 1)]] [])
    (Named "mode") "a"
  = Raise ValueError.
Proof.
  apply (@unknown_reducer_raises no_data_statistics).
  simpl. intuition discriminate.
Defined.

Lemma reducers_on_absent_column_witness :
  @summarise_col no_data_statistics
    (mkClumper [[("a", VInt 1)]; [("a", VInt 2)]] []) (Named "min") "b"
  = Raise ValueError.
Proof.
  destruct (@reducers_on_absent_column no_data_statistics
              (mkClumper [[("a", VInt 1)]; [("a", VInt 2)]] []) "b")
    as (_ & _ & _ & _ & H & _).
  - intros d [<- | [<- | []]]; reflexivity.
  - exact H.
Defined.

Lemma unique_lists_each_value_once_witness :
  exists us,
    @summarise_col no_data_statistics
      (mkClumper [[("a", VInt 7)]; [("a", VInt 2)]; [("a", VInt 7)]] [])
      (Named "unique") "a"
    = Ok (VList us)
    /\ List.length us <= 3.
Proof.
  destruct (@unique_lists_each_value_once no_data_statistics
              (mkClumper [[("a", VInt 7)]; [("a", VInt 2)]; [("a", VInt 7)]] [])
              "a") as [H _].
  destruct (H eq_refl) as (us & E & _ & _ & _ & _ & L).
  exists us. split; [ exact E | exact L ].
Defined.

(** ** The groups as a partition *)




Section PartitionMore.

Context {stats : Statistics}.



(** The edge cases of the partitioner: without group keys the only group is
    the collection itself, and an empty collection with group keys has no
    group at all. *)
Theorem subsets_edge_cases :
  forall self : Clumper,
    (groups self = [] -> _subsets self = Ok [self])
    /\ (blob self = [] -> groups self <> [] -> _subsets self = Ok []).
Proof.
  intros [b g]. cbn [blob groups]. split.
  - intros ->. unfold _subsets, dict_collection_only, _group_combos. simpl.
    unfold copy, create_new. simpl. now rewrite map_id.
  - intros -> Hne.
    destruct g as [ | k g ]; [ congruence | ].
    unfold _subsets, dict_collection_only, _group_combos. cbn [blob groups].
    rewrite (mapM_ok _ (fun _ => [])) by reflexivity.
    reflexivity.
Qed.

End PartitionMore.


Lemma subsets_edge_cases_witness :
  @_subsets no_data_statistics (mkClumper [[("a", VInt 1)]] [])
  = Ok [mkClumper [[("a", VInt 1)]] []]
  /\ @_subsets no_data_statistics (mkClumper [] ["a"]) = Ok [].
Proof.
  split.
  - destruct (@subsets_edge_cases no_data_statistics
                (mkClumper [[("a", VInt 1)]] [])) as [H _].
    now apply H.
  - destruct (@subsets_edge_cases no_data_statistics (mkClumper [] ["a"]))
      as [_ H].
    apply H; [ reflexivity | discriminate ].
Defined.

(** ** Objects and group keys *)

Lemma write_write (h : heap) (r : ref) (o1 o2 : Clumper) :
  write (write h r o1) r o2 = write h r o2.
Proof.
  revert r.
  induction h as [ | x h IH ]; intros [ | r ]; simpl; try reflexivity.
  now rewrite IH.
Qed.

Section ObjectFacts.

Context {stats : Statistics}.

Lemma grouped_groups (method : Clumper -> result Clumper) (self o : Clumper) :
  (forall o', method self = Ok o' -> groups o' = groups self) ->
  grouped method self = Ok o -> groups o = groups self.
Proof.
  intros Hm H. unfold grouped in H.
  destruct (groups self) as [ | k ks ] eqn:G.
  - exact (Hm o H).
  - destruct (_group_combos self); simpl in H; [ | discriminate ].
    destruct (_subsets self); simpl in H; [ | discriminate ].
    destruct (mapM _ _); simpl in H; [ | discriminate ].
    now injection H as <-.
Qed.

(** The group keys are sticky: whatever a building verb returns carries the
    group keys of the collection it was called on (for a join, those of the
    left collection). *)
Theorem verbs_carry_group_keys :
  forall (h : heap) (self o : Clumper) (v : verb),
    built h self v = Ok o -> groups o = groups self.
Proof.
  intros h self o v H.
  destruct v as [ fs | n | n | ks | ks | | other m ls rs | other m ls rs
                | kw | kw | f | kw | te kw ];
    simpl in H.
  - unfold keep in H.
    destruct (foldM _ fs (blob self)); simpl in H; [ | discriminate ].
    now injection H as <-.
  - unfold head in H.
    destruct (n <? 0)%Z; [ discriminate | ].
    destruct (mapM _ _); simpl in H; [ | discriminate ].
    now injection H as <-.
  - unfold tail in H.
    destruct (n <? 0)%Z; [ discriminate | ].
    destruct (mapM _ _); simpl in H; [ | discriminate ].
    now injection H as <-.
  - unfold select in H.
    destruct (mapM _ _); simpl in H; [ | discriminate ].
    now injection H as <-.
  - now injection H as <-.
  - now injection H as <-.
  - now injection H as <-.
  - now injection H as <-.
  - unfold agg, dict_collection_only in H.
    apply grouped_groups in H; [ exact H | ].
    intros o' H'. unfold agg_body in H'.
    destruct (mapM _ kw); simpl in H'; [ | discriminate ].
    now injection H' as <-.
  - unfold transform, dict_collection_only in H.
    apply grouped_groups in H; [ exact H | ].
    intros o' H'.
    destruct (agg self kw); simpl in H'; [ | discriminate ].
    now injection H' as <-.
  - unfold clumper_map in H.
    destruct (mapM _ _); simpl in H; [ | discriminate ].
    now injection H as <-.
  - unfold mutate in H.
    apply grouped_groups in H; [ exact H | ].
    intros o' H'. unfold mutate_body in H'.
    destruct (mapM _ _); simpl in H'; [ | discriminate ].
    now injection H' as <-.
  - unfold explode, dict_collection_only in H. cbv zeta in H.
    destruct (mapM _ _); simpl in H; [ | discriminate ].
    now injection H as <-.
Qed.

(** [group_by] overrides a previous setting, and [ungroup] undoes it: on a
    live object, [group_by(c1)] followed by [group_by(c2)] leaves the heap
    that [group_by(c2)] alone leaves, and followed by [ungroup()] the heap
    that [ungroup()] alone leaves. *)
Theorem group_by_overrides :
  forall (h : heap) (self : ref) (c1 c2 : list string),
    self < List.length h ->
    (p <- exec h self (GroupBy c1) ;; exec (fst p) (snd p) (GroupBy c2))
    = exec h self (GroupBy c2)
    /\ (p <- exec h self (GroupBy c1) ;; exec (fst p) (snd p) Ungroup)
       = exec h self Ungroup.
Proof.
  intros h self c1 c2 Hself.
  unfold exec, obj_group_by, obj_ungroup, assign_groups, bindp, ret.
  cbn [bind fst snd].
  rewrite !deref_write_same by exact Hself. cbn [blob].
  now rewrite !write_write.
Qed.

(** Copying first protects the original: [copy()] followed by [group_by] on
    the copy returns a new object with the records of the original and the
    new group keys, and leaves the original as it was. *)
Theorem copy_isolates_group_by :
  forall (h : heap) (self : ref) (cols : list string),
    self < List.length h ->
    exists h' r,
      (p <- exec h self (Build Copy) ;; exec (fst p) (snd p) (GroupBy cols))
      = Ok (h', r)
      /\ r <> self
      /\ deref h' self = deref h self
      /\ deref h' r = mkClumper (blob (deref h self)) cols.
Proof.
  intros h self cols Hself.
  set (o := mkClumper (map (fun d => d) (blob (deref h self)))
              (groups (deref h self))).
  assert (N : deref (h ++ [o]) (List.length h) = o)
    by apply (deref_alloc_new h o).
  assert (L : List.length h < List.length (h ++ [o])).
  { rewrite length_app. simpl. lia. }
  exists (write (h ++ [o]) (List.length h) (mkClumper (blob o) cols)),
    (List.length h).
  split.
  { unfold exec, run, obj_copy, obj_create_new, obj_group_by, assign_groups,
      read, new, alloc, bindp, ret.
    cbn [bind fst snd]. fold o. rewrite N. reflexivity. }
  split; [ lia | split ].
  - rewrite deref_write_other by lia.
    apply (deref_alloc_old h o self Hself).
  - rewrite deref_write_same by exact L.
    subst o. cbn [blob]. now rewrite map_id.
Qed.

End ObjectFacts.

Lemma group_by_overrides_witness :
  let h := [mkClumper [[("a", VInt 1)]] []] in
  (p <- @exec no_data_statistics h 0 (GroupBy ["a"]) ;;
   @exec no_data_statistics (fst p) (snd p) Ungroup)
  = Ok (h, 0).
Proof.
  cbv zeta.
  destruct (@group_by_overrides no_data_statistics
              [mkClumper [[("a", VInt 1)]] []] 0 ["a"] ["b"]) as [_ H].
  - simpl. lia.
  - rewrite H. reflexivity.
Defined.

Lemma copy_isolates_group_by_witness :
  exists h' r,
    (p <- @exec no_data_statistics [mkClumper [[("a", VInt 1)]] []] 0 (Build Copy) ;;
     @exec no_data_statistics (fst p) (snd p) (GroupBy ["a"]))
    = Ok (h', r)
    /\ deref h' 0 = mkClumper [[("a", VInt 1)]] [].
Proof.
  destruct (@copy_isolates_group_by no_data_statistics
              [mkClumper [[("a", VInt 1)]] []] 0 ["a"])
    as (h' & r & H1 & _ & H2 & _).
  - simpl. lia.
  - exists h', r. split; [ exact H1 | exact H2 ].
Defined.

(** ** [mutate] *)

Lemma has_set {V} (k k0 : string) (v : V) (d : dict V) :
  has k (set k0 v d) = has k d || String.eqb k k0.
Proof.
  unfold has.
  destruct (String.eqb k k0) eqn:E.
  - apply String.eqb_eq in E. subst. rewrite get_set_eq. now rewrite orb_true_r.
  - apply String.eqb_neq in E. rewrite get_set_ne by exact E.
    now rewrite orb_false_r.
Qed.

Lemma mutate_record_keys (kw : dict (record -> result value)) (new r : record) :
  foldM (fun new kf => v <- snd kf new ;; Ok (set (fst kf) v new)) kw new = Ok r ->
  (forall k, ~ In k (keys kw) -> get k r = get k new)
  /\ (forall k, In k (keys kw) -> has k r = true)
  /\ (forall k, has k new = true -> has k r = true).
Proof.
  revert new.
  induction kw as [ | [k0 f] kw IH ]; intros new H; simpl in H.
  - injection H as <-. simpl. repeat split; tauto.
  - destruct (f new) as [ v | e ] eqn:Ev; simpl in H; [ | discriminate ].
    destruct (IH _ H) as (F1 & F2 & F3).
    split; [ | split ].
    + intros k Hk.
      assert (N1 : k <> k0) by (intros ->; apply Hk; now left).
      assert (N2 : ~ In k (keys kw)) by (intros Hin; apply Hk; now right).
      rewrite F1 by exact N2. now apply get_set_ne.
    + intros k [<- | Hk]; [ | now apply F2 ].
      apply F3. rewrite has_set, String.eqb_refl. apply orb_true_r.
    + intros k Hk. apply F3. rewrite has_set, Hk. reflexivity.
Qed.

Lemma mapM_total {A B} (f : A -> result B) (R : A -> B -> Prop) (l : list A) :
  (forall x, In x l -> exists y, f x = Ok y /\ R x y) ->
  exists ys, mapM f l = Ok ys /\ Forall2 R l ys.
Proof.
  induction l as [ | x l IH ]; intros H.
  - exists []. split; [ reflexivity | constructor ].
  - destruct (H x (or_introl eq_refl)) as (y & E & Hy).
    destruct IH as (ys & Eys & F).
    { intros x' Hx'. apply H. now right. }
    exists (y :: ys). simpl. rewrite E, Eys.
    split; [ reflexivity | now constructor ].
Qed.

Lemma mapM_raises {A B} (f : A -> result B) (l : list A) (x : A) (e : exn) :
  In x l -> f x = Raise e -> exists e', mapM f l = Raise e'.
Proof.
  induction l as [ | y l IH ]; intros Hin E; [ destruct Hin | ].
  simpl. destruct Hin as [-> | Hin].
  - rewrite E. now exists e.
  - destruct (f y) as [ z | e0 ]; [ | now exists e0 ].
    destruct (IH Hin E) as (e' & ->). now exists e'.
Qed.

(** The body of [mutate] returns exactly when the loop over the keyword
    arguments returns on every record of the collection, each function
    being applied to the record as the loop has built it so far.  It then
    returns one record per record, with the group keys; each holds every
    key of the keyword arguments, and every other key keeps the value it
    had.  When a function raises on a record, so does [mutate]. *)
Theorem mutate_touches_named_keys_only :
  forall (self : Clumper) (kw : dict (record -> result value)),
    (forall d, In d (blob self) -> wf d) ->
    ((forall d, In d (blob self) -> exists r, mutate_record kw d = Ok r) ->
     exists out,
       mutate_body self kw = Ok out
       /\ groups out = groups self
       /\ List.length (blob out) = List.length (blob self)
       /\ Forall2 (fun d r =>
                     mutate_record kw d = Ok r
                     /\ (forall k, ~ In k (keys kw) -> get k r = get k d)
                     /\ (forall k, In k (keys kw) -> has k r = true))
            (blob self) (blob out))
    /\ (forall d e, In d (blob self) -> mutate_record kw d = Raise e ->
        exists e', mutate_body self kw = Raise e').
Proof.
  intros self kw Hwf. split.
  - intros Hkw. unfold mutate_body. rewrite map_id.
    destruct (mapM_total (mutate_record kw)
                (fun d r =>
                   mutate_record kw d = Ok r
                   /\ (forall k, ~ In k (keys kw) -> get k r = get k d)
                   /\ (forall k, In k (keys kw) -> has k r = true))
                (blob self)) as (ys & E & F).
    + intros d Hd. destruct (Hkw d Hd) as (r & Er).
      exists r. split; [ exact Er | ]. split; [ exact Er | ].
      unfold mutate_record in Er.
      destruct (mutate_record_keys kw (of_items d) r Er) as (F1 & F2 & _).
      rewrite of_items_wf in F1 by now apply Hwf.
      split; assumption.
    + rewrite E. simpl. eexists. split; [ reflexivity | ].
      cbn [blob groups create_new].
      split; [ reflexivity | ].
      split; [ symmetry; eapply Forall2_length; exact F | exact F ].
  - intros d e Hd E. unfold mutate_body. rewrite map_id.
    destruct (mapM_raises (mutate_record kw) (blob self) d e Hd E) as (e' & ->).
    now exists e'.
Qed.

(** The docstring's [mutate(c=lambda d: d['a'] + d['b'])], followed by a
    function that reads the key the first one has just stored. *)
Lemma mutate_touches_named_keys_only_witness :
  let plus (k1 k2 : string) (d : record) : result value :=
    x <- getitem k1 d ;; y <- getitem k2 d ;; py_add x y in
  mutate_body (mkClumper [ [("a", VInt 1); ("b", VInt 2)] ] [])
    [ ("c", plus "a" "b"); ("s", plus "b" "c") ]
  = Ok (mkClumper [ [("a", VInt 1); ("b", VInt 2); ("c", VInt 3); ("s", VInt 5)] ] []).
Proof.
  cbv zeta.
  destruct (mutate_touches_named_keys_only
              (mkClumper [ [("a", VInt 1); ("b", VInt 2)] ] [])
              [ ("c", fun d => x <- getitem "a" d ;; y <- getitem "b" d ;; py_add x y);
                ("s", fun d => x <- getitem "b" d ;; y <- getitem "c" d ;; py_add x y) ])
    as [H _].
  - intros d [<- | []]. repeat constructor; simpl; intuition discriminate.
  - destruct H as (out & H1 & _).
    + intros d [<- | []]. eexists. reflexivity.
    + etransitivity; [ exact H1 | ].
      vm_compute in H1. injection H1 as <-. reflexivity.
Defined.

(** ** [explode] *)

Lemma product_single (l : list value) : product [l] = map (fun x => [x]) l.
Proof.
  simpl. induction l as [ | x l IH ]; simpl; [ reflexivity | now rewrite IH ].
Qed.

Lemma length_flat_map_sum {A B} (f : A -> list B) (l : list A) :
  List.length (flat_map f l) = list_sum (map (fun x => List.length (f x)) l).
Proof.
  induction l as [ | x l IH ]; simpl; [ reflexivity | ].
  now rewrite length_app, IH.
Qed.

(** Exploding one key under its own name: when every record holds a list
    under the key, each record gives one row per element of its list, in
    order, the element replacing the list and the other keys unchanged; a
    record with an empty list gives no row. *)
Theorem explode_one_key :
  forall (self : Clumper) (k : string),
    (forall d, In d (blob self) -> wf d /\ exists l, get k d = Some (VList l)) ->
    explode self [k] []
    = Ok (mkClumper
            (flat_map (fun d => map (fun x => set k x d) (list_at k d)) (blob self))
            (groups self))
    /\ (forall out, explode self [k] [] = Ok out ->
        List.length (blob out)
        = list_sum (map (fun d => List.length (list_at k d)) (blob self))).
Proof.
  intros self k H.
  assert (E : explode self [k] []
              = Ok (mkClumper
                      (flat_map (fun d => map (fun x => set k x d) (list_at k d))
                         (blob self))
                      (groups self))).
  { unfold explode, dict_collection_only. cbv zeta.
    change (update [] (map (fun k0 => (k0, k0)) [k])) with [(k, k)].
    cbn [keys vals map fst snd].
    rewrite (mapM_ok _ (fun d => map (fun x => set k x d) (list_at k d))).
    - cbn [bind]. rewrite <- flat_map_concat_map.
      cbn [filter mem_str existsb]. rewrite String.eqb_refl. cbn [orb negb].
      unfold drop, create_new. cbn [blob groups].
      f_equal. f_equal.
      rewrite <- (map_id (flat_map _ (blob self))) at 2.
      apply map_ext_in. intros r Hr.
      rewrite filter_all by reflexivity.
      apply of_items_wf.
      apply in_flat_map in Hr. destruct Hr as (d & Hd & Hr).
      apply in_map_iff in Hr. destruct Hr as (x & <- & _).
      apply wf_set. now apply H.
    - intros d Hd. destruct (H d Hd) as (_ & l & El).
      unfold exploded. cbn [mapM]. unfold getitem, list_at. rewrite El.
      cbn [bind mapM py_iter].
      rewrite product_single, map_map, map_id.
      reflexivity. }
  split; [ exact E | ].
  intros out Hout. rewrite E in Hout. injection Hout as <-. cbn [blob].
  rewrite length_flat_map_sum. f_equal.
  apply map_ext. intros d. apply length_map.
Qed.

(** The docstring's [Clumper([{'a': 1, 'items': [1, 2]}]).explode("items")]. *)
Lemma explode_one_key_witness :
  explode (mkClumper [ [("a", VInt 1); ("items", VList [VInt 1; VInt 2])] ] [])
    ["items"] []
  = Ok (mkClumper [ [("a", VInt 1); ("items", VInt 1)];
                    [("a", VInt 1); ("items", VInt 2)] ] []).
Proof.
  destruct (explode_one_key
              (mkClumper [ [("a", VInt 1); ("items", VList [VInt 1; VInt 2])] ] [])
              "items") as [E _].
  - intros d [<- | []]. split.
    + repeat constructor; simpl; intuition discriminate.
    + eexists. reflexivity.
  - rewrite E. reflexivity.
Defined.

(** ** Sums and extrema of integers *)

Lemma py_sum_from_ints (acc : Z) (zs : list Z) :
  py_sum_from acc (map VInt zs) = Ok (VInt (acc + fold_right Z.add 0 zs)%Z).
Proof.
  revert acc.
  induction zs as [ | z zs IH ]; intros acc; simpl.
  - now rewrite Z.add_0_r.
  - rewrite IH. do 2 f_equal. lia.
Qed.

Lemma py_best_min_ints (b : Z) (zs : list Z) :
  py_best py_lt (VInt b) (map VInt zs) = Ok (VInt (fold_left Z.min zs b)).
Proof.
  revert b.
  induction zs as [ | z zs IH ]; intros b; simpl; [ reflexivity | ].
  destruct (z <? b)%Z eqn:E; rewrite IH; do 3 f_equal.
  - apply Z.ltb_lt in E. lia.
  - apply Z.ltb_ge in E. lia.
Qed.

Lemma py_best_max_ints (b : Z) (zs : list Z) :
  py_best (fun item best => py_lt best item) (VInt b) (map VInt zs)
  = Ok (VInt (fold_left Z.max zs b)).
Proof.
  revert b.
  induction zs as [ | z zs IH ]; intros b; simpl; [ reflexivity | ].
  destruct (b <? z)%Z eqn:E; rewrite IH; do 3 f_equal.
  - apply Z.ltb_lt in E. lia.
  - apply Z.ltb_ge in E. lia.
Qed.

Lemma fold_min_spec (zs : list Z) (b : Z) :
  In (fold_left Z.min zs b) (b :: zs)
  /\ forall z, In z (b :: zs) -> (fold_left Z.min zs b <= z)%Z.
Proof.
  revert b.
  induction zs as [ | z0 zs IH ]; intros b; simpl.
  - split; [ now left | intros z [<- | []]; lia ].
  - destruct (IH (Z.min b z0)) as [H1 H2]. split.
    + destruct H1 as [H1 | H1]; [ rewrite <- H1 | right; now right ].
      destruct (Z.min_spec b z0) as [[_ E] | [_ E]]; rewrite E;
        [ now left | right; now left ].
    + intros z Hz.
      assert (L : (fold_left Z.min zs (Z.min b z0) <= Z.min b z0)%Z)
        by (apply H2; now left).
      destruct Hz as [<- | [<- | Hz]]; [ lia | lia | apply H2; now right ].
Qed.

Lemma fold_max_spec (zs : list Z) (b : Z) :
  In (fold_left Z.max zs b) (b :: zs)
  /\ forall z, In z (b :: zs) -> (z <= fold_left Z.max zs b)%Z.
Proof.
  revert b.
  induction zs as [ | z0 zs IH ]; intros b; simpl.
  - split; [ now left | intros z [<- | []]; lia ].
  - destruct (IH (Z.max b z0)) as [H1 H2]. split.
    + destruct H1 as [H1 | H1]; [ rewrite <- H1 | right; now right ].
      destruct (Z.max_spec b z0) as [[_ E] | [_ E]]; rewrite E;
        [ right; now left | now left ].
    + intros z Hz.
      assert (L : (Z.max b z0 <= fold_left Z.max zs (Z.max b z0))%Z)
        by (apply H2; now left).
      destruct Hz as [<- | [<- | Hz]]; [ lia | lia | apply H2; now right ].
Qed.

Section IntegerFacts.

Context {stats : Statistics}.

(** Over a column of integers, [sum] is their sum (0 when there is none),
    and, when there is at least one, [min] and [max] are values of the
    column below, respectively above, every value of the column. *)
Theorem sum_min_max_of_integers :
  forall (self : Clumper) (key : string) (zs : list Z),
    column key (blob self) = map VInt zs ->
    summarise_col self (Named "sum") key = Ok (VInt (fold_right Z.add 0 zs)%Z)
    /\ (zs <> [] ->
        exists lo hi,
          summarise_col self (Named "min") key = Ok (VInt lo)
          /\ summarise_col self (Named "max") key = Ok (VInt hi)
          /\ In lo zs /\ In hi zs
          /\ forall z, In z zs -> (lo <= z <= hi)%Z).
Proof.
  intros self key zs E. unfold summarise_col. simpl. rewrite E. split.
  - unfold py_sum. now rewrite py_sum_from_ints.
  - intros Hne. destruct zs as [ | b zs ]; [ congruence | ].
    exists (fold_left Z.min zs b), (fold_left Z.max zs b).
    cbn [map py_min py_max].
    rewrite py_best_min_ints, py_best_max_ints.
    destruct (fold_min_spec zs b) as [M1 M2].
    destruct (fold_max_spec zs b) as [X1 X2].
    repeat split; try assumption; [ now apply M2 | now apply X2 ].
Qed.

End IntegerFacts.

Lemma sum_min_max_of_integers_witness :
  let c := mkClumper
             [ [("a", VInt 7)];
               [("a", VInt 2); ("b", VInt 7)];
               [("a", VInt 3); ("b", VInt 6)];
               [("a", VInt 2); ("b", VInt 7)] ] [] in
  @summarise_col no_data_statistics c (Named "sum") "a" = Ok (VInt 14).
Proof.
  cbv zeta.
  destruct (@sum_min_max_of_integers no_data_statistics
              (mkClumper
                 [ [("a", VInt 7)];
                   [("a", VInt 2); ("b", VInt 7)];
                   [("a", VInt 3); ("b", VInt 6)];
                   [("a", VInt 2); ("b", VInt 7)] ] [])
              "a" [7; 2; 3; 2]%Z eq_refl) as [H _].
  exact H.
Defined.

Lemma verbs_carry_group_keys_witness :
  groups (drop (mkClumper [[("a", VInt 1)]] ["a"]) ["b"]) = ["a"].
Proof.
  apply (@verbs_carry_group_keys no_data_statistics []
           (mkClumper [[("a", VInt 1)]] ["a"]) _ (Drop ["b"])).
  reflexivity.
Defined.

(** ** More on [explode] and [agg] *)

Lemma map_flat_map {A B C} (g : B -> C) (f : A -> list B) (l : list A) :
  map g (flat_map f l) = flat_map (fun x => map g (f x)) l.
Proof.
  induction l as [ | x l IH ]; simpl; [ reflexivity | ].
  now rewrite map_app, IH.
Qed.

Lemma flat_map_ext_in {A B} (f g : A -> list B) (l : list A) :
  (forall x, In x l -> f x = g x) -> flat_map f l = flat_map g l.
Proof.
  induction l as [ | x l IH ]; intros H; simpl; [ reflexivity | ].
  rewrite (H x) by now left.
  rewrite IH; [ reflexivity | ]. intros y Hy. apply H. now right.
Qed.

(** Exploding a key under a new name: when every record holds a list under
    the key, each record gives one row per element of its list, the element
    stored under the new name and the exploded key removed. *)
Theorem explode_renamed_key :
  forall (self : Clumper) (new k : string),
    new <> k ->
    (forall d, In d (blob self) -> wf d /\ exists l, get k d = Some (VList l)) ->
    exists out,
      explode self [] [(new, k)] = Ok out
      /\ groups out = groups self
      /\ blob out
         = flat_map (fun d =>
                       map (fun x =>
                              filter (fun kv => negb (String.eqb (fst kv) k))
                                (set new x d))
                         (list_at k d))
             (blob self)
      /\ forall r, In r (blob out) -> has k r = false /\ has new r = true.
Proof.
  intros self new k Hne H.
  assert (E : explode self [] [(new, k)]
              = Ok (mkClumper
                      (flat_map (fun d =>
                                   map (fun x =>
                                          filter (fun kv => negb (String.eqb (fst kv) k))
                                            (set new x d))
                                     (list_at k d))
                         (blob self))
                      (groups self))).
  { unfold explode, dict_collection_only. cbv zeta.
    change (update [(new, k)] (map (fun k0 => (k0, k0)) [])) with [(new, k)].
    cbn [keys vals map fst snd].
    rewrite (mapM_ok _ (fun d => map (fun x => set new x d) (list_at k d))).
    - cbn [bind]. rewrite <- flat_map_concat_map.
      cbn [filter mem_str existsb].
      assert (N : String.eqb k new = false) by (apply String.eqb_neq; congruence).
      rewrite N. cbn [orb negb].
      unfold drop, create_new. cbn [blob groups].
      f_equal. f_equal.
      rewrite map_flat_map. apply flat_map_ext_in. intros d Hd.
      rewrite map_map. apply map_ext. intros x.
      rewrite of_items_wf.
      + apply filter_ext. intros [k' v']. cbn [fst mem_str existsb].
        now rewrite orb_false_r.
      + apply wf_filter, wf_set. now apply H.
    - intros d Hd. destruct (H d Hd) as (_ & l & El).
      unfold exploded. cbn [mapM]. unfold getitem, list_at. rewrite El.
      cbn [bind mapM py_iter].
      rewrite product_single, map_map, map_id.
      reflexivity. }
  eexists. split; [ exact E | ].
  cbn [blob groups]. split; [ reflexivity | split; [ reflexivity | ] ].
  intros r Hr.
  apply in_flat_map in Hr. destruct Hr as (d & Hd & Hr).
  apply in_map_iff in Hr. destruct Hr as (x & <- & _).
  pose proof (get_dropped (set new x d) [k]) as G.
  assert (F : filter (fun kv => negb (mem_str (fst kv) [k])) (set new x d)
              = filter (fun kv => negb (String.eqb (fst kv) k)) (set new x d)).
  { apply filter_ext. intros [k' v']. cbn [fst mem_str existsb].
    now rewrite orb_false_r. }
  rewrite F in G. unfold has. rewrite !G.
  cbn [mem_str existsb]. rewrite String.eqb_refl. cbn [orb].
  assert (N : String.eqb new k = false) by (now apply String.eqb_neq).
  rewrite N. cbn [orb]. now rewrite get_set_eq.
Qed.

(** The docstring's [Clumper([{'a': 1, 'items': [1, 2]}]).explode(item="items")]. *)
Lemma explode_renamed_key_witness :
  exists out,
    explode (mkClumper [ [("a", VInt 1); ("items", VList [VInt 1; VInt 2])] ] [])
      [] [("item", "items")]
    = Ok out
    /\ blob out = [ [("a", VInt 1); ("item", VInt 1)];
                    [("a", VInt 1); ("item", VInt 2)] ].
Proof.
  destruct (explode_renamed_key
              (mkClumper [ [("a", VInt 1); ("items", VList [VInt 1; VInt 2])] ] [])
              "item" "items") as (out & E & _ & B & _).
  - discriminate.
  - intros d [<- | []]. split.
    + repeat constructor; simpl; intuition discriminate.
    + eexists. reflexivity.
  - exists out. split; [ exact E | ]. rewrite B. reflexivity.
Defined.

Section AggFacts.

Context {stats : Statistics}.

(** Without group keys, and when every reducer returns a value on the
    collection, [agg] returns a collection of exactly one record, which
    holds under each name the result of [summarise_col] for its column and
    reducer; a reducer that raises makes [agg] raise. *)
Theorem agg_without_groups :
  forall (self : Clumper) (kw : kwargs),
    groups self = [] ->
    NoDup (keys kw) ->
    (aggregates_on kw self ->
     exists res,
       agg self kw = Ok (mkClumper [res] [])
       /\ aggregated kw self res)
    /\ ((exists item e,
           In item kw /\
           summarise_col self (snd (snd item)) (fst (snd item)) = Raise e) ->
        exists e', agg self kw = Raise e').
Proof.
  intros self kw G Hnd.
  unfold agg, dict_collection_only, grouped. rewrite G. split.
  - intros H. exists (agg_values self kw).
    rewrite agg_body_ok by exact H. rewrite G.
    rewrite of_items_wf by (unfold wf; now rewrite keys_agg_values).
    split; [ reflexivity | now apply agg_values_aggregated ].
  - intros (item & e & Hin & E). unfold agg_body.
    assert (R : exists e', mapM (fun item =>
                                   v <- summarise_col self (snd (snd item))
                                          (fst (snd item)) ;;
                                   Ok (fst item, v)) kw = Raise e').
    { clear Hnd. induction kw as [ | it kw IH ]; [ destruct Hin | ].
      simpl.
      destruct (summarise_col self (snd (snd it)) (fst (snd it))) as [ v | e0 ] eqn:E0;
        simpl; [ | now exists e0 ].
      destruct Hin as [-> | Hin]; [ congruence | ].
      destruct (IH Hin) as (e' & ->). now exists e'. }
    destruct R as (e' & ->). now exists e'.
Qed.

End AggFacts.

(** The first aggregation of the docstring of [agg] with [sum] for [mean]. *)
Lemma agg_without_groups_witness :
  exists res,
    @agg no_data_statistics
      (mkClumper [ [("a", VInt 1); ("b", VInt 2)];
                   [("a", VInt 2); ("b", VInt 3)];
                   [("a", VInt 3)] ] [])
      [ ("sum_a", ("a", Named "sum")); ("min_b", ("b", Named "min"));
        ("max_b", ("b", Named "max")) ]
    = Ok (mkClumper [res] [])
    /\ res = [ ("sum_a", VInt 6); ("min_b", VInt 2); ("max_b", VInt 3) ].
Proof.
  destruct (@agg_without_groups no_data_statistics
              (mkClumper [ [("a", VInt 1); ("b", VInt 2)];
                           [("a", VInt 2); ("b", VInt 3)];
                           [("a", VInt 3)] ] [])
              [ ("sum_a", ("a", Named "sum")); ("min_b", ("b", Named "min"));
                ("max_b", ("b", Named "max")) ]) as [H _].
  - reflexivity.
  - simpl. repeat constructor; simpl; intuition discriminate.
  - destruct H as (res & E & _).
    + intros item [<- | [<- | [<- | []]]]; eexists; reflexivity.
    + exists res. split; [ exact E | ].
      vm_compute in E. now injection E as <-.
Defined.

(** ** [transform], group by group *)





Section TransformByGroup.

Context {stats : Statistics}.









End TransformByGroup.



(** ** The reducers and the values they receive *)

Section ReducerFacts.

Context {stats : Statistics}.

(** C7, as the code has it: [summarise_col] hands the reducer, a callable or
    the registry entry of a name, exactly the values found under the column
    in the records that hold the column, in order, and skips the other
    records.  [agg] aggregates through it: without group keys over the
    collection, for every keyword argument; with group keys over each group
    of the partitioner, the summary records coming in the order of the
    partitioner.  A scalar verb applies its reducer to those values whenever
    at least one value is present ([unique] lists each value once, in an
    order the statement leaves open).  On the collection of the docstrings
    [sum("b")] is 20, [count("b")] is 3 and [n_unique("b")] is 2. *)
Theorem reducers_get_present_values :
  (forall (self : Clumper) f key,
      summarise_col self (Callable f) key = f (column key (blob self)))
  /\ (forall (self : Clumper) name key,
        summarise_col self (Named name) key
        = match get name funcs with
          | Some f => f (column key (blob self))
          | None => Raise ValueError
          end)
  /\ (forall key (data : list record),
        Forall2 (fun d v => get key d = Some v)
          (filter (has key) data) (column key data))
  /\ (forall (self : Clumper) (kw : kwargs),
        groups self = [] ->
        agg self kw
        = (res <- mapM (fun item =>
                     v <- summarise_col self (snd (snd item)) (fst (snd item)) ;;
                     Ok (fst item, v)) kw ;;
           Ok (mkClumper [of_items res] [])))
  /\ (forall (self : Clumper) (kw : kwargs),
        groups self <> [] ->
        NoDup (groups self) ->
        groupable self ->
        (forall comb, In comb (product (distinct_values self)) ->
           aggregates_on kw (group_of self comb)) ->
        exists combs summaries,
          Permutation combs (product (distinct_values self))
          /\ agg self kw = Ok (mkClumper summaries (groups self))
          /\ Forall2 (fun comb s =>
                        exists res,
                          aggregated kw (group_of self comb) res
                          /\ s = update (combine (groups self) comb) (of_items res))
               combs summaries)
  /\ (forall (self : Clumper) col v vs,
        column col (blob self) = v :: vs ->
        sum self col = py_sum (v :: vs)
        /\ count self col = py_len (v :: vs)
        /\ min self col = py_min (v :: vs)
        /\ max self col = py_max (v :: vs)
        /\ mean self col = statistics_mean (v :: vs)
        /\ (forallb hashable (v :: vs) = true ->
            exists us,
              unique self col = Ok (VList us)
              /\ n_unique self col = Ok (VInt (Z.of_nat (List.length us)))
              /\ NoDup us
              /\ forall x, In x us <-> In x (v :: vs))
        /\ (forallb hashable (v :: vs) = false ->
            unique self col = Raise TypeError
            /\ n_unique self col = Raise TypeError))
  /\ (let c := mkClumper
                 [ [("a", VInt 7)];
                   [("a", VInt 2); ("b", VInt 7)];
                   [("a", VInt 3); ("b", VInt 6)];
                   [("a", VInt 2); ("b", VInt 7)] ] [] in
      column "b" (blob c) = [VInt 7; VInt 6; VInt 7] /\
      sum c "b" = Ok (VInt 20) /\
      count c "b" = Ok (VInt 3) /\
      n_unique c "b" = Ok (VInt 2) /\
      summarise_col c (Named "sum") "b" = Ok (VInt 20) /\
      summarise_col c (Named "count") "b" = Ok (VInt 3) /\
      summarise_col c (Named "n_unique") "b" = Ok (VInt 2)).
Proof.
  split; [ reflexivity | ].
  split.
  { intros self name key. unfold summarise_col.
    now destruct (get name funcs). }
  split.
  { intros key data.
    induction data as [ | d data IH ]; simpl; [ constructor | ].
    unfold has at 1. destruct (get key d) as [ v | ] eqn:E; simpl.
    - constructor; assumption.
    - exact IH. }
  split.
  { intros self kw G.
    unfold agg, dict_collection_only, grouped, agg_body. now rewrite G. }
  split.
  { intros self kw Hne Hnd Hg Hagg.
    exists (product (distinct_values self)),
      (map (summary_of self kw) (product (distinct_values self))).
    split; [ apply Permutation_refl | ].
    split; [ now apply agg_grouped_ok | ].
    apply Forall2_map_r. intros comb Hc.
    exists (agg_values (group_of self comb) kw).
    split; [ apply agg_values_aggregated; now apply Hagg | reflexivity ]. }
  split.
  { intros self col v vs E.
    unfold sum, count, n_unique, unique, min, max, mean,
      dict_collection_only, return_value_if_empty, summarise_col.
    rewrite E. cbn [bind].
    do 5 (split; [ reflexivity | ]).
    unfold py_set. split; intros H; rewrite H.
    - exists (distinct (v :: vs)).
      split; [ reflexivity | ].
      split; [ reflexivity | ].
      split; [ apply NoDup_distinct | intros x; apply In_distinct ].
    - split; reflexivity. }
  cbv zeta. repeat split; reflexivity.
Qed.

End ReducerFacts.

(** A grouped aggregation, and the scalar verbs where a value is present. *)
Lemma reducers_get_present_values_witness :
  let r (a b : Z) : record := [("a", VInt a); ("b", VInt b)] in
  let c := mkClumper [r 1 1; r 2 5; r 1 2]%Z ["a"] in
  (exists summaries,
      @agg no_data_statistics c [("s", ("b", Named "sum"))]
      = Ok (mkClumper summaries ["a"])
      /\ List.length summaries = 2)
  /\ @sum no_data_statistics c "b" = Ok (VInt 8)
  /\ (exists us, @unique no_data_statistics c "b" = Ok (VList us)
                 /\ List.length us = 3).
Proof.
  cbv beta zeta.
  destruct (@reducers_get_present_values no_data_statistics)
    as (_ & _ & _ & _ & Hagg & Hverbs & _).
  split; [ | split ].
  - destruct (Hagg (mkClumper [ [("a", VInt 1); ("b", VInt 1)];
                                [("a", VInt 2); ("b", VInt 5)];
                                [("a", VInt 1); ("b", VInt 2)] ] ["a"])
                [("s", ("b", Named "sum"))])
      as (combs & summaries & Hp & E & F).
    + discriminate.
    + simpl. repeat constructor; simpl; intuition discriminate.
    + intros d k Hd Hk. simpl in Hd, Hk.
      destruct Hd as [<- | [<- | [<- | []]]];
        destruct Hk as [<- | []];
        eexists; split; reflexivity.
    + intros comb Hc item Hi. vm_compute in Hc.
      destruct Hc as [<- | [<- | []]];
        simpl in Hi; destruct Hi as [<- | []];
        eexists; vm_compute; reflexivity.
    + exists summaries. split; [ exact E | ].
      etransitivity; [ symmetry; exact (Forall2_length F) | ].
      now rewrite (Permutation_length Hp).
  - destruct (Hverbs (mkClumper [ [("a", VInt 1); ("b", VInt 1)];
                                  [("a", VInt 2); ("b", VInt 5)];
                                  [("a", VInt 1); ("b", VInt 2)] ] ["a"])
                "b" (VInt 1) [VInt 5; VInt 2] eq_refl) as (H & _).
    etransitivity; [ exact H | reflexivity ].
  - destruct (Hverbs (mkClumper [ [("a", VInt 1); ("b", VInt 1)];
                                  [("a", VInt 2); ("b", VInt 5)];
                                  [("a", VInt 1); ("b", VInt 2)] ] ["a"])
                "b" (VInt 1) [VInt 5; VInt 2] eq_refl)
      as (_ & _ & _ & _ & _ & H & _).
    destruct (H eq_refl) as (us & E & _ & Hnd & Hin).
    exists us. split; [ exact E | ].
    vm_compute in E. now injection E as <-.
Defined.

(** C7 as stated fails for the scalar verbs: on the empty collection no
    value is found under the column; the reducer [sum] applied to no value
    gives 0, and the verb [sum] returns [None] without applying it. *)
Lemma sum_verb_skips_reducer_on_no_value :
  ~ (forall (stats : Statistics) (self : Clumper) (col : string),
       sum self col = py_sum (column col (blob self))).
Proof.
  intros H.
  specialize (H no_data_statistics (mkClumper [] []) "b").
  discriminate H.
Qed.

(** ** Methods that only read and construct *)

Lemma extends_refl (h : heap) : extends h h.
Proof. exists []. now rewrite app_nil_r. Qed.

Lemma extends_trans (h1 h2 h3 : heap) :
  extends h1 h2 -> extends h2 h3 -> extends h1 h3.
Proof.
  intros (m1 & ->) (m2 & ->). exists (m1 ++ m2). now rewrite app_assoc.
Qed.

Lemma extends_length (h h' : heap) :
  extends h h' -> List.length h <= List.length h'.
Proof. intros (m & ->). rewrite length_app. lia. Qed.

Lemma extends_deref (h h' : heap) (r : ref) :
  extends h h' -> r < List.length h -> deref h' r = deref h r.
Proof. intros (m & ->) H. unfold deref. now apply app_nth1. Qed.

Lemma grows_ret {A} (a : A) : grows (ret a).
Proof. intros h h' a' H. injection H as <- _. apply extends_refl. Qed.

Lemma grows_lift {A} (r : result A) : grows (lift r).
Proof.
  intros h h' a H. unfold lift in H.
  destruct r; simpl in H; [ | discriminate ].
  injection H as <- _. apply extends_refl.
Qed.

Lemma grows_read (r : ref) : grows (read r).
Proof. intros h h' a H. injection H as <- _. apply extends_refl. Qed.

Lemma fresh_new (b : list record) (g : list string) : fresh (new b g).
Proof.
  intros h h' r H. unfold new, alloc in H. injection H as <- <-.
  split; [ now eexists | ]. rewrite length_app. simpl. lia.
Qed.

Lemma fresh_grows (p : prog ref) : fresh p -> grows p.
Proof. intros H h h' r E. now apply (H h h' r). Qed.

Lemma grows_new (b : list record) (g : list string) : grows (new b g).
Proof. apply fresh_grows, fresh_new. Qed.

Lemma grows_bind {A B} (p : prog A) (f : A -> prog B) :
  grows p -> (forall a, grows (f a)) -> grows (bindp p f).
Proof.
  intros Hp Hf h h' b H. unfold bindp in H.
  destruct (p h) as [ [h1 a] | e ] eqn:E; [ | discriminate ].
  eapply extends_trans; [ exact (Hp _ _ _ E) | exact (Hf _ _ _ _ H) ].
Qed.

Lemma fresh_bind {A} (p : prog A) (f : A -> prog ref) :
  grows p -> (forall a, fresh (f a)) -> fresh (bindp p f).
Proof.
  intros Hp Hf h h' r H. unfold bindp in H.
  destruct (p h) as [ [h1 a] | e ] eqn:E; [ | discriminate ].
  pose proof (Hp _ _ _ E) as X1.
  destruct (Hf _ _ _ _ H) as [X2 L].
  split; [ eapply extends_trans; eassumption | ].
  apply extends_length in X1. lia.
Qed.

Lemma fresh_raise (e : exn) : fresh (lift (Raise e)).
Proof. intros h h' r H. discriminate H. Qed.

Lemma grows_mapP {A B} (f : A -> prog B) (l : list A) :
  (forall x, grows (f x)) -> grows (mapP f l).
Proof.
  intros Hf. induction l as [ | x l IH ]; simpl.
  - apply grows_ret.
  - apply grows_bind; [ apply Hf | intros y ].
    apply grows_bind; [ exact IH | intros ys; apply grows_ret ].
Qed.

Lemma grows_foldP {A B} (f : A -> B -> prog A) (l : list B) (acc : A) :
  (forall a x, grows (f a x)) -> grows (foldP f l acc).
Proof.
  intros Hf. revert acc. induction l as [ | x l IH ]; intros acc; simpl.
  - apply grows_ret.
  - apply grows_bind; [ apply Hf | intros acc'; apply IH ].
Qed.

(** [create_new] constructs one object. *)
Lemma fresh_create_new (self : ref) (b : list record) :
  fresh (obj_create_new self b).
Proof.
  unfold obj_create_new.
  apply fresh_bind; [ apply grows_read | intros o; apply fresh_new ].
Qed.

(** One step through a method that reads, computes and constructs. *)
Ltac frame :=
  repeat first
    [ apply fresh_new
    | apply fresh_create_new
    | apply fresh_raise
    | apply grows_read
    | apply grows_lift
    | apply grows_ret
    | apply grows_new
    | apply fresh_bind; [ | intro ]
    | apply grows_bind; [ | intro ] ].

Lemma fresh_keep (self : ref) (fs : list (record -> result bool)) :
  fresh (obj_keep self fs).
Proof. unfold obj_keep. frame. Qed.

Lemma fresh_copy (self : ref) : fresh (obj_copy self).
Proof. unfold obj_copy. frame. Qed.

Lemma fresh_head (self : ref) (n : Z) : fresh (obj_head self n).
Proof. unfold obj_head. destruct (n <? 0)%Z; cbv zeta; frame. Qed.

Lemma fresh_tail (self : ref) (n : Z) : fresh (obj_tail self n).
Proof. unfold obj_tail. destruct (n <? 0)%Z; cbv zeta; frame. Qed.

Lemma fresh_select (self : ref) (ks : list string) : fresh (obj_select self ks).
Proof. unfold obj_select. frame. Qed.

Lemma fresh_drop (self : ref) (ks : list string) : fresh (obj_drop self ks).
Proof. unfold obj_drop. frame. Qed.

Lemma fresh_map (self : ref) (f : record -> result record) : fresh (obj_map self f).
Proof. unfold obj_map. frame. Qed.

Lemma fresh_left_join (self other : ref) (m : dict string) (ls rs : string) :
  fresh (obj_left_join self other m ls rs).
Proof. unfold obj_left_join. frame. Qed.

Lemma fresh_inner_join (self other : ref) (m : dict string) (ls rs : string) :
  fresh (obj_inner_join self other m ls rs).
Proof. unfold obj_inner_join. frame. Qed.

Lemma fresh_explode (self : ref) (te : list string) (kw : dict string) :
  fresh (obj_explode self te kw).
Proof.
  unfold obj_explode. cbv zeta. frame.
Qed.

Section FrameFacts.

Context {stats : Statistics}.

Lemma grows_subsets (self : ref) : grows (obj_subsets self).
Proof.
  unfold obj_subsets, obj_group_combos.
  apply grows_bind; [ frame | intros combos ].
  apply grows_mapP. intros gc.
  apply grows_bind; [ apply fresh_grows, fresh_copy | intros subset ].
  apply grows_foldP. intros s kv. apply fresh_grows, fresh_keep.
Qed.

(** The decorator [grouped] keeps the property of the method it wraps. *)
Lemma fresh_grouped (method : ref -> prog ref) (self : ref) :
  (forall s, fresh (method s)) -> fresh (obj_grouped method self).
Proof.
  intros Hm. unfold obj_grouped.
  apply fresh_bind; [ apply grows_read | intros o ].
  destruct (groups o) as [ | k ks ]; [ apply Hm | ].
  apply fresh_bind; [ unfold obj_group_combos; frame | intros combos ].
  apply fresh_bind; [ apply grows_subsets | intros subsets ].
  apply fresh_bind; [ | intros rows; apply fresh_new ].
  apply grows_mapP. intros gs.
  apply grows_bind; [ apply fresh_grows, Hm | intros r ].
  frame.
Qed.

Lemma fresh_agg (self : ref) (kw : kwargs) : fresh (obj_agg self kw).
Proof.
  unfold obj_agg. apply fresh_grouped. intros s.
  unfold obj_agg_body. frame.
Qed.

Lemma fresh_transform (self : ref) (kw : kwargs) : fresh (obj_transform self kw).
Proof.
  unfold obj_transform. apply fresh_grouped. intros s.
  apply fresh_bind; [ apply fresh_grows, fresh_agg | intros a ].
  apply fresh_bind; [ apply grows_read | intros o ].
  apply fresh_left_join.
Qed.

Lemma fresh_mutate (self : ref) (kw : dict (record -> result value)) :
  fresh (obj_mutate self kw).
Proof.
  unfold obj_mutate. apply fresh_grouped. intros s. frame.
Qed.

(** Every building verb only adds objects to the heap and returns one of
    the objects it has added. *)
Lemma fresh_run (v : verb) (self : ref) : fresh (run v self).
Proof.
  destruct v; simpl.
  - apply fresh_keep.
  - apply fresh_head.
  - apply fresh_tail.
  - apply fresh_select.
  - apply fresh_drop.
  - apply fresh_copy.
  - apply fresh_left_join.
  - apply fresh_inner_join.
  - apply fresh_agg.
  - apply fresh_transform.
  - apply fresh_map.
  - apply fresh_mutate.
  - apply fresh_explode.
Qed.

(** A direct verb constructs, as its only object, the collection that the
    verb builds from the fields of the receiver. *)
Lemma run_direct (v : verb) (h : heap) (self : ref) :
  direct v = true ->
  run v self h = (o <- built h (deref h self) v ;; Ok (alloc h o)).
Proof.
  destruct v as [ fs | n | n | ks | ks | | other m ls rs | other m ls rs
                | kw | kw | f | kw | te kw ];
    intros D; try discriminate D; clear D;
    unfold run, built, obj_keep, obj_head, obj_tail, obj_select, obj_drop,
      obj_copy, obj_map, obj_left_join, obj_inner_join, obj_create_new,
      read, new, lift, bindp.
  - unfold keep. destruct (foldM _ fs _); reflexivity.
  - unfold head. destruct (n <? 0)%Z; [ reflexivity | ].
    cbv zeta. destruct (mapM _ _); reflexivity.
  - unfold tail. destruct (n <? 0)%Z; [ reflexivity | ].
    cbv zeta. destruct (mapM _ _); reflexivity.
  - unfold select. destruct (mapM _ _); reflexivity.
  - reflexivity.
  - reflexivity.
  - reflexivity.
  - reflexivity.
  - unfold clumper_map. destruct (mapM _ _); reflexivity.
Qed.

End FrameFacts.

(** ** The methods on objects and the verbs on values *)

Lemma stable_holds : stable holds.
Proof.
  intros h h' r o X [L E]. split.
  - apply extends_length in X. lia.
  - now rewrite (extends_deref h h' r X L).
Qed.

Lemma holds_alloc (h : heap) (o : Clumper) :
  holds (fst (alloc h o)) (snd (alloc h o)) o.
Proof.
  split; [ | apply deref_alloc_new ].
  unfold alloc. cbn [fst snd]. rewrite length_app. simpl. lia.
Qed.

Lemma extends_alloc (h : heap) (o : Clumper) : extends h (fst (alloc h o)).
Proof. now exists [o]. Qed.

(** A program that is the computation [c] followed by one construction. *)
Lemma simulates_alloc (p : prog ref) (c : result Clumper) (h : heap) :
  p h = (o <- c ;; Ok (alloc h o)) -> simulates holds p c h.
Proof.
  intros E. unfold simulates. destruct c as [ o | e ]; simpl in E.
  - exists (fst (alloc h o)), (snd (alloc h o)).
    split; [ exact E | ]. split; [ apply extends_alloc | apply holds_alloc ].
  - exact E.
Qed.

Lemma simulates_bind {A A' B B'} (R1 : heap -> A -> A' -> Prop)
    (R2 : heap -> B -> B' -> Prop) (p : prog A) (c : result A')
    (f : A -> prog B) (g : A' -> result B') (h : heap) :
  simulates R1 p c h ->
  (forall h1 a a', extends h h1 -> R1 h1 a a' -> simulates R2 (f a) (g a') h1) ->
  simulates R2 (bindp p f) (bind c g) h.
Proof.
  intros Hp Hf. unfold simulates in Hp.
  destruct c as [ a' | e ]; simpl.
  - destruct Hp as (h1 & a & E & X & Ha).
    specialize (Hf h1 a a' X Ha). unfold simulates in *.
    unfold bindp. rewrite E.
    destruct (g a') as [ b' | e ].
    + destruct Hf as (h2 & b & E2 & X2 & Hb).
      exists h2, b. split; [ exact E2 | ].
      split; [ eapply extends_trans; eassumption | exact Hb ].
    + exact Hf.
  - unfold bindp. now rewrite Hp.
Qed.

Lemma bindp_ok {A B} (p : prog A) (f : A -> prog B) (h h1 : heap) (a : A) :
  p h = Ok (h1, a) -> bindp p f h = f a h1.
Proof. intros E. unfold bindp. now rewrite E. Qed.

Lemma bindp_raise {A B} (p : prog A) (f : A -> prog B) (h : heap) (e : exn) :
  p h = Raise e -> bindp p f h = Raise e.
Proof. intros E. unfold bindp. now rewrite E. Qed.

Lemma simulates_mapP {A A' B B'} (Q : heap -> A -> A' -> Prop)
    (R : heap -> B -> B' -> Prop) (F : A -> prog B) (G : A' -> result B') :
  stable Q -> stable R ->
  (forall h x x', Q h x x' -> simulates R (F x) (G x') h) ->
  forall la lb h,
    Forall2 (Q h) la lb ->
    simulates (fun h' bs bs' => Forall2 (R h') bs bs') (mapP F la) (mapM G lb) h.
Proof.
  intros SQ SR HF la.
  induction la as [ | x la IH ]; intros lb h H; inversion H as [ | ? x' ? lb' Hx Hl ];
    subst.
  - simpl. exists h, []. split; [ reflexivity | ].
    split; [ apply extends_refl | constructor ].
  - specialize (HF h x x' Hx). unfold simulates in HF |- *.
    cbn [mapP mapM].
    destruct (G x') as [ y' | e ]; [ | now apply bindp_raise ].
    destruct HF as (h1 & y & E & X & Hy).
    rewrite (bindp_ok _ _ _ _ _ E).
    assert (Hl1 : Forall2 (Q h1) la lb').
    { eapply Forall2_impl; [ | exact Hl ]. intros a b. now apply SQ. }
    specialize (IH lb' h1 Hl1). unfold simulates in IH.
    destruct (mapM G lb') as [ ys' | e ]; [ | now apply bindp_raise ].
    destruct IH as (h2 & ys & E2 & X2 & Hys).
    rewrite (bindp_ok _ _ _ _ _ E2).
    exists h2, (y :: ys). split; [ reflexivity | ].
    split; [ eapply extends_trans; eassumption | ].
    constructor; [ now apply (SR h1 h2) | exact Hys ].
Qed.

Lemma simulates_weaken {A B} (R R' : heap -> A -> B -> Prop) (p : prog A)
    (c : result B) (h : heap) :
  (forall h' a b, R h' a b -> R' h' a b) ->
  simulates R p c h -> simulates R' p c h.
Proof.
  intros HR H. unfold simulates in *.
  destruct c as [ b | e ]; [ | exact H ].
  destruct H as (h' & a & E & X & Hr).
  exists h', a. split; [ exact E | split; [ exact X | now apply HR ] ].
Qed.

Lemma simulates_read_bind {B B'} (R : heap -> B -> B' -> Prop)
    (f : Clumper -> prog B) (c : result B') (h : heap) (self : ref) (o : Clumper) :
  holds h self o ->
  simulates R (f o) c h ->
  simulates R (bindp (read self) f) c h.
Proof.
  intros [_ <-] H. unfold simulates, bindp, read in *. exact H.
Qed.

Section SimulationFacts.

Context {stats : Statistics}.

(** A direct verb on an object does what the verb does on its value. *)
Lemma simulates_direct (v : verb) (h : heap) (self : ref) :
  direct v = true ->
  simulates holds (run v self) (built h (deref h self) v) h.
Proof.
  intros D. apply simulates_alloc. now apply run_direct.
Qed.

Lemma simulates_keep (fs : list (record -> result bool)) (h : heap)
    (s : ref) (o : Clumper) :
  holds h s o -> simulates holds (obj_keep s fs) (keep o fs) h.
Proof.
  intros [_ <-]. exact (simulates_direct (Keep fs) h s eq_refl).
Qed.

(** The loop of [_subsets] over the items of one combination. *)
Lemma simulates_subset_loop (gc : record) :
  forall (h : heap) (s : ref) (o : Clumper),
    holds h s o ->
    simulates holds
      (foldP (fun subset kv => obj_keep subset [key_equals (fst kv) (snd kv)]) gc s)
      (foldM (fun subset kv => keep subset [key_equals (fst kv) (snd kv)]) gc o)
      h.
Proof.
  induction gc as [ | kv gc IH ]; intros h s o Hs.
  - simpl. exists h, s. split; [ reflexivity | ].
    split; [ apply extends_refl | exact Hs ].
  - cbn [foldP foldM].
    eapply simulates_bind.
    + apply simulates_keep. exact Hs.
    + intros h1 s1 o1 _ Hs1. now apply IH.
Qed.

Lemma simulates_subsets (h : heap) (self : ref) (o : Clumper) :
  holds h self o ->
  simulates (fun h' refs os => Forall2 (holds h') refs os)
    (obj_subsets self) (_subsets o) h.
Proof.
  intros Hs. unfold obj_subsets, _subsets, dict_collection_only, obj_group_combos.
  eapply (simulates_bind (fun h1 a a' => a = a' /\ holds h1 self o)).
  - destruct Hs as [L <-]. unfold simulates, bindp, read, lift.
    destruct (_group_combos (deref h self)) as [ combos | e ]; simpl.
    + exists h, combos. split; [ reflexivity | ].
      split; [ apply extends_refl | ]. split; [ reflexivity | now split ].
    + reflexivity.
  - intros h1 combos combos' X [<- Hs1].
    apply (simulates_mapP (fun h2 gc gc' => gc = gc' /\ holds h2 self o) holds).
    + intros h2 h3 gc gc' X2 [E Hh]. split; [ exact E | ].
      now apply (stable_holds h2 h3).
    + apply stable_holds.
    + intros h2 gc gc' [<- Hs2].
      apply (simulates_bind holds holds (obj_copy self) (Ok (copy o)) _
               (fun o3 => foldM (fun subset kv =>
                                   keep subset [key_equals (fst kv) (snd kv)])
                            gc o3)).
      * destruct Hs2 as [L2 <-].
        exact (simulates_direct Copy h2 self eq_refl).
      * intros h3 s3 o3 _ Hs3.
        now apply simulates_subset_loop.
    + clear X. induction combos as [ | gc combos IH ]; constructor; [ | exact IH ].
      now split.
Qed.

(** The decorator [grouped] on objects does what it does on values, when
    the method it wraps does. *)
Lemma simulates_grouped (method_p : ref -> prog ref)
    (method : Clumper -> result Clumper) (h : heap) (self : ref) (o : Clumper) :
  (forall h1 s o1, holds h1 s o1 -> simulates holds (method_p s) (method o1) h1) ->
  holds h self o ->
  simulates holds (obj_grouped method_p self) (grouped method o) h.
Proof.
  intros Hm Hs. pose proof Hs as [L Eo].
  unfold obj_grouped, grouped.
  apply (simulates_read_bind _ _ _ _ _ _ Hs).
  destruct (groups o) as [ | k ks ] eqn:G; [ now apply Hm | ].
  eapply (simulates_bind (fun h1 a a' => a = a')).
  { unfold obj_group_combos, simulates, bindp, read, lift. rewrite Eo.
    destruct (_group_combos o) as [ combos | e ]; simpl; [ | reflexivity ].
    exists h, combos. split; [ reflexivity | ].
    split; [ apply extends_refl | reflexivity ]. }
  intros h1 combos combos' X1 <-.
  eapply simulates_bind.
  { apply simulates_subsets. now apply (stable_holds h h1). }
  intros h2 refs subs X2 Hrefs. cbn beta.
  eapply (simulates_bind (fun h3 a a' => a = a')).
  - apply (simulates_weaken
             (fun h3 bs bs' => Forall2 (fun b b' : list record => b = b') bs bs')).
    + intros h3 bs bs' Hbs.
      induction Hbs; [ reflexivity | now f_equal ].
    + apply (simulates_mapP
               (fun h3 (gs : record * ref) (gs' : record * Clumper) =>
                  fst gs = fst gs' /\ holds h3 (snd gs) (snd gs'))
               (fun h3 (b b' : list record) => b = b')).
      * intros h3 h4 gs gs' X [E Hh]. split; [ exact E | ].
        now apply (stable_holds h3 h4).
      * intros h3 h4 b b' _ E. exact E.
      * intros h3 [gc s] [gc' o'] [E Hh]. cbn [fst snd] in *. subst gc'.
        eapply simulates_bind; [ apply Hm; exact Hh | ].
        intros h4 r r' _ [Lr Er]. cbn beta.
        unfold simulates, bindp, read, ret. rewrite Er.
        exists h4, (map (update gc) (blob r')).
        split; [ reflexivity | ]. split; [ apply extends_refl | reflexivity ].
      * clear - Hrefs. revert combos.
        induction Hrefs as [ | s o' refs subs Hs _ IH ]; intros [ | gc combos ];
          simpl; constructor; [ now split | apply IH ].
  - intros h3 rows rows' _ <-.
    unfold simulates. unfold new.
    eexists. eexists. split; [ reflexivity | ].
    split; [ apply extends_alloc | apply holds_alloc ].
Qed.

Lemma simulates_agg (kw : kwargs) (h : heap) (s : ref) (o : Clumper) :
  holds h s o -> simulates holds (obj_agg s kw) (agg o kw) h.
Proof.
  intros Hs. unfold obj_agg, agg, dict_collection_only.
  apply simulates_grouped; [ | exact Hs ].
  intros h1 s1 o1 [_ <-]. apply simulates_alloc.
  unfold obj_agg_body, agg_body, bindp, read, lift, new.
  destruct (mapM _ kw); reflexivity.
Qed.

Lemma simulates_transform (kw : kwargs) (h : heap) (s : ref) (o : Clumper) :
  holds h s o -> simulates holds (obj_transform s kw) (transform o kw) h.
Proof.
  intros Hs. unfold obj_transform, transform, dict_collection_only.
  apply simulates_grouped; [ | exact Hs ].
  intros h1 s1 o1 Hs1.
  eapply simulates_bind; [ apply simulates_agg; exact Hs1 | ].
  intros h2 a a' X [La Ea].
  destruct (stable_holds h1 h2 s1 o1 X Hs1) as [L1 E1].
  apply simulates_alloc.
  cbv beta iota delta [bindp read obj_left_join obj_create_new new bind
                        left_join create_new].
  rewrite E1, Ea. reflexivity.
Qed.

Lemma simulates_mutate (kw : dict (record -> result value)) (h : heap)
    (s : ref) (o : Clumper) :
  holds h s o -> simulates holds (obj_mutate s kw) (mutate o kw) h.
Proof.
  intros Hs. unfold obj_mutate, mutate.
  apply simulates_grouped; [ | exact Hs ].
  intros h1 s1 o1 [_ <-]. apply simulates_alloc.
  unfold mutate_body, obj_create_new, bindp, read, lift, new, create_new.
  destruct (mapM _ _); reflexivity.
Qed.

Lemma simulates_explode (te : list string) (kw : dict string) (h : heap)
    (s : ref) (o : Clumper) :
  holds h s o -> simulates holds (obj_explode s te kw) (explode o te kw) h.
Proof.
  intros [L <-].
  unfold simulates, obj_explode, explode, dict_collection_only. cbv zeta.
  cbv beta iota delta [bindp read lift obj_create_new obj_drop new].
  match goal with
  | |- context [mapM ?f (blob (deref h s))] =>
      destruct (mapM f (blob (deref h s))) as [ res | e ]
  end; cbn [bind]; [ | reflexivity ].
  pose proof (deref_alloc_new h (mkClumper (List.concat res) (groups (deref h s))))
    as Et.
  cbn [fst snd alloc] in Et |- *. rewrite !Et.
  eexists. eexists. split; [ reflexivity | ].
  split.
  - exists [mkClumper (List.concat res) (groups (deref h s));
            drop (create_new (deref h s) (List.concat res))
              (filter (fun k => negb (mem_str k
                         (keys (update kw (map (fun k0 => (k0, k0)) te)))))
                 (vals (update kw (map (fun k0 => (k0, k0)) te))))].
    rewrite <- app_assoc. reflexivity.
  - split.
    + rewrite !length_app. simpl. lia.
    + unfold deref. rewrite app_nth2 by (rewrite length_app; simpl; lia).
      rewrite length_app. simpl.
      replace (List.length h + 1 - (List.length h + 1)) with 0 by lia.
      reflexivity.
Qed.

(** Every building verb on an object does what the verb does on the value
    of the object: it raises what the verb raises, or it only adds objects
    to the heap and returns a new one, the collection that the verb builds. *)
Lemma simulates_run (v : verb) (h : heap) (self : ref) :
  self < List.length h ->
  simulates holds (run v self) (built h (deref h self) v) h.
Proof.
  intros L.
  assert (Hs : holds h self (deref h self)) by now split.
  destruct v; try (now apply simulates_direct); cbn [run built].
  - now apply simulates_agg.
  - now apply simulates_transform.
  - now apply simulates_mutate.
  - now apply simulates_explode.
Qed.

End SimulationFacts.

Section FrameTheorem.

Context {stats : Statistics}.

(** C9, as the code has it: [group_by] and [ungroup] return the object they
    were called on, with its records untouched and its group keys
    overwritten.  Each of [keep], [head], [tail], [select], [drop], [copy],
    [map], [mutate], [explode], [agg], [transform], [left_join] and
    [inner_join] only reads the object it is called on: it returns an object
    that did not exist before the call, which is the collection the verb
    builds from the receiver, and leaves the receiver, and every other
    object, as it was.  The verbs among them that construct once return the
    first free reference. *)
Theorem verbs_frame :
  forall (h h' : heap) (self r : ref) (c : call),
    self < List.length h ->
    exec h self c = Ok (h', r) ->
    (forall r', r' < List.length h -> r' <> self -> deref h' r' = deref h r')
    /\ blob (deref h' self) = blob (deref h self)
    /\ match c with
       | GroupBy cols => r = self /\ groups (deref h' self) = cols
       | Ungroup => r = self /\ groups (deref h' self) = []
       | Build v =>
           List.length h <= r /\ r < List.length h' /\ r <> self /\
           deref h' self = deref h self /\
           built h (deref h self) v = Ok (deref h' r) /\
           (direct v = true -> r = List.length h)
       end.
Proof.
  intros h h' self r c Hself Hexec.
  destruct c as [ cols | | v ]; simpl in Hexec.
  - unfold obj_group_by, assign_groups, bindp, ret in Hexec.
    injection Hexec as <- <-.
    split; [ | split; [ | split ] ].
    + intros r' _ Hne. now apply deref_write_other.
    + now rewrite deref_write_same.
    + reflexivity.
    + now rewrite deref_write_same.
  - unfold obj_ungroup, assign_groups, bindp, ret in Hexec.
    injection Hexec as <- <-.
    split; [ | split; [ | split ] ].
    + intros r' _ Hne. now apply deref_write_other.
    + now rewrite deref_write_same.
    + reflexivity.
    + now rewrite deref_write_same.
  - destruct (fresh_run v self h h' r Hexec) as [X L].
    pose proof (fun r' => extends_deref h h' r' X) as Ho.
    split; [ | split; [ | split; [ | split; [ | split; [ | split; [ | split ] ] ] ] ] ].
    + intros r' Hlt _. now apply Ho.
    + now rewrite Ho.
    + lia.
    + lia.
    + lia.
    + now apply Ho.
    + pose proof (simulates_run v h self Hself) as S. unfold simulates in S.
      destruct (built h (deref h self) v) as [ o | e ]; [ | congruence ].
      destruct S as (h2 & r2 & E & _ & _ & Hd).
      rewrite Hexec in E. injection E as <- <-. now rewrite Hd.
    + intros D. rewrite (run_direct v h self D) in Hexec.
      destruct (built h (deref h self) v) as [ o | e ]; simpl in Hexec;
        [ | discriminate ].
      now injection Hexec as <- <-.
Qed.

End FrameTheorem.

Lemma verbs_frame_witness :
  let h := [mkClumper [[("a", VInt 1)]; [("a", VInt 2)]] []] in
  (exists h', @exec no_data_statistics h 0 (GroupBy ["a"]) = Ok (h', 0)
              /\ groups (deref h' 0) = ["a"])
  /\ (exists h' r, @exec no_data_statistics h 0 (Build (Head 1)) = Ok (h', r)
                   /\ r <> 0 /\ deref h' 0 = deref h 0
                   /\ deref h' r = mkClumper [[("a", VInt 1)]] []).
Proof.
  cbv zeta. split.
  - eexists. split; [ reflexivity | ].
    destruct (@verbs_frame no_data_statistics
                [mkClumper [[("a", VInt 1)]; [("a", VInt 2)]] []]
                [mkClumper [[("a", VInt 1)]; [("a", VInt 2)]] ["a"]] 0 0
                (GroupBy ["a"]))
      as (_ & _ & _ & H).
    + simpl. lia.
    + reflexivity.
    + exact H.
  - exists [mkClumper [[("a", VInt 1)]; [("a", VInt 2)]] [];
            mkClumper [[("a", VInt 1)]] []], 1.
    split; [ reflexivity | ].
    destruct (@verbs_frame no_data_statistics
                [mkClumper [[("a", VInt 1)]; [("a", VInt 2)]] []]
                [mkClumper [[("a", VInt 1)]; [("a", VInt 2)]] [];
                 mkClumper [[("a", VInt 1)]] []] 0 1
                (Build (Head 1)))
      as (_ & _ & _ & _ & H1 & H2 & _).
    + simpl. lia.
    + reflexivity.
    + split; [ exact H1 | split; [ exact H2 | reflexivity ] ].
Defined.

(** [pipe] returns what its function returns, which may be the receiver:
    with [group_by] as the function, the receiver itself comes back, with
    new group keys. *)
Lemma pipe_may_return_receiver :
  let h := [mkClumper [[("a", VInt 1)]] []] in
  obj_pipe 0 (fun c => obj_group_by c ["a"]) h
  = Ok ([mkClumper [[("a", VInt 1)]] ["a"]], 0).
Proof. reflexivity. Qed.

